(** * MinitelGPT: a shallow embedding of [minitel_gpt.py]

    The development follows the layout of the Python file: string helpers,
    [wrap_40] (with the part of the standard [textwrap] module it calls),
    [HistoryStore], the two transports [SerialMinitel] and [SimulatedMinitel],
    and the two display functions.

    Conventions.
    - Python [int] is [Z]; a Python [str] is a list of 8-bit characters read
      as Latin-1 code points, the character set of the terminal link.
    - [None] / a value is [option]; a raised exception is an explicit error.
    - Objects that are mutated in place and can be aliased (the message list
      of a [HistoryStore]) live in a heap indexed by locations. *)

From Stdlib Require Import ZArith List Ascii String Lia Bool.
From stdpp Require Import gmap strings list fin_maps.

Local Open Scope Z_scope.

(** ** Python strings *)

Module PyStr.

Abbreviation str := (list ascii).

(** A string literal as a [str]. *)
Definition lit (s : string) : str := list_ascii_of_string s.

Definition code (c : ascii) : Z := Z.of_N (N_of_ascii c).
Definition chr (n : Z) : ascii := ascii_of_N (Z.to_N n).

Definition len {A} (s : list A) : Z := Z.of_nat (length s).

Definition SP : ascii := " "%char.
Definition LF : ascii := chr 10.
Definition CR : ascii := chr 13.
Definition TAB : ascii := chr 9.
Definition BS : ascii := chr 8.
Definition HYPHEN : ascii := "-"%char.

(** [s[:n]] and [s[n:]]: a negative bound counts from the end and is clamped
    at the start of the string. *)
Definition slice_to {A} (s : list A) (n : Z) : list A :=
  if n <? 0 then take (Z.to_nat (len s + n)) s else take (Z.to_nat n) s.

Definition slice_from {A} (s : list A) (n : Z) : list A :=
  if n <? 0 then drop (Z.to_nat (len s + n)) s else drop (Z.to_nat n) s.

(** [c in s] *)
Definition contains (c : ascii) (s : str) : bool := existsb (Ascii.eqb c) s.

(** [s.find(c)] / [s.index(c)]: lowest index, [-1] when absent
    ([index] is only called under the guard [c in s]). *)
Fixpoint find_from (c : ascii) (s : str) (i : Z) : Z :=
  match s with
  | [] => -1
  | x :: t => if Ascii.eqb x c then i else find_from c t (i + 1)
  end.
Definition find (c : ascii) (s : str) : Z := find_from c s 0.

(** [s.rfind(c)]: highest index, [-1] when absent. *)
Fixpoint rfind_from (c : ascii) (s : str) (i : Z) : Z :=
  match s with
  | [] => -1
  | x :: t =>
      let r := rfind_from c t (i + 1) in
      if 0 <=? r then r else if Ascii.eqb x c then i else -1
  end.
Definition rfind (c : ascii) (s : str) : Z := rfind_from c s 0.

(** [str.isspace] on Latin-1: 0x09-0x0D, 0x1C-0x20, 0x85, 0xA0. *)
Definition isspace (c : ascii) : bool :=
  let n := code c in
  ((9 <=? n) && (n <=? 13)) || ((28 <=? n) && (n <=? 32))
  || (n =? 133) || (n =? 160).

(** [s.lstrip()], [s.rstrip()], [s.strip()] *)
Fixpoint lstrip (s : str) : str :=
  match s with
  | [] => []
  | c :: t => if isspace c then lstrip t else s
  end.
Definition rstrip (s : str) : str := rev (lstrip (rev s)).
Definition strip (s : str) : str := rstrip (lstrip s).

(** Truth value of a string or list: non-empty. *)
Definition truthy {A} (s : list A) : bool :=
  match s with [] => false | _ => true end.

(** [s.split(c)] for a one-character separator. *)
Fixpoint split (c : ascii) (s : str) : list str :=
  match s with
  | [] => [[]]
  | x :: t =>
      if Ascii.eqb x c then [] :: split c t
      else match split c t with
           | [] => [[x]]
           | h :: r => (x :: h) :: r
           end
  end.

(** [s.expandtabs(tabsize)]: the column restarts after a line feed or a
    carriage return. *)
Fixpoint expandtabs_from (tabsize col : Z) (s : str) : str :=
  match s with
  | [] => []
  | c :: t =>
      if Ascii.eqb c TAB then
        if 0 <? tabsize then
          let incr := tabsize - col mod tabsize in
          repeat SP (Z.to_nat incr) ++ expandtabs_from tabsize (col + incr) t
        else expandtabs_from tabsize col t
      else if Ascii.eqb c LF || Ascii.eqb c CR then
        c :: expandtabs_from tabsize 0 t
      else c :: expandtabs_from tabsize (col + 1) t
  end.
Definition expandtabs (tabsize : Z) (s : str) : str :=
  expandtabs_from tabsize 0 s.

End PyStr.
Import PyStr.

(** ** Text beyond Latin-1

    A Python [str] as the list of its code points, [bytes] as the list of
    their values. *)

Module Unicode.

(** [text.encode("latin-1", errors="replace")]: a character Latin-1 lacks
    becomes a question mark. *)
Definition encode_latin1 (text : list Z) : list Z :=
  map (fun cp => if cp <? 256 then cp else 63) text.

(** [data.decode("latin-1")] *)
Definition decode_latin1 (data : list Z) : list Z := data.

Definition sanitize_latin1 (text : list Z) : list Z :=
  decode_latin1 (encode_latin1 text).

(** The bytes [SerialMinitel.write] sends for a text:
    [sanitize_latin1(text).encode("latin-1", errors="replace")]. *)
Definition write_data (text : list Z) : list Z :=
  encode_latin1 (sanitize_latin1 text).

(** The code points of a Latin-1 string, and the Latin-1 string of a text
    whose code points are all under 256. *)
Definition of_str (s : str) : list Z := map code s.
Definition to_str (text : list Z) : str := map chr text.

(** [c.isspace()] on any character, as in CPython 3.11: the whitespace of
    Latin-1, the Ogham space mark, the spaces U+2000 to U+200A, the line
    and paragraph separators, the narrow no-break space, the medium
    mathematical space and the ideographic space. *)
Definition isspace (cp : Z) : bool :=
  ((9 <=? cp) && (cp <=? 13)) || ((28 <=? cp) && (cp <=? 32))
  || (cp =? 133) || (cp =? 160) || (cp =? 5760)
  || ((8192 <=? cp) && (cp <=? 8202)) || (cp =? 8232) || (cp =? 8233)
  || (cp =? 8239) || (cp =? 8287) || (cp =? 12288).

(** [s.lstrip()], [s.rstrip()], [s.strip()] *)
Fixpoint lstrip (text : list Z) : list Z :=
  match text with
  | [] => []
  | cp :: more => if isspace cp then lstrip more else text
  end.
Definition rstrip (text : list Z) : list Z := rev (lstrip (rev text)).
Definition strip (text : list Z) : list Z := rstrip (lstrip text).

End Unicode.

(** [sanitize_latin1] on the strings of this development, whose characters
    are all in Latin-1: the round trip through the Latin-1 encoding, which
    changes nothing there.  [Unicode.sanitize_latin1] is the function on
    any text. *)
Definition sanitize_latin1 (text : str) : str :=
  Unicode.to_str (Unicode.sanitize_latin1 (Unicode.of_str text)).

(** ** Outcomes of a call

    A call returns a value, raises, or (in the model only) runs out of the
    fuel that bounds a [while] loop; the totality lemmas below show that the
    fuel the model supplies is always enough. *)

Inductive exn := IndexError | ValueError | DanglingRef.

Inductive result (A : Type) :=
| Ok (a : A)
| Raise (e : exn)
| OutOfFuel.
Arguments Ok {A} a.
Arguments Raise {A} e.
Arguments OutOfFuel {A}.

Definition bind {A B} (r : result A) (k : A -> result B) : result B :=
  match r with
  | Ok a => k a
  | Raise e => Raise e
  | OutOfFuel => OutOfFuel
  end.

Definition rmap {A B} (f : A -> B) (r : result A) : result B :=
  match r with
  | Ok a => Ok (f a)
  | Raise e => Raise e
  | OutOfFuel => OutOfFuel
  end.

Declare Scope result_scope.
Delimit Scope result_scope with result.
Notation "'let*' x ':=' c 'in' k" := (bind c (fun x => k))
  (at level 10, x pattern, c at level 100, k at level 200) : result_scope.
Local Open Scope result_scope.

(** ** HistoryStore *)

Module History.

(** A message is a [Dict[str, str]]; the program never mutates one after
    building it, so the heap stores them by value inside the list object. *)
Abbreviation message := (gmap string str).
Abbreviation loc := positive.
Abbreviation heap := (gmap loc (list message)).

Definition mk_message (role content : str) : message :=
  <["content"%string := content]> {["role"%string := role]}.

(** [len(m.get(content_key, empty))]: the length of the content entry, 0
    when the key is absent. *)
Definition content_len (m : message) : Z :=
  len (default [] (m !! "content"%string)).

Definition total_chars (l : list message) : Z :=
  foldr (fun m acc => content_len m + acc) 0 l.

Record HistoryStore := mkStore {
  max_turns : Z;
  max_chars : Z;
  messages : loc
}.

(** First loop of [_trim]:
    [while len(self.messages) > self.max_turns * 2: self.messages.pop(0)].
    [pop(0)] on an empty list raises [IndexError]. *)
Fixpoint trim_turns (cap : Z) (l : list message) : result (list message) :=
  if cap <? len l then
    match l with
    | [] => Raise IndexError
    | _ :: t => trim_turns cap t
    end
  else Ok l.

(** Second loop of [_trim]:
    [while total_chars > self.max_chars and self.messages: ...]. *)
Fixpoint trim_chars (cap total : Z) (l : list message) : list message :=
  if cap <? total then
    match l with
    | [] => []
    | removed :: t => trim_chars cap (total - content_len removed) t
    end
  else l.

Definition trim_list (mt mc : Z) (l : list message) : result (list message) :=
  let* l1 := trim_turns (mt * 2) l in
  Ok (trim_chars mc (total_chars l1) l1).

(** [_trim] works in place on the list object the store points to. *)
Definition _trim (s : HistoryStore) (h : heap) : result heap :=
  match h !! messages s with
  | None => Raise DanglingRef
  | Some l =>
      let* l' := trim_list (max_turns s) (max_chars s) l in
      Ok (<[messages s := l']> h)
  end.

(** [add]: append in place, then trim. *)
Definition add (role content : str) (s : HistoryStore) (h : heap) : result heap :=
  match h !! messages s with
  | None => Raise DanglingRef
  | Some l => _trim s (<[messages s := l ++ [mk_message role content]]> h)
  end.

Definition fresh_loc (h : heap) : loc := fresh (dom h).

(** [load]: [data] is [None] when the history file does not exist (the
    field becomes a new empty list and the method returns at once), and
    [Some l] when it exists, [l] being the list [json.load] produced, or the
    empty list when the file is unreadable or does not hold a list; the
    field is rebound to that new list object, which is then trimmed. *)
Definition load (data : option (list message)) (s : HistoryStore) (h : heap)
  : result (HistoryStore * heap) :=
  let r := fresh_loc h in
  let s' := mkStore (max_turns s) (max_chars s) r in
  let h' := <[r := default [] data]> h in
  match data with
  | None =>
      Ok (s', h')
  | Some _ =>
      let* h'' := _trim s' h' in Ok (s', h'')
  end.

(** [get_messages]: [list(self.messages)] builds a new list object. *)
Definition get_messages (s : HistoryStore) (h : heap) : option (loc * heap) :=
  match h !! messages s with
  | None => None
  | Some l => let r := fresh_loc h in Some (r, <[r := l]> h)
  end.

(** What a caller can do to a list it holds. *)
Inductive list_op :=
| Append (m : message)
| Pop (i : nat)
| Insert (i : nat) (m : message)
| SetItem (i : nat) (m : message)
| Reverse
| Clear
| Reorder (f : list message -> list message).

Definition apply_list_op (o : list_op) (l : list message) : list message :=
  match o with
  | Append m => l ++ [m]
  | Pop i => delete i l
  | Insert i m => take i l ++ m :: drop i l
  | SetItem i m => <[i := m]> l
  | Reverse => rev l
  | Clear => []
  | Reorder f => f l
  end.

(** One mutation of the list object at [r]; a dangling [r] leaves the heap
    as it is. *)
Definition mutate (r : loc) (o : list_op) (h : heap) : heap :=
  match h !! r with
  | None => h
  | Some l => <[r := apply_list_op o l]> h
  end.

Definition mutate_all (r : loc) (os : list list_op) (h : heap) : heap :=
  fold_left (fun h o => mutate r o h) os h.

(** *** Notions used in the statements *)

(** Both caps: at most [2 * max_turns] messages, at most [max_chars]
    characters of content. *)
Definition caps_hold (s : HistoryStore) (l : list message) : Prop :=
  len l <= 2 * max_turns s /\ total_chars l <= max_chars s.

(** The store's own list. *)
Definition contents (s : HistoryStore) (h : heap) : option (list message) :=
  h !! messages s.

(** What [get_messages] hands back: the contents of the returned list. *)
Definition returned (r : option (loc * heap)) : option (list message) :=
  match r with Some (p, h) => h !! p | None => None end.

(** A small store: one turn, five characters. *)
Definition store0 : HistoryStore := mkStore 1 5 1%positive.
Definition history0 : list message :=
  [ mk_message (lit "user") (lit "abc");
    mk_message (lit "assistant") (lit "defg");
    mk_message (lit "user") (lit "hi") ].
Definition heap0 : heap := {[ 1%positive := history0 ]}.

End History.

(** ** The part of the standard [textwrap] module that [wrap_40] calls

    [textwrap.wrap(paragraph, width=width, break_long_words=True,
    break_on_hyphens=True)], all other options at their defaults (no indent,
    [expand_tabs], [replace_whitespace], [drop_whitespace], no [max_lines],
    no [fix_sentence_endings]), as in CPython 3.11. *)

Module TextWrap.

(** [_whitespace = '\t\n\x0b\x0c\r '] *)
Definition is_ws (c : ascii) : bool :=
  let n := code c in ((9 <=? n) && (n <=? 13)) || (n =? 32).

(** [\w] on Latin-1: letters, digits, the underscore and the alphanumeric
    code points of the upper half. *)
Definition is_word (c : ascii) : bool :=
  let n := code c in
  ((48 <=? n) && (n <=? 57)) || ((65 <=? n) && (n <=? 90)) || (n =? 95)
  || ((97 <=? n) && (n <=? 122)) || (n =? 170) || (n =? 178) || (n =? 179)
  || (n =? 181) || (n =? 185) || (n =? 186) || ((188 <=? n) && (n <=? 190))
  || ((192 <=? n) && (n <=? 214)) || ((216 <=? n) && (n <=? 246))
  || ((248 <=? n) && (n <=? 255)).

(** [\d] *)
Definition is_digit (c : ascii) : bool :=
  let n := code c in (48 <=? n) && (n <=? 57).

(** [letter = [^\d\W]] *)
Definition is_letter (c : ascii) : bool := is_word c && negb (is_digit c).

(** [word_punct]: a word character, or one of the exclamation mark, the
    double quote, the apostrophe, the ampersand, the full stop, the comma
    and the question mark. *)
Definition is_word_punct (c : ascii) : bool :=
  let n := code c in
  is_word c || (n =? 33) || (n =? 34) || (n =? 39) || (n =? 38)
  || (n =? 46) || (n =? 44) || (n =? 63).

Definition is_hyphen (c : ascii) : bool := Ascii.eqb c HYPHEN.

(** [_munge_whitespace]: expand tabs, then turn every whitespace character
    into a space. *)
Definition _munge_whitespace (text : str) : str :=
  map (fun c => if is_ws c then SP else c) (expandtabs 8 text).

(** Length of the longest prefix whose characters satisfy [p]. *)
Fixpoint span_len (p : ascii -> bool) (s : str) : nat :=
  match s with
  | c :: t => if p c then S (span_len p t) else O
  | [] => O
  end.

(** [wordsep_re] is matched at a position given by the text before it
    ([prev], nearest character first) and the text from it on ([rest]). *)

(** [(?=-{2,}\w)]: at least two hyphens, the whole run followed by a word
    character. *)
Definition emdash_ahead (rest : str) : bool :=
  let n := span_len is_hyphen rest in
  (2 <=? n)%nat &&
  match drop n rest with c :: _ => is_word c | [] => false end.

(** [(?<=word_punct)] *)
Definition behind_wp (prev : str) : bool :=
  match prev with p :: _ => is_word_punct p | [] => false end.

(** The two lookbehinds of the hyphenated-word branch, read before the
    hyphen: [letter letter] or [letter - letter]. *)
Definition hyphen_behind (prev : str) : bool :=
  match prev with
  | a :: b :: more =>
      is_letter a &&
      (is_letter b ||
       (is_hyphen b && match more with c :: _ => is_letter c | [] => false end))
  | _ => false
  end.

(** [(?= letter -? letter)] *)
Definition hyphen_ahead (rest : str) : bool :=
  match rest with
  | a :: b :: more =>
      is_letter a &&
      (is_letter b ||
       (is_hyphen b && match more with c :: _ => is_letter c | [] => false end))
  | _ => false
  end.

(** The lazy [nowhitespace+?] of the word branch, after its first character:
    how many more characters the match takes.  At each length the three
    endings are tried in the order of the pattern: a breaking hyphen (taken
    into the match), the end of the word, an em-dash ahead. *)
Fixpoint word_end (prev rest : str) : nat :=
  match rest with
  | [] => O
  | c :: t =>
      if is_hyphen c && hyphen_behind prev && hyphen_ahead t then 1%nat
      else if is_ws c then O
      else if behind_wp prev && emdash_ahead rest then O
      else S (word_end (c :: prev) t)
  end.

(** Length of the match of [wordsep_re] at a position: a whitespace run, an
    em-dash between words, or a word piece. *)
Definition match_len (prev rest : str) : nat :=
  match rest with
  | [] => O
  | c :: t =>
      if is_ws c then span_len is_ws rest
      else if behind_wp prev && emdash_ahead rest then span_len is_hyphen rest
      else S (word_end (c :: prev) t)
  end.

(** [wordsep_re.split(text)]: the successive matches; every position starts
    a non-empty match, so no text falls between two of them. *)
Fixpoint split_loop (fuel : nat) (prev rest : str) : list str :=
  match fuel with
  | O => []
  | S f =>
      match rest with
      | [] => []
      | _ =>
          let n := match_len prev rest in
          let tok := take n rest in
          tok :: split_loop f (rev tok ++ prev) (drop n rest)
      end
  end.

(** [_split]: [chunks = [c for c in chunks if c]] *)
Definition _split (text : str) : list str :=
  List.filter truthy (split_loop (length text) [] text).

Definition _split_chunks (text : str) : list str :=
  _split (_munge_whitespace text).

(** [_handle_long_word] with [break_long_words] and [break_on_hyphens] set.
    [chunks] is the stack [reversed_chunks], its top (the Python list's last
    element) at the head. Returns the stack and [cur_line]. *)
Definition _handle_long_word (chunks cur_line : list str) (cur_len width : Z)
  : list str * list str :=
  let space_left := if width <? 1 then 1 else width - cur_len in
  match chunks with
  | [] => (chunks, cur_line)
  | chunk :: below =>
      let hyphen := rfind HYPHEN (slice_to chunk space_left) in
      let end_ :=
        if (space_left <? len chunk) && (0 <? hyphen)
           && existsb (fun c => negb (Ascii.eqb c HYPHEN)) (slice_to chunk hyphen)
        then hyphen + 1 else space_left in
      (slice_from chunk end_ :: below, cur_line ++ [slice_to chunk end_])
  end.

(** The inner loop of [_wrap_chunks]: pop chunks onto the current line while
    they fit. *)
Fixpoint fill_line (width : Z) (cur_line : list str) (cur_len : Z)
  (chunks : list str) : list str * Z * list str :=
  match chunks with
  | [] => (cur_line, cur_len, [])
  | c :: below =>
      let l := len c in
      if cur_len + l <=? width
      then fill_line width (cur_line ++ [c]) (cur_len + l) below
      else (cur_line, cur_len, chunks)
  end.

(** [if cur_line and cur_line[-1].strip() == '': del cur_line[-1]] *)
Definition drop_trailing_ws (cur_line : list str) : list str :=
  match last cur_line with
  | Some c => if truthy (strip c) then cur_line else removelast cur_line
  | None => cur_line
  end.

(** One pass of the outer loop of [_wrap_chunks] on a non-empty stack. *)
Definition wrap_step (width : Z) (lines chunks : list str)
  : list str * list str :=
  let chunks1 :=
    match chunks with
    | top :: below =>
        if negb (truthy (strip top)) && truthy lines then below else chunks
    | [] => chunks
    end in
  let '(cur_line, cur_len, chunks2) := fill_line width [] 0 chunks1 in
  let '(chunks3, cur_line1) :=
    match chunks2 with
    | top :: _ =>
        if width <? len top
        then _handle_long_word chunks2 cur_line cur_len width
        else (chunks2, cur_line)
    | [] => (chunks2, cur_line)
    end in
  let cur_line2 := drop_trailing_ws cur_line1 in
  let lines' :=
    if truthy cur_line2 then lines ++ [concat cur_line2] else lines in
  (lines', chunks3).

Fixpoint wrap_loop (fuel : nat) (width : Z) (lines chunks : list str)
  : result (list str) :=
  match chunks with
  | [] => Ok lines
  | _ =>
      match fuel with
      | O => OutOfFuel
      | S f =>
          let '(lines', chunks') := wrap_step width lines chunks in
          wrap_loop f width lines' chunks'
      end
  end.

(** Every pass removes a chunk or shortens one: this many passes suffice. *)
Definition wrap_fuel (chunks : list str) : nat :=
  foldr (fun c acc => S (length c) + acc)%nat O chunks.

(** [_wrap_chunks]; the stack is the chunk list itself, since reversing the
    list and popping from its end reads the chunks first to last. *)
Definition _wrap_chunks (chunks : list str) (width : Z) : result (list str) :=
  if width <=? 0 then Raise ValueError
  else wrap_loop (wrap_fuel chunks) width [] chunks.

Definition wrap (text : str) (width : Z) : result (list str) :=
  _wrap_chunks (_split_chunks text) width.

End TextWrap.

(** ** [wrap_40] *)

Definition WRAP_COLS : Z := 40.
Definition PAGE_LINES : Z := 18.
Definition MAX_HISTORY_TURNS : Z := 20.
Definition MAX_HISTORY_CHARS : Z := 16000.

Fixpoint wrap_paragraphs (paragraphs : list str) (width : Z)
  : result (list str) :=
  match paragraphs with
  | [] => Ok []
  | paragraph :: more =>
      if negb (truthy (strip paragraph)) then
        let* lines := wrap_paragraphs more width in Ok ([] :: lines)
      else
        let* wrapped := TextWrap.wrap paragraph width in
        let* lines := wrap_paragraphs more width in
        Ok ((if truthy wrapped then wrapped else [[]]) ++ lines)
  end.

Definition wrap_40 (text : str) (width : Z) : result (list str) :=
  wrap_paragraphs (split LF text) width.

(** ** SerialMinitel

    Time is a clock in milliseconds. The line delivers bytes with their
    arrival times; [read_byte] waits for the next byte until its timeout and
    a [time.sleep] advances the clock.  Timeouts, given in seconds in the
    source, are in milliseconds here. *)

Module SerialMinitel.

Record t := mk {
  port_open : bool;               (* serial is not None and serial.is_open *)
  line_delay_ms : Z;
  char_delay_ms : Z;
  _pagination_enabled : bool;
  clock : Z;                      (* time.time(), in ms *)
  rx : list (Z * Z);              (* (arrival time, byte) still on the line *)
  tx : str                        (* bytes written to the line *)
}.

Definition is_open (s : t) : bool := port_open s.

Definition sleep (ms : Z) (s : t) : t :=
  mk (port_open s) (line_delay_ms s) (char_delay_ms s) (_pagination_enabled s)
     (clock s + ms) (rx s) (tx s).

Definition send (data : str) (s : t) : t :=
  mk (port_open s) (line_delay_ms s) (char_delay_ms s) (_pagination_enabled s)
     (clock s) (rx s) (tx s ++ data).

Definition write (text : str) (s : t) : t :=
  if negb (is_open s) then s
  else
    let data := sanitize_latin1 text in
    if 0 <? char_delay_ms s
    then sleep (char_delay_ms s * len data) (send data s)
    else send data s.

Definition writeln (line : str) (s : t) : t :=
  let s1 := write (line ++ [CR; LF]) s in
  if 0 <? line_delay_ms s1 then sleep (line_delay_ms s1) s1 else s1.

Definition clear (s : t) : t := sleep 100 (write [chr 12] s).

(** [read_byte(timeout)]: the next byte if it arrives within [timeout]. *)
Definition read_byte (timeout : Z) (s : t) : option Z * t :=
  if negb (is_open s) then (None, s)
  else
    match rx s with
    | (arrival, byte) :: more =>
        if arrival <=? clock s + timeout then
          (Some byte,
           mk (port_open s) (line_delay_ms s) (char_delay_ms s)
              (_pagination_enabled s) (Z.max (clock s) arrival) more (tx s))
        else (None, sleep timeout s)
    | [] => (None, sleep timeout s)
    end.

Inductive outcome :=
| Return (line : option str)
| Continue (buffer : str).

(** The body of the [while] loop of [read_line]. *)
Definition read_line_body (echo : bool) (buffer : str) (s : t) : outcome * t :=
  let '(byte, s1) := read_byte 100 s in
  match byte with
  | None => (Continue buffer, s1)
  | Some byte =>
      if (byte =? 13) || (byte =? 10) then
        let '(next_byte, s2) := read_byte 50 s1 in
        (Return (Some buffer), if echo then writeln [] s2 else s2)
      else if (byte =? 8) || (byte =? 127) then
        if truthy buffer then
          (Continue (removelast buffer),
           if echo then write [BS; SP; BS] s1 else s1)
        else (Continue buffer, s1)
      else if (32 <=? byte) && (byte <? 127) then
        let char := chr byte in
        (Continue (buffer ++ [char]), if echo then write [char] s1 else s1)
      else if 128 <=? byte then
        let char := chr byte in
        (Continue (buffer ++ [char]), if echo then write [char] s1 else s1)
      else (Continue buffer, s1)
  end.

Fixpoint read_line_loop (fuel : nat) (start_time timeout : Z) (echo : bool)
  (buffer : str) (s : t) : result (option str * t) :=
  if clock s - start_time <? timeout then
    match fuel with
    | O => OutOfFuel
    | S f =>
        match read_line_body echo buffer s with
        | (Return line, s') => Ok (line, s')
        | (Continue buffer', s') =>
            read_line_loop f start_time timeout echo buffer' s'
        end
    end
  else Ok (if truthy buffer then Some buffer else None, s).

(** Each pass takes a byte off the line or lets 100 ms go by. *)
Definition read_line_fuel (timeout : Z) (s : t) : nat :=
  (length (rx s) + Z.to_nat ((timeout + 99) / 100))%nat.

Definition read_line (timeout : Z) (echo : bool) (s : t)
  : result (option str * t) :=
  if negb (is_open s) then Ok (None, s)
  else read_line_loop (read_line_fuel timeout s) (clock s) timeout echo [] s.

(** Polls of 100 ms left before the deadline of a read started at [start]. *)
Definition polls_left (start timeout : Z) (s : t) : nat :=
  Z.to_nat ((start + timeout - clock s + 99) / 100).

Definition wait_keypress (timeout : Z) (s : t) : option Z * t :=
  read_byte timeout s.

Definition set_pagination (enabled : bool) (s : t) : t :=
  mk (port_open s) (line_delay_ms s) (char_delay_ms s) enabled
     (clock s) (rx s) (tx s).

Definition is_pagination_enabled (s : t) : bool := _pagination_enabled s.

End SerialMinitel.

(** ** SimulatedMinitel

    Standard output is the text printed so far.  Standard input is a pipe
    or a file, read through [sys.stdin], which reads the descriptor a chunk
    at a time and keeps what it has not handed out yet: the state holds the
    characters [sys.stdin] has read ahead and what the descriptor still
    delivers, one event per read of it or per wait on it.  The end of the
    events is the end of the file.  (At a terminal [input()] reads the
    descriptor itself and not through [sys.stdin]: the model covers that
    case as long as [sys.stdin] holds nothing read ahead.) *)

Module SimulatedMinitel.

Inductive event :=
| Chunk (data : str)     (* what one read of the descriptor returns; empty
                            when the read meets the end of a file that
                            grows later *)
| Quiet.                 (* nothing arrives for longer than a wait lasts *)

Record t := mk {
  _is_open : bool;
  line_delay_ms : Z;
  _pagination_enabled : bool;
  stdin_buffer : str;              (* read ahead by sys.stdin *)
  stdin_fd : list event;           (* still to come on the descriptor *)
  stdout : str
}.

(** The characters the events deliver before a read meets the end of the
    file. *)
Fixpoint delivered (fd : list event) : str :=
  match fd with
  | [] => []
  | Chunk [] :: _ => []
  | Chunk data :: more => data ++ delivered more
  | Quiet :: more => delivered more
  end.

(** The text still to be read, up to the end of the file. *)
Definition stdin (s : t) : str := stdin_buffer s ++ delivered (stdin_fd s).

Definition open (s : t) : bool * t :=
  (true, mk true (line_delay_ms s) (_pagination_enabled s)
            (stdin_buffer s) (stdin_fd s) (stdout s)).


Definition is_open (s : t) : bool := _is_open s.

Definition print (text : str) (s : t) : t :=
  mk (_is_open s) (line_delay_ms s) (_pagination_enabled s)
     (stdin_buffer s) (stdin_fd s) (stdout s ++ text).

(** [print(sanitize_latin1(text), end=..., flush=True)] with an empty end *)
Definition write (text : str) (s : t) : t := print (sanitize_latin1 text) s.

(** [print(sanitize_latin1(line))] *)
Definition writeln (line : str) (s : t) : t :=
  print (sanitize_latin1 line ++ [LF]) s.

(** [select.select([sys.stdin], [], [], timeout)] looks at the descriptor
    only: it answers when a chunk is waiting there or the file has ended, and
    times out on a quiet descriptor whatever [sys.stdin] has read ahead. *)
Definition select (timeout : Z) (s : t) : bool * t :=
  match stdin_fd s with
  | Quiet :: later =>
      (false, mk (_is_open s) (line_delay_ms s) (_pagination_enabled s)
                 (stdin_buffer s) later (stdout s))
  | _ => (true, s)
  end.

(** One read of the descriptor for one character: the character, what the
    chunk holds after it, and what is still to come. *)
Fixpoint read_fd (fd : list event) : str * str * list event :=
  match fd with
  | [] => ([], [], [])
  | Quiet :: later => read_fd later
  | Chunk [] :: later => ([], [], later)
  | Chunk (char :: ahead) :: later => ([char], ahead, later)
  end.

(** [sys.stdin.read(1)] hands out a character read ahead when there is one,
    and reads the descriptor otherwise; the empty string at the end of the
    file. *)
Definition read (s : t) : str * t :=
  match stdin_buffer s with
  | char :: ahead =>
      ([char], mk (_is_open s) (line_delay_ms s) (_pagination_enabled s)
                  ahead (stdin_fd s) (stdout s))
  | [] =>
      let '(char, ahead, later) := read_fd (stdin_fd s) in
      (char, mk (_is_open s) (line_delay_ms s) (_pagination_enabled s)
                ahead later (stdout s))
  end.

Definition read_byte (timeout : Z) (s : t) : option Z * t :=
  let (ready, s) := select timeout s in
  if ready then
    let (char, s) := read s in
    match char with
    | c :: _ => (Some (code c), s)
    | [] => (None, s)
    end
  else (None, s).

(** [sys.stdin.readline()]: the text up to the next line feed and the line
    feed itself, read from what is held ahead and then from the descriptor,
    chunk after chunk, through the quiet times, until a line feed or the end
    of the file is met.  What follows the line feed in the last chunk read
    stays with [sys.stdin]. *)
Fixpoint readline (buffer : str) (fd : list event) : str * str * list event :=
  if contains LF buffer then
    (slice_to buffer (find LF buffer + 1),
     slice_from buffer (find LF buffer + 1), fd)
  else
    match fd with
    | [] => (buffer, [], [])
    | Quiet :: later => readline buffer later
    | Chunk [] :: later => (buffer, [], later)
    | Chunk data :: later => readline (buffer ++ data) later
    end.

(** The builtin [input()]: a line of [sys.stdin] without its line feed;
    [EOFError] when the file ends with nothing read. *)
Definition input (s : t) : option str * t :=
  let '(line, ahead, later) := readline (stdin_buffer s) (stdin_fd s) in
  let s' := mk (_is_open s) (line_delay_ms s) (_pagination_enabled s)
               ahead later (stdout s) in
  match line with
  | [] => (None, s')
  | _ =>
      (Some (if contains LF line then slice_to line (len line - 1) else line),
       s')
  end.

(** [read_line]: [input()], with [EOFError] turned into [None]; the
    arguments are not used. *)
Definition read_line (timeout : Z) (echo : bool) (s : t) : option str * t :=
  input s.

Definition wait_keypress (timeout : Z) (s : t) : option Z * t :=
  read_byte timeout s.

Definition set_pagination (enabled : bool) (s : t) : t :=
  mk (_is_open s) (line_delay_ms s) enabled
     (stdin_buffer s) (stdin_fd s) (stdout s).

Definition is_pagination_enabled (s : t) : bool := _pagination_enabled s.

End SimulatedMinitel.

(** ** Bytes and transports used in the statements *)

Definition is_terminator (byte : Z) : Prop := byte = 13 \/ byte = 10.
Definition is_erase (byte : Z) : Prop := byte = 8 \/ byte = 127.
Definition printable (byte : Z) : Prop := 32 <= byte < 127.

(** A byte that is on the line early enough for a read with this timeout. *)
Definition arrives_within (timeout : Z) (s : SerialMinitel.t) (arrival : Z)
  : Prop :=
  arrival <= SerialMinitel.clock s + timeout.

(** An open serial transport with these bytes already received, and an
    open simulated transport with the same bytes on its standard input:
    they come in one chunk, after which the file ends. *)
Definition serial_with (bytes : list Z) : SerialMinitel.t :=
  SerialMinitel.mk true 0 0 true 0 (map (pair 0) bytes) [].
Definition simulated_with (bytes : list Z) : SimulatedMinitel.t :=
  SimulatedMinitel.mk true 0 true []
    [SimulatedMinitel.Chunk (map chr bytes)] [].

(** ** The transport interface and the display functions

    The display functions only call [write], [writeln], [wait_keypress]
    (whose result they ignore) and [is_pagination_enabled] on the transport
    they are given.  They are embedded as the sequence of calls they make,
    for a given answer of [is_pagination_enabled] (no call they make changes
    it); [run] replays the calls on a transport. *)

Inductive call :=
| Write (text : str)
| Writeln (line : str)
| WaitKeypress (timeout : Z).

Class Minitel (T : Type) := {
  m_write : str -> T -> T;
  m_writeln : str -> T -> T;
  m_wait_keypress : Z -> T -> option Z * T;
  m_is_pagination_enabled : T -> bool
}.

#[export] Instance serial_minitel : Minitel SerialMinitel.t := {
  m_write := SerialMinitel.write;
  m_writeln := SerialMinitel.writeln;
  m_wait_keypress := SerialMinitel.wait_keypress;
  m_is_pagination_enabled := SerialMinitel.is_pagination_enabled
}.

#[export] Instance simulated_minitel : Minitel SimulatedMinitel.t := {
  m_write := SimulatedMinitel.write;
  m_writeln := SimulatedMinitel.writeln;
  m_wait_keypress := SimulatedMinitel.wait_keypress;
  m_is_pagination_enabled := SimulatedMinitel.is_pagination_enabled
}.

Definition perform {T} `{Minitel T} (minitel : T) (c : call) : T :=
  match c with
  | Write text => m_write text minitel
  | Writeln line => m_writeln line minitel
  | WaitKeypress timeout => snd (m_wait_keypress timeout minitel)
  end.

Definition run {T} `{Minitel T} (calls : list call) (minitel : T) : T :=
  fold_left perform calls minitel.

(** The pagination block, the same text at its four places in the source:
    past [page_lines] counted lines, show the marker, wait for a key, wipe
    the marker and restart the count. *)
Definition pause_calls : list call :=
  [ Writeln [];
    Write (lit "-- suite (touche) --");
    WaitKeypress 300000;
    Write (CR :: repeat SP 22 ++ [CR]) ].

Definition paginate (enabled : bool) (page_lines : Z)
  (out : list call) (line_count : Z) : list call * Z :=
  if enabled && (page_lines <=? line_count)
  then (out ++ pause_calls, 0)
  else (out, line_count).

(** [display_wrapped]: the [for line in lines] loop. *)
Fixpoint display_lines (enabled : bool) (page_lines : Z) (lines : list str)
  (out : list call) (line_count : Z) : list call * Z :=
  match lines with
  | [] => (out, line_count)
  | line :: more =>
      let out1 := out ++ [Writeln line] in
      let line_count1 := line_count + 1 in
      let '(out2, line_count2) := paginate enabled page_lines out1 line_count1 in
      display_lines enabled page_lines more out2 line_count2
  end.

Definition display_wrapped (enabled : bool) (text : str) (page_lines : Z)
  : result (list call) :=
  let* lines := wrap_40 text WRAP_COLS in
  Ok (fst (display_lines enabled page_lines lines [] 0)).

(** State of [display_streaming] besides [full_text] and [buffer]. *)
Record fmt := mkFmt {
  out : list call;
  line_count : Z;
  current_line_len : Z
}.

(** The cut used by the three wrapping loops: the last space within the room
    left on the line, or the room left when there is none past column 0. *)
Definition cut_point_of (text : str) (space_left : Z) : Z :=
  let cut_point := rfind SP (slice_to text space_left) in
  if cut_point <=? 0 then space_left else cut_point.

(** The three wrapping loops of [display_streaming] have the same shape:
    - [AtNewline] ([while remaining], a segment ended by a line feed): what
      fits is written as it is;
    - [AtSpace] ([while segment], a segment ended by a space): what fits is
      written followed by a space, and the column advances by one more;
    - [AtEnd] ([while buffer], the final flush): what fits is written and
      the column is left alone; a cut neither counts a line nor paginates. *)
Inductive wrap_mode := AtNewline | AtSpace | AtEnd.

Fixpoint wrap_text (mode : wrap_mode) (fuel : nat) (enabled : bool)
  (page_lines : Z) (remaining : str) (st : fmt) : result fmt :=
  match remaining with
  | [] => Ok st
  | _ =>
      match fuel with
      | O => OutOfFuel
      | S f =>
          let space_left := WRAP_COLS - current_line_len st in
          if len remaining <=? space_left then
            match mode with
            | AtNewline =>
                Ok (mkFmt (out st ++ [Write remaining]) (line_count st)
                          (current_line_len st + len remaining))
            | AtSpace =>
                Ok (mkFmt (out st ++ [Write (remaining ++ [SP])]) (line_count st)
                          (current_line_len st + (len remaining + 1)))
            | AtEnd =>
                Ok (mkFmt (out st ++ [Write remaining]) (line_count st)
                          (current_line_len st))
            end
          else
            let cut_point := cut_point_of remaining space_left in
            let out1 :=
              out st ++ [Write (slice_to remaining cut_point); Writeln []] in
            let remaining' := lstrip (slice_from remaining cut_point) in
            let '(out2, line_count2) :=
              match mode with
              | AtEnd => (out1, line_count st)
              | _ => paginate enabled page_lines out1 (line_count st + 1)
              end in
            wrap_text mode f enabled page_lines remaining'
                      (mkFmt out2 line_count2 0)
      end
  end.

(** After the first cut the line is empty and every later cut removes at
    least one character. *)
Definition wrap_text_fuel (remaining : str) : nat := S (S (length remaining)).

(** The [while buffer] loop run after each chunk. *)
Fixpoint process_buffer (fuel : nat) (enabled : bool) (page_lines : Z)
  (buffer : str) (st : fmt) : result (str * fmt) :=
  match buffer with
  | [] => Ok (buffer, st)
  | _ =>
      match fuel with
      | O => OutOfFuel
      | S f =>
          if contains LF buffer then
            let idx := find LF buffer in
            let segment := slice_to buffer idx in
            let buffer' := slice_from buffer (idx + 1) in
            let* st1 :=
              if current_line_len st + len segment <=? WRAP_COLS then
                Ok (mkFmt (out st ++ [Write segment]) (line_count st)
                          (current_line_len st + len segment))
              else
                wrap_text AtNewline (wrap_text_fuel segment) enabled page_lines
                          segment st in
            let '(out2, line_count2) :=
              paginate enabled page_lines (out st1 ++ [Writeln []])
                       (line_count st1 + 1) in
            process_buffer f enabled page_lines buffer'
                           (mkFmt out2 line_count2 0)
          else if contains SP buffer && (10 <? len buffer) then
            let idx := rfind SP buffer in
            let segment := slice_to buffer idx in
            let buffer' := slice_from buffer (idx + 1) in
            let* st1 :=
              wrap_text AtSpace (wrap_text_fuel segment) enabled page_lines
                        segment st in
            process_buffer f enabled page_lines buffer' st1
          else Ok (buffer, st)
      end
  end.

(** The [for chunk in text_generator] loop; the generator is the list of the
    chunks it yields. *)
Fixpoint stream_chunks (enabled : bool) (page_lines : Z) (chunks : list str)
  (full_text buffer : str) (st : fmt) : result (str * str * fmt) :=
  match chunks with
  | [] => Ok (full_text, buffer, st)
  | chunk :: more =>
      let full_text1 := full_text ++ chunk in
      let buffer1 := buffer ++ chunk in
      let* (buffer2, st1) :=
        process_buffer (S (length buffer1)) enabled page_lines buffer1 st in
      stream_chunks enabled page_lines more full_text1 buffer2 st1
  end.

(** [display_streaming]: the calls made and the text returned. *)
Definition display_streaming (enabled : bool) (text_generator : list str)
  (page_lines : Z) : result (list call * str) :=
  let* (full_text, buffer, st) :=
    stream_chunks enabled page_lines text_generator [] [] (mkFmt [] 0 0) in
  let* st1 :=
    wrap_text AtEnd (wrap_text_fuel buffer) enabled page_lines buffer st in
  Ok (out st1 ++ [Writeln []], full_text).

(** The residual buffer and the state with which [display_streaming]
    reaches its final flush. *)
Definition at_flush (enabled : bool) (text_generator : list str)
  (page_lines : Z) : result (str * fmt) :=
  let* (full_text, buffer, st) :=
    stream_chunks enabled page_lines text_generator [] [] (mkFmt [] 0 0) in
  Ok (buffer, st).

(** The test of the flush loop, on entry: the residual buffer fits the room
    left on the line, and the flush writes it without a line break. *)
Definition flush_fits (enabled : bool) (text_generator : list str)
  (page_lines : Z) : Prop :=
  exists buffer st,
    at_flush enabled text_generator page_lines = Ok (buffer, st) /\
    len buffer <= WRAP_COLS - current_line_len st.

(** *** Reading the calls back *)

(** The bytes a call puts on the serial line. *)
Definition render (c : call) : str :=
  match c with
  | Write text => text
  | Writeln line => line ++ [CR; LF]
  | WaitKeypress _ => []
  end.

(** The lines sent to the transport: the characters written between two
    line terminators (a [writeln] ends the line). *)
Fixpoint emitted_lines_from (cur : str) (calls : list call) : list str :=
  match calls with
  | [] => if truthy cur then [cur] else []
  | Write text :: more => emitted_lines_from (cur ++ text) more
  | Writeln line :: more => (cur ++ line) :: emitted_lines_from [] more
  | WaitKeypress _ :: more => emitted_lines_from cur more
  end.
Definition emitted_lines (calls : list call) : list str :=
  emitted_lines_from [] calls.

Definition is_wait (c : call) : bool :=
  match c with WaitKeypress _ => true | _ => false end.
Definition is_writeln (c : call) : bool :=
  match c with Writeln _ => true | _ => false end.

(** Pauses issued: one key wait per pause marker. *)
Definition pauses (calls : list call) : Z := len (List.filter is_wait calls).

(** Lines of output proper: the line terminators sent, less the one that
    precedes each pause marker. *)
Definition lines_emitted (calls : list call) : Z :=
  len (List.filter is_writeln calls) - pauses calls.

(** The count kept by a display call agrees with what it has sent:
    [page_lines] lines per pause so far, plus the lines since the last
    pause, fewer than [page_lines]. *)
Definition counted (page_lines : Z) (st : fmt) : Prop :=
  0 <= line_count st < page_lines /\
  lines_emitted (out st) = pauses (out st) * page_lines + line_count st.

Definition paging_inv (enabled : bool) (page_lines : Z) (st : fmt) : Prop :=
  if enabled then counted page_lines st else pauses (out st) = 0.

(** What one of the wrapping loops may do to the state, by mode. *)
Definition wrap_rel (mode : wrap_mode) (enabled : bool) (page_lines : Z)
  (st st' : fmt) : Prop :=
  match mode with
  | AtEnd =>
      pauses (out st') = pauses (out st) /\
      lines_emitted (out st) <= lines_emitted (out st')
  | _ => paging_inv enabled page_lines st -> paging_inv enabled page_lines st'
  end.

(** *** Chunks and lines of [wrap_40] *)

Definition total_len (chunks : list str) : Z :=
  foldr (fun c acc => len c + acc) 0 chunks.

(** A chunk that [strip] does not empty. *)
Definition nonblank (c : str) : bool := truthy (strip c).

(** The chunks of a text: those of its paragraphs, in order. *)
Definition chunks_of (text : str) : list str :=
  concat (map TextWrap._split_chunks (split LF text)).

(** Lines made of whole chunks: each line is the concatenation of
    consecutive chunks, in order, and the only chunks left out are blank. *)
Definition made_of_whole_chunks (lines chunks : list str) : Prop :=
  exists groups : list (list str),
    lines = map (@concat ascii) groups /\
    sublist (concat groups) chunks /\
    List.filter nonblank (concat groups) = List.filter nonblank chunks.

(** A character that is neither whitespace nor a hyphen. *)
Definition plain (c : ascii) : Prop :=
  isspace c = false /\ TextWrap.is_hyphen c = false.

(** The em-dash branch of [wordsep_re] read after its match: a run of two
    hyphens or more, with a word or punctuation character before it. *)
Definition emdash_behind (prev : str) : bool :=
  let n := TextWrap.span_len TextWrap.is_hyphen prev in
  (2 <=? n)%nat && TextWrap.behind_wp (drop n prev).

(** Where a text may be cut into chunks, given the text before the cut
    ([prev], nearest character first) and the text after it: next to
    whitespace; after a hyphen that has two letters, or a letter, a hyphen
    and a letter, before it, and a letter followed by a letter or by a
    hyphen and a letter after it; before an em-dash, a run of two hyphens
    or more that follows a word or punctuation character and is followed by
    a word character; after such an em-dash. *)
Definition cut_allowed (prev rest : str) : bool :=
  match prev, rest with
  | p :: before, r :: _ =>
      TextWrap.is_ws p || TextWrap.is_ws r
      || (TextWrap.is_hyphen p && TextWrap.hyphen_behind before
          && TextWrap.hyphen_ahead rest)
      || (TextWrap.behind_wp prev && TextWrap.emdash_ahead rest)
      || (emdash_behind prev && TextWrap.is_word r)
  | _, _ => false
  end.

(** The characters of a text that are not whitespace, in order. *)
Definition visible (s : str) : str :=
  List.filter (fun c => negb (isspace c)) s.

(** The visible characters of the texts a sequence of calls passes to the
    transport. *)
Definition written (calls : list call) : str :=
  visible (concat (map render calls)).

(** ** HistoryStore and its file

    The file [history.json] is the list it holds, when the file exists:
    [json.dump] followed by [json.load] gives back a list of dictionaries of
    strings as it was. *)

Module HistoryFile.
Import History.

Abbreviation file := (option (list message)).

(** [save]: trim, then write the list; an [IOError] while writing
    ([writable = false]) is reported on the console and leaves the file as
    it was. *)
Definition save (writable : bool) (s : HistoryStore) (h : heap) (f : file)
  : result (heap * file) :=
  let* h' := _trim s h in
  Ok (h', if writable then h' !! messages s else f).

(** [reset]: the field is rebound to a new empty list; the file, when it
    exists, is deleted, an [IOError] ([deletable = false]) being ignored. *)
Definition reset (deletable : bool) (s : HistoryStore) (h : heap) (f : file)
  : HistoryStore * heap * file :=
  let r := fresh_loc h in
  (mkStore (max_turns s) (max_chars s) r, <[r := []]> h,
   match f with
   | Some _ => if deletable then None else f
   | None => None
   end).

End HistoryFile.

(** What a buffer of [read_line] holds: characters from the space on, the
    delete character excepted. *)
Definition typed_text (l : str) : Prop :=
  Forall (fun c => 32 <= code c /\ code c <> 127) l.

(** The time the echo of one pass of [read_line] can take: three characters
    for an erasure, or the end of line and the delay after it. *)
Definition echo_cost (echo : bool) (s : SerialMinitel.t) : Z :=
  if echo
  then 3 * Z.max 0 (SerialMinitel.char_delay_ms s)
       + Z.max 0 (SerialMinitel.line_delay_ms s)
  else 0.

(** Two serial transports that differ by what they have sent only. *)
Definition same_line (a b : SerialMinitel.t) : Prop :=
  SerialMinitel.port_open a = SerialMinitel.port_open b /\
  SerialMinitel.line_delay_ms a = SerialMinitel.line_delay_ms b /\
  SerialMinitel.char_delay_ms a = SerialMinitel.char_delay_ms b /\
  SerialMinitel._pagination_enabled a = SerialMinitel._pagination_enabled b /\
  SerialMinitel.clock a = SerialMinitel.clock b /\
  SerialMinitel.rx a = SerialMinitel.rx b.

(** ** More of [str] *)

Module PyText.

(** [s.startswith(prefix)] *)
Fixpoint startswith (prefix s : str) : bool :=
  match prefix, s with
  | [], _ => true
  | _ :: _, [] => false
  | p :: prefix', c :: s' => Ascii.eqb p c && startswith prefix' s'
  end.

(** [sub in s] *)
Fixpoint str_in (sub s : str) : bool :=
  startswith sub s ||
  match s with
  | [] => false
  | _ :: s' => str_in sub s'
  end.

(** [s.lower()] on Latin-1: the letters A-Z and the accented capitals
    0xC0-0xDE (the multiplication sign 0xD7 excepted) move up by 32. *)
Definition lower_char (c : ascii) : ascii :=
  let n := code c in
  if ((65 <=? n) && (n <=? 90))
     || ((192 <=? n) && (n <=? 222) && negb (n =? 215))
  then chr (n + 32) else c.

Definition lower (s : str) : str := map lower_char s.

End PyText.

(** ** list_serial_ports

    [comports] is the list of the [device] names
    [serial.tools.list_ports.comports()] reports, or [None] when [pyserial]
    cannot be imported. *)

Definition is_cu (device : str) : bool := PyText.str_in (lit "/dev/cu.") device.

Definition list_serial_ports (comports : option (list str)) : list str :=
  match comports with
  | Some ports =>
      let cu_ports := List.filter is_cu ports in
      let other_ports := List.filter (fun p => negb (is_cu p)) ports in
      cu_ports ++ other_ports
  | None => []
  end.

(** ** OpenAIClientWrapper.call

    One request to the API ([_call_new_api] or [_call_legacy_api]) is the
    chunks it yields and how it ends: normally, or with an exception, of
    which [call] looks at the text [str(e)] and at the name of the type. *)

Module OpenAIClientWrapper.

Record failure := mkFailure {
  message : str;      (* str(e) *)
  type_name : str     (* type(e).__name__ *)
}.

Definition attempt := (list str * option failure)%type.

(** What the consumer of the generator sees, and the pauses between. *)
Inductive event :=
| Yield (chunk : str)
| Sleep (seconds : Z).

Definition max_retries : Z := 3.

Definition transient (e : failure) : bool :=
  let error_str := PyText.lower (message e) in
  existsb (fun x => PyText.str_in x error_str)
    [lit "rate limit"; lit "timeout"; lit "connection"; lit "503"; lit "502"].

Definition error_chunk (e : failure) : str :=
  lit "[Erreur API: " ++ type_name e ++ lit "]".

(** The [for attempt in range(max_retries)] loop; [api n] is what the
    request of attempt [n] does. *)
Fixpoint call_loop (attempts : list Z) (retry_delay : Z) (api : Z -> attempt)
  : list event :=
  match attempts with
  | [] => []
  | attempt :: later =>
      let '(chunks, outcome) := api attempt in
      map Yield chunks ++
      match outcome with
      | None => []
      | Some e =>
          if transient e && (attempt <? max_retries - 1)
          then Sleep retry_delay :: call_loop later (retry_delay * 2) api
          else [Yield (error_chunk e)]
      end
  end.

Definition call (api : Z -> attempt) : list event :=
  call_loop [0; 1; 2] 2 api.

(** The chunks a run yields, and the seconds it sleeps. *)
Fixpoint yielded (events : list event) : list str :=
  match events with
  | [] => []
  | Yield chunk :: more => chunk :: yielded more
  | Sleep _ :: more => yielded more
  end.

Fixpoint slept (events : list event) : Z :=
  match events with
  | [] => 0
  | Yield _ :: more => slept more
  | Sleep seconds :: more => seconds + slept more
  end.

End OpenAIClientWrapper.

(** ** load_system_prompt *)




(** ** run_serial_autoconfig: waiting for the answer to a test message

    The port a configuration was opened with, after the test message is
    sent: a clock in milliseconds and the bytes still to come with their
    arrival times, as for [SerialMinitel].  Reads that raise are not
    modelled. *)

Module Autoconfig.

Record port := mkPort {
  clock : Z;
  rx : list (Z * Z)
}.

Definition sleep (ms : Z) (p : port) : port := mkPort (clock p + ms) (rx p).

(** [ser.read(size)]: the bytes that are there before the deadline, [size]
    of them at most; the call returns with the last byte it needs, or at
    the deadline. *)
Fixpoint read_until (size : nat) (deadline : Z) (p : port) : list Z * port :=
  match size with
  | O => ([], p)
  | S size' =>
      match rx p with
      | (arrival, byte) :: more =>
          if arrival <=? deadline then
            let '(data, p') :=
              read_until size' deadline (mkPort (Z.max (clock p) arrival) more) in
            (byte :: data, p')
          else ([], mkPort deadline (rx p))
      | [] => ([], mkPort deadline [])
      end
  end.

(** The port is opened with [timeout=0.5]. *)
Definition read (size : nat) (p : port) : list Z * port :=
  read_until size (clock p + 500) p.

(** [bytes.lower()]: the ASCII capitals only. *)
Definition lower_byte (b : Z) : Z :=
  if (65 <=? b) && (b <=? 90) then b + 32 else b.

(** [c in buffer] for a one-byte [c] *)
Definition byte_in (c : Z) (buffer : list Z) : bool := existsb (Z.eqb c) buffer.

(** The [while (time.time() - start_time) < 6] loop: [true] when the
    configuration is validated, [false] for [pas de reponse]. *)
Fixpoint wait_for_y (fuel : nat) (start_time : Z) (buffer : list Z) (p : port)
  : result (bool * port) :=
  if clock p - start_time <? 6000 then
    match fuel with
    | O => OutOfFuel
    | S f =>
        let '(data, p1) := read 1 p in
        if truthy data then
          let buffer1 := buffer ++ data in
          if byte_in 121 (map lower_byte buffer1) || byte_in 89 buffer1 then
            let p2 := sleep 300 p1 in
            let '(extra, p3) := read 10 p2 in
            let buffer2 := buffer1 ++ extra in
            if existsb (fun c => byte_in c buffer2) [13; 10; 121; 89]
            then Ok (true, p3)
            else wait_for_y f start_time buffer2 p3
          else wait_for_y f start_time buffer1 p1
        else wait_for_y f start_time buffer p1
    end
  else Ok (false, p).

(** Every pass takes a byte off the line or lets half a second go by. *)
Definition probe_fuel (p : port) : nat := (length (rx p) + 12)%nat.

Definition probe (p : port) : result (bool * port) :=
  wait_for_y (probe_fuel p) (clock p) [] p.

(** Reads of half a second left before the end of the window. *)
Definition reads_left (start_time : Z) (p : port) : nat :=
  Z.to_nat ((start_time + 6000 - clock p + 499) / 500).

Definition is_y (b : Z) : Prop := b = 121 \/ b = 89.

End Autoconfig.

(** ** run_shell: one exchange with the model

    The part of the loop body that follows the local commands: the request
    is built from the system prompt, the history and the input; the reply
    is displayed; input and reply are added to the history, which is saved.
    [api messages model stream n] is what request number [n] of
    [openai_client.call(messages, model, stream)] does. *)

Module Shell.
Import History HistoryFile.

Definition request (system_prompt : str) (history : list message)
  (user_input : str) : list message :=
  mk_message (lit "system") system_prompt
  :: history ++ [mk_message (lit "user") user_input].

(** The calls of the [except Exception] handler. *)
Definition error_calls : list call :=
  [Writeln []; Writeln (lit "Erreur API. Reessaie.")].

(** The display functions never raise; of the history, [add] raises when
    [_trim] pops from the list it has just emptied, and the handler then
    finds the list empty. *)
Definition turn (enabled stream : bool) (page_lines : Z)
  (system_prompt model user_input : str)
  (api : list message -> str -> bool -> Z -> OpenAIClientWrapper.attempt)
  (writable : bool) (s : HistoryStore) (h : heap) (f : file)
  : result (list call * heap * file) :=
  match get_messages s h with
  | None => Raise DanglingRef
  | Some (r, h1) =>
      let messages := request system_prompt (default [] (h1 !! r)) user_input in
      let chunks :=
        OpenAIClientWrapper.yielded
          (OpenAIClientWrapper.call (api messages model stream)) in
      let* (shown, response_text) :=
        if stream then display_streaming enabled chunks page_lines
        else
          let response_text := concat chunks in
          let* calls := display_wrapped enabled response_text page_lines in
          Ok (calls, response_text) in
      let saved :=
        let* h2 := add (lit "user") user_input s h1 in
        let* h3 := add (lit "assistant") response_text s h2 in
        save writable s h3 f in
      match saved with
      | Ok (h4, f4) => Ok ([Writeln []] ++ shown ++ [Writeln []], h4, f4)
      | Raise IndexError =>
          Ok ([Writeln []] ++ shown ++ error_calls ++ [Writeln []],
              <[History.messages s := []]> h1, f)
      | Raise e => Raise e
      | OutOfFuel => OutOfFuel
      end
  end.

End Shell.

(** * Properties *)

(** ** Python strings *)

Module PyStrFacts.

Lemma len_nonneg {A} (l : list A) : 0 <= len l.
Proof. unfold len. lia. Qed.

Lemma len_app {A} (l1 l2 : list A) : len (l1 ++ l2) = len l1 + len l2.
Proof. unfold len. rewrite length_app. lia. Qed.

Lemma len_cons {A} (x : A) (l : list A) : len (x :: l) = 1 + len l.
Proof. unfold len. simpl length. lia. Qed.

Lemma len_nil {A} : len (@nil A) = 0.
Proof. reflexivity. Qed.

Lemma slice_to_len {A} (s : list A) n :
  0 <= n -> len (slice_to s n) = Z.min n (len s).
Proof.
  intros H. unfold slice_to, len. destruct (n <? 0) eqn:E; [apply Z.ltb_lt in E; lia|].
  rewrite length_take. lia.
Qed.

Lemma slice_from_len_le {A} (s : list A) n :
  (length (slice_from s n) <= length s)%nat.
Proof. unfold slice_from. destruct (n <? 0); rewrite length_drop; lia. Qed.

Lemma slice_from_len {A} (s : list A) n :
  0 <= n -> len (slice_from s n) = Z.max 0 (len s - n).
Proof.
  intros H. unfold slice_from, len. destruct (n <? 0) eqn:E; [apply Z.ltb_lt in E; lia|].
  rewrite length_drop. lia.
Qed.

Lemma slice_app {A} (s : list A) n : slice_to s n ++ slice_from s n = s.
Proof. unfold slice_to, slice_from. destruct (n <? 0); apply take_drop. Qed.

Lemma lstrip_len s : (length (lstrip s) <= length s)%nat.
Proof.
  induction s as [|c s IH]; simpl; [lia|]. destruct (isspace c); simpl; lia.
Qed.

Lemma rfind_from_range c s i :
  0 <= i -> rfind_from c s i = -1 \/ i <= rfind_from c s i < i + len s.
Proof.
  revert i. induction s as [|x s IH]; intros i Hi; simpl; [left; reflexivity|].
  rewrite len_cons. destruct (IH (i + 1)) as [E | E]; [lia| |].
  - rewrite E. simpl. destruct (Ascii.eqb x c); [right|left; reflexivity].
    pose proof (len_nonneg s). lia.
  - destruct (0 <=? rfind_from c s (i + 1)) eqn:E0.
    + right. lia.
    + apply Z.leb_gt in E0. lia.
Qed.

Lemma rfind_lt c s : -1 <= rfind c s /\ (rfind c s < len s \/ rfind c s = -1).
Proof.
  unfold rfind. destruct (rfind_from_range c s 0) as [E | E]; [lia| |]; lia.
Qed.

Lemma rfind_from_contains c s i :
  0 <= i -> contains c s = true -> i <= rfind_from c s i.
Proof.
  revert i. induction s as [|x s IH]; intros i Hi; simpl; [discriminate|].
  rewrite Ascii.eqb_sym. intros H.
  destruct (rfind_from_range c s (i + 1)) as [E | E]; [lia| |].
  - rewrite E. simpl. destruct (Ascii.eqb x c) eqn:Ex; [lia|].
    simpl in H. specialize (IH (i + 1)). unfold contains in IH.
    rewrite E in IH. specialize (IH ltac:(lia) H). lia.
  - destruct (0 <=? rfind_from c s (i + 1)) eqn:E0; [lia|].
    apply Z.leb_gt in E0. lia.
Qed.

Lemma rfind_contains c s : contains c s = true -> 0 <= rfind c s < len s.
Proof.
  intros H. pose proof (rfind_from_contains c s 0 ltac:(lia) H).
  pose proof (rfind_lt c s). unfold rfind in *. lia.
Qed.

Lemma find_from_contains c s i :
  contains c s = true -> i <= find_from c s i < i + len s.
Proof.
  revert i. induction s as [|x s IH]; intros i; simpl; [discriminate|].
  rewrite Ascii.eqb_sym, len_cons. pose proof (len_nonneg s).
  destruct (Ascii.eqb x c); simpl; [lia|].
  intros H1. specialize (IH (i + 1) H1). lia.
Qed.

Lemma find_contains c s : contains c s = true -> 0 <= find c s < len s.
Proof. intros H. pose proof (find_from_contains c s 0 H). unfold find. lia. Qed.

Lemma code_chr n : 0 <= n < 256 -> code (chr n) = n.
Proof.
  intros H. unfold code, chr. rewrite N_ascii_embedding; lia.
Qed.

Lemma chr_code c : chr (code c) = c.
Proof. unfold chr, code. rewrite N2Z.id. apply ascii_N_embedding. Qed.

Lemma code_range c : 0 <= code c < 256.
Proof. unfold code. pose proof (N_ascii_bounded c). lia. Qed.

(** On a string the round trip through Latin-1 changes nothing. *)
Lemma sanitize_latin1_id (text : str) : sanitize_latin1 text = text.
Proof.
  unfold sanitize_latin1, Unicode.sanitize_latin1, Unicode.decode_latin1,
    Unicode.encode_latin1, Unicode.to_str, Unicode.of_str.
  induction text as [|c text IH]; [reflexivity|].
  cbn [map]. rewrite IH. pose proof (code_range c) as Hc.
  destruct (code c <? 256) eqn:E; [|apply Z.ltb_ge in E; lia].
  rewrite chr_code. reflexivity.
Qed.



Lemma slice_to_app {A} (l1 l2 : list A) : slice_to (l1 ++ l2) (len l1) = l1.
Proof.
  unfold slice_to, len.
  destruct (Z.of_nat (length l1) <? 0) eqn:E; [apply Z.ltb_lt in E; lia|].
  rewrite Nat2Z.id. apply take_app_length.
Qed.

Lemma slice_from_app {A} (l1 l2 : list A) (x : A) :
  slice_from (l1 ++ x :: l2) (len l1 + 1) = l2.
Proof.
  unfold slice_from, len.
  destruct (Z.of_nat (length l1) + 1 <? 0) eqn:E; [apply Z.ltb_lt in E; lia|].
  replace (Z.to_nat (Z.of_nat (length l1) + 1)) with (length l1 + 1)%nat by lia.
  rewrite <- drop_drop, drop_app_length. reflexivity.
Qed.

(** *** The first occurrence of a character *)

Lemma contains_app c (a b : str) :
  contains c (a ++ b) = contains c a || contains c b.
Proof. unfold contains. apply existsb_app. Qed.


Lemma contains_first c (l1 l2 : str) : contains c (l1 ++ c :: l2) = true.
Proof.
  rewrite contains_app. unfold contains at 2. cbn [existsb].
  rewrite Ascii.eqb_refl. apply orb_true_r.
Qed.






End PyStrFacts.

(** ** HistoryStore *)

Module HistoryFacts.
Import History PyStrFacts.


Lemma content_len_nonneg m : 0 <= content_len m.
Proof. unfold content_len, len. lia. Qed.

Lemma total_chars_nonneg l : 0 <= total_chars l.
Proof. induction l as [|m l IH]; simpl; [lia|]. pose proof (content_len_nonneg m). lia. Qed.



(** The first loop drops the least number of leading messages that brings
    the length under the cap. *)
Lemma trim_turns_spec cap l :
  0 <= cap ->
  exists k : nat,
    trim_turns cap l = Ok (drop k l) /\
    len (drop k l) <= cap /\
    forall j : nat, (j < k)%nat -> cap < len (drop j l).
Proof.
  intros Hcap. induction l as [|m l IH].
  - exists O. simpl. destruct (cap <? len []) eqn:E.
    + apply Z.ltb_lt in E. unfold len in E. simpl in E. lia.
    + split; [reflexivity|]. split; [unfold len; simpl; lia|]. intros j Hj. lia.
  - simpl. destruct (cap <? len (m :: l)) eqn:E.
    + destruct IH as (k & Hk & Hle & Hmin). exists (S k). simpl.
      split; [exact Hk|]. split; [exact Hle|].
      intros [|j] Hj; simpl.
      * apply Z.ltb_lt in E. exact E.
      * apply Hmin. lia.
    + exists O. simpl. apply Z.ltb_ge in E.
      split; [reflexivity|]. split; [exact E|]. intros j Hj. lia.
Qed.

Lemma trim_chars_spec cap l :
  0 <= cap ->
  exists k : nat,
    trim_chars cap (total_chars l) l = drop k l /\
    total_chars (drop k l) <= cap /\
    forall j : nat, (j < k)%nat -> cap < total_chars (drop j l).
Proof.
  intros Hcap. induction l as [|m l IH].
  - exists O. simpl. destruct (cap <? 0) eqn:E.
    + apply Z.ltb_lt in E. lia.
    + split; [reflexivity|]. split; [lia|]. intros j Hj. lia.
  - simpl. destruct (cap <? content_len m + total_chars l) eqn:E.
    + destruct IH as (k & Hk & Hle & Hmin). exists (S k). simpl.
      replace (content_len m + total_chars l - content_len m) with (total_chars l) by lia.
      split; [exact Hk|]. split; [exact Hle|].
      intros [|j] Hj; simpl.
      * apply Z.ltb_lt in E. exact E.
      * apply Hmin. lia.
    + exists O. simpl. apply Z.ltb_ge in E.
      split; [reflexivity|]. split; [exact E|]. intros j Hj. lia.
Qed.

Lemma len_drop_le {A} (k : nat) (l : list A) : len (drop k l) <= len l.
Proof. unfold len. rewrite length_drop. lia. Qed.

Lemma trim_list_spec mt mc l :
  0 <= mt -> 0 <= mc ->
  exists k : nat,
    trim_list mt mc l = Ok (drop k l) /\
    len (drop k l) <= 2 * mt /\
    total_chars (drop k l) <= mc /\
    forall j : nat, (j < k)%nat ->
      2 * mt < len (drop j l) \/ mc < total_chars (drop j l).
Proof.
  intros Hmt Hmc. unfold trim_list.
  destruct (trim_turns_spec (mt * 2) l) as (k1 & H1 & Hle1 & Hmin1); [lia|].
  rewrite H1. simpl.
  destruct (trim_chars_spec mc (drop k1 l) Hmc) as (k2 & H2 & Hle2 & Hmin2).
  rewrite H2, drop_drop. exists (k1 + k2)%nat.
  split; [reflexivity|]. split.
  - rewrite <- drop_drop. pose proof (len_drop_le k2 (drop k1 l)). lia.
  - split; [rewrite <- drop_drop; exact Hle2|].
    intros j Hj. destruct (Nat.lt_ge_cases j k1) as [Hlt|Hge].
    + left. specialize (Hmin1 j Hlt). lia.
    + right. replace j with (k1 + (j - k1))%nat by lia.
      rewrite <- drop_drop. apply Hmin2. lia.
Qed.


Lemma _trim_spec s h l :
  0 <= max_turns s -> 0 <= max_chars s ->
  h !! messages s = Some l ->
  exists k : nat,
    _trim s h = Ok (<[messages s := drop k l]> h) /\
    caps_hold s (drop k l) /\
    forall j : nat, (j < k)%nat ->
      2 * max_turns s < len (drop j l) \/ max_chars s < total_chars (drop j l).
Proof.
  intros Hmt Hmc Hl. unfold _trim. rewrite Hl.
  destruct (trim_list_spec (max_turns s) (max_chars s) l Hmt Hmc)
    as (k & Hk & Hlen & Htot & Hmin).
  exists k. rewrite Hk. simpl. repeat split; assumption.
Qed.

(** C8. Trimming removes messages from the front only, oldest first, and
    stops as soon as both caps hold: the history becomes [drop k l] for the
    least [k] whose remainder has at most [2 * max_turns] messages and at
    most [max_chars] characters of content; the caps hold after [_trim],
    after [add] and after [load]. *)
Theorem history_trim_oldest_first (s : HistoryStore) (h : heap)
  (l : list message) :
  0 <= max_turns s -> 0 <= max_chars s ->
  h !! messages s = Some l ->
  (exists k : nat,
     _trim s h = Ok (<[messages s := drop k l]> h) /\
     caps_hold s (drop k l) /\
     forall j : nat, (j < k)%nat ->
       2 * max_turns s < len (drop j l) \/ max_chars s < total_chars (drop j l))
  /\
  (forall role content, exists k : nat,
     add role content s h
       = Ok (<[messages s := drop k (l ++ [mk_message role content])]> h) /\
     caps_hold s (drop k (l ++ [mk_message role content])))
  /\
  (forall data, exists (k : nat) (s' : HistoryStore) (h' : heap),
     load data s h = Ok (s', h') /\
     max_turns s' = max_turns s /\ max_chars s' = max_chars s /\
     h' !! messages s' = Some (drop k (default [] data)) /\
     caps_hold s' (drop k (default [] data))).
Proof.
  intros Hmt Hmc Hl. split; [|split].
  - exact (_trim_spec s h l Hmt Hmc Hl).
  - intros role content. unfold add. rewrite Hl.
    set (l1 := l ++ [mk_message role content]).
    destruct (_trim_spec s (<[messages s := l1]> h) l1 Hmt Hmc)
      as (k & Hk & Hcaps & _); [apply lookup_insert_eq|].
    exists k. rewrite Hk, insert_insert_eq. split; [reflexivity|exact Hcaps].
  - intros data. unfold load.
    set (r := fresh_loc h).
    set (s' := mkStore (max_turns s) (max_chars s) r).
    destruct data as [d|]; simpl default.
    + destruct (_trim_spec s' (<[r := d]> h) d Hmt Hmc)
        as (k & Hk & Hcaps & _); [apply lookup_insert_eq|].
      exists k, s', (<[r := drop k d]> h). rewrite Hk. simpl.
      rewrite insert_insert_eq.
      repeat split; try reflexivity; try apply Hcaps. apply lookup_insert_eq.
    + exists O, s', (<[r := []]> h). simpl.
      repeat split; try reflexivity; try (unfold len; simpl; lia).
      apply lookup_insert_eq.
Qed.


Lemma history_trim_oldest_first_witness :
  exists k : nat,
    _trim store0 heap0
      = Ok (<[1%positive := drop k history0]> heap0).
Proof.
  destruct (history_trim_oldest_first store0 heap0
              history0) as [(k & Hk & _) _].
  - simpl. lia.
  - simpl. lia.
  - reflexivity.
  - exists k. exact Hk.
Defined.

Lemma fresh_loc_None (h : heap) : h !! fresh_loc h = None.
Proof. apply (not_elem_of_dom (D := gset loc)). unfold fresh_loc. apply is_fresh. Qed.

Lemma mutate_other r o (h : heap) p : p <> r -> mutate r o h !! p = h !! p.
Proof.
  intros Hne. unfold mutate. destruct (h !! r); [|reflexivity].
  apply lookup_insert_ne. congruence.
Qed.

Lemma mutate_all_other r os (h : heap) p :
  p <> r -> mutate_all r os h !! p = h !! p.
Proof.
  intros Hne. unfold mutate_all. revert h.
  induction os as [|o os IH]; intros h; simpl; [reflexivity|].
  rewrite IH. apply mutate_other, Hne.
Qed.

(** The store's methods read the heap only at the store's own list. *)
Lemma _trim_frame s (h1 h2 : heap) :
  contents s h1 = contents s h2 ->
  rmap (contents s) (_trim s h1) = rmap (contents s) (_trim s h2).
Proof.
  unfold contents, _trim. intros ->. destruct (h2 !! messages s); [|reflexivity].
  destruct (trim_list _ _ _); simpl; try reflexivity.
  unfold contents. by rewrite !lookup_insert_eq.
Qed.

Lemma add_frame role content s (h1 h2 : heap) :
  contents s h1 = contents s h2 ->
  rmap (contents s) (add role content s h1)
  = rmap (contents s) (add role content s h2).
Proof.
  intros H. unfold add. unfold contents in H. rewrite H.
  destruct (h2 !! messages s); [|reflexivity].
  apply _trim_frame. unfold contents. by rewrite !lookup_insert_eq.
Qed.


Lemma get_messages_frame s (h1 h2 : heap) :
  contents s h1 = contents s h2 ->
  returned (get_messages s h1) = returned (get_messages s h2).
Proof.
  unfold contents, get_messages. intros ->.
  destruct (h2 !! messages s); [|reflexivity]. simpl.
  by rewrite !lookup_insert_eq.
Qed.

(** C10. [get_messages] returns a new list object holding the stored
    messages in order and leaves the store's own list as it was; whatever
    the caller then does to the returned list (append, remove, insert,
    overwrite, reverse, reorder, clear), the store's list is unchanged and
    the store's later operations give the results they would have given. *)
Theorem get_messages_returns_fresh_copy (s : HistoryStore) (h : heap)
  (l : list message) :
  h !! messages s = Some l ->
  exists (r : loc) (h' : heap),
    get_messages s h = Some (r, h') /\
    r <> messages s /\ h !! r = None /\
    h' !! r = Some l /\ h' !! messages s = Some l /\
    (forall p, p <> r -> h' !! p = h !! p) /\
    forall ops : list list_op,
      let h'' := mutate_all r ops h' in
      h'' !! messages s = Some l /\
      returned (get_messages s h'') = Some l /\
      (forall role content,
         rmap (contents s) (add role content s h'')
         = rmap (contents s) (add role content s h)) /\
      rmap (contents s) (_trim s h'') = rmap (contents s) (_trim s h).
Proof.
  intros Hl. set (r := fresh_loc h).
  assert (Hg : get_messages s h = Some (r, <[r := l]> h))
    by (unfold get_messages; rewrite Hl; reflexivity).
  assert (Hr : h !! r = None) by apply fresh_loc_None.
  assert (Hne : messages s <> r) by congruence.
  exists r, (<[r := l]> h).
  split; [exact Hg|]. split; [congruence|]. split; [exact Hr|].
  split; [apply lookup_insert_eq|].
  split; [rewrite lookup_insert_ne by congruence; exact Hl|].
  split; [intros p Hp; apply lookup_insert_ne; congruence|].
  intros ops h''.
  assert (Hc : contents s h'' = contents s h).
  { unfold contents, h''. rewrite mutate_all_other by exact Hne.
    rewrite lookup_insert_ne by congruence. reflexivity. }
  split; [unfold contents in Hc; rewrite Hc; exact Hl|].
  split.
  - rewrite (get_messages_frame s h'' h Hc), Hg. simpl.
    apply lookup_insert_eq.
  - split; [intros role content; apply add_frame, Hc|apply _trim_frame, Hc].
Qed.

Lemma get_messages_returns_fresh_copy_witness :
  exists (r : loc) (h' : heap), get_messages store0 heap0 = Some (r, h').
Proof.
  destruct (get_messages_returns_fresh_copy store0 heap0
              history0) as (r & h' & H & _).
  - reflexivity.
  - exists r, h'. exact H.
Defined.
End HistoryFacts.

(** ** SerialMinitel: the read loop *)

Module SerialFacts.
Import SerialMinitel.


Lemma read_byte_arrived timeout s arrival byte more :
  is_open s = true -> rx s = (arrival, byte) :: more ->
  arrival <= clock s + timeout ->
  read_byte timeout s =
    (Some byte,
     mk (port_open s) (line_delay_ms s) (char_delay_ms s)
        (_pagination_enabled s) (Z.max (clock s) arrival) more (tx s)).
Proof.
  intros Ho Hrx Ha. unfold read_byte. rewrite Ho, Hrx. simpl.
  apply Z.leb_le in Ha. rewrite Ha. reflexivity.
Qed.

Lemma read_byte_silent timeout s :
  is_open s = true ->
  match rx s with (arrival, _) :: _ => clock s + timeout < arrival | [] => True end ->
  read_byte timeout s = (None, sleep timeout s).
Proof.
  intros Ho H. unfold read_byte. rewrite Ho. simpl.
  destruct (rx s) as [|[a b] more]; [reflexivity|].
  apply Z.leb_gt in H. rewrite H. reflexivity.
Qed.

(** What [write] and [writeln] leave alone. *)
Lemma write_frame text s :
  is_open (write text s) = is_open s /\ rx (write text s) = rx s /\
  line_delay_ms (write text s) = line_delay_ms s /\
  char_delay_ms (write text s) = char_delay_ms s /\
  _pagination_enabled (write text s) = _pagination_enabled s.
Proof.
  unfold write. destruct (negb (is_open s)); [tauto|].
  destruct (0 <? char_delay_ms s); simpl; tauto.
Qed.

Lemma write_tx text s :
  tx (write text s) = if is_open s then tx s ++ text else tx s.
Proof.
  unfold write. rewrite PyStrFacts.sanitize_latin1_id. destruct (is_open s); simpl; [|reflexivity].
  destruct (0 <? char_delay_ms s); reflexivity.
Qed.

Lemma write_clock text s :
  clock s <= clock (write text s) <= clock s + Z.max 0 (char_delay_ms s) * len text.
Proof.
  unfold write. rewrite PyStrFacts.sanitize_latin1_id. pose proof (Zle_0_nat (length text)) as Hl.
  fold (len text) in Hl.
  destruct (negb (is_open s)); [nia|].
  destruct (0 <? char_delay_ms s) eqn:E; simpl.
  - apply Z.ltb_lt in E. nia.
  - nia.
Qed.

Lemma writeln_frame line s :
  is_open (writeln line s) = is_open s /\ rx (writeln line s) = rx s /\
  char_delay_ms (writeln line s) = char_delay_ms s /\
  _pagination_enabled (writeln line s) = _pagination_enabled s.
Proof.
  unfold writeln. destruct (write_frame (line ++ [CR; LF]) s) as (H1 & H2 & H3 & H4 & H5).
  destruct (0 <? line_delay_ms (write _ s)); simpl; tauto.
Qed.

Lemma writeln_tx line s :
  tx (writeln line s) = if is_open s then tx s ++ line ++ [CR; LF] else tx s.
Proof.
  unfold writeln. pose proof (write_tx (line ++ [CR; LF]) s) as H.
  destruct (0 <? line_delay_ms (write _ s)); simpl; exact H.
Qed.


Lemma body_no_byte echo buffer s :
  is_open s = true ->
  match rx s with (arrival, _) :: _ => clock s + 100 < arrival | [] => True end ->
  read_line_body echo buffer s = (Continue buffer, sleep 100 s).
Proof.
  intros Ho H. unfold read_line_body. rewrite (read_byte_silent 100 s Ho H).
  reflexivity.
Qed.

Lemma body_terminator echo buffer s arrival byte more :
  is_open s = true -> rx s = (arrival, byte) :: more ->
  arrives_within 100 s arrival -> is_terminator byte ->
  read_line_body echo buffer s =
    (Return (Some buffer),
     let s1 := mk (port_open s) (line_delay_ms s) (char_delay_ms s)
                  (_pagination_enabled s) (Z.max (clock s) arrival) more (tx s) in
     let s2 := snd (read_byte 50 s1) in
     if echo then writeln [] s2 else s2).
Proof.
  intros Ho Hrx Ha Ht. unfold read_line_body.
  rewrite (read_byte_arrived 100 s arrival byte more Ho Hrx Ha).
  assert (E : (byte =? 13) || (byte =? 10) = true)
    by (destruct Ht as [-> | ->]; reflexivity).
  rewrite E. destruct (read_byte 50 _) as [nb s2]. reflexivity.
Qed.

Lemma body_erase echo buffer s arrival byte more :
  is_open s = true -> rx s = (arrival, byte) :: more ->
  arrives_within 100 s arrival -> is_erase byte ->
  read_line_body echo buffer s =
    let s1 := mk (port_open s) (line_delay_ms s) (char_delay_ms s)
                 (_pagination_enabled s) (Z.max (clock s) arrival) more (tx s) in
    if truthy buffer
    then (Continue (removelast buffer),
          if echo then write [BS; SP; BS] s1 else s1)
    else (Continue buffer, s1).
Proof.
  intros Ho Hrx Ha Ht. unfold read_line_body.
  rewrite (read_byte_arrived 100 s arrival byte more Ho Hrx Ha).
  destruct Ht as [-> | ->]; reflexivity.
Qed.

Lemma body_printable echo buffer s arrival byte more :
  is_open s = true -> rx s = (arrival, byte) :: more ->
  arrives_within 100 s arrival -> printable byte ->
  read_line_body echo buffer s =
    let s1 := mk (port_open s) (line_delay_ms s) (char_delay_ms s)
                 (_pagination_enabled s) (Z.max (clock s) arrival) more (tx s) in
    (Continue (buffer ++ [chr byte]),
     if echo then write [chr byte] s1 else s1).
Proof.
  intros Ho Hrx Ha [Hlo Hhi]. unfold read_line_body.
  rewrite (read_byte_arrived 100 s arrival byte more Ho Hrx Ha).
  assert (E1 : (byte =? 13) || (byte =? 10) = false).
  { apply orb_false_iff; split; apply Z.eqb_neq; lia. }
  assert (E2 : (byte =? 8) || (byte =? 127) = false).
  { apply orb_false_iff; split; apply Z.eqb_neq; lia. }
  assert (E3 : (32 <=? byte) && (byte <? 127) = true).
  { apply andb_true_iff; split; [apply Z.leb_le|apply Z.ltb_lt]; lia. }
  rewrite E1, E2, E3. reflexivity.
Qed.

(** The loop leaves as soon as the deadline has passed. *)
Lemma loop_deadline fuel start timeout echo buffer s :
  timeout <= clock s - start ->
  read_line_loop fuel start timeout echo buffer s
  = Ok (if truthy buffer then Some buffer else None, s).
Proof.
  intros H. apply Z.ltb_ge in H. destruct fuel; simpl; rewrite H; reflexivity.
Qed.

Lemma loop_step fuel start timeout echo buffer s :
  clock s - start < timeout ->
  read_line_loop (S fuel) start timeout echo buffer s
  = match read_line_body echo buffer s with
    | (Return line, s') => Ok (line, s')
    | (Continue buffer', s') =>
        read_line_loop fuel start timeout echo buffer' s'
    end.
Proof. intros H. apply Z.ltb_lt in H. simpl. rewrite H. reflexivity. Qed.

(** *** Totality: the fuel of [read_line] is enough *)


Lemma read_byte_clock timeout s :
  0 <= timeout -> clock s <= clock (snd (read_byte timeout s)).
Proof.
  intros Ht. unfold read_byte. destruct (negb (is_open s)); simpl; [lia|].
  destruct (rx s) as [|[a b] more]; simpl; [lia|].
  destruct (a <=? clock s + timeout); simpl; lia.
Qed.

Lemma writeln_clock line s : clock s <= clock (writeln line s).
Proof.
  unfold writeln. pose proof (write_clock (line ++ [CR; LF]) s) as H.
  destruct (0 <? line_delay_ms (write _ s)) eqn:E; simpl; [|lia].
  apply Z.ltb_lt in E. lia.
Qed.

(** A pass that goes on either took a byte off the line, the clock not
    going back, or waited 100 ms. *)
Lemma body_progress echo buffer s buffer' s' :
  is_open s = true ->
  read_line_body echo buffer s = (Continue buffer', s') ->
  is_open s' = true /\
  ((S (length (rx s')) = length (rx s) /\ clock s <= clock s')
   \/ (rx s' = rx s /\ clock s' = clock s + 100)).
Proof.
  intros Ho. unfold read_line_body, read_byte. rewrite Ho. simpl negb. cbv iota.
  destruct (rx s) as [|[a b] more] eqn:Hrx.
  - intros H. inversion H; subst. simpl. rewrite Hrx. split; [exact Ho|].
    right. split; reflexivity.
  - destruct (a <=? clock s + 100) eqn:Ha.
    + set (s1 := mk _ _ _ _ _ more _).
      assert (H1 : is_open s1 = true /\ rx s1 = more /\ clock s <= clock s1).
      { unfold s1; simpl. repeat split; try exact Ho. lia. }
      destruct H1 as (Ho1 & Hrx1 & Hc1).
      assert (Hw : forall text, is_open (write text s1) = true /\
                (S (length (rx (write text s1))) = S (length more) /\
                 clock s <= clock (write text s1))).
      { intros text. destruct (write_frame text s1) as (E1 & E2 & _).
        pose proof (write_clock text s1). rewrite E1, E2, Hrx1.
        repeat split; try assumption. lia. }
      assert (Hs : is_open s1 = true /\
                (S (length (rx s1)) = S (length more) /\ clock s <= clock s1)).
      { rewrite Hrx1. repeat split; assumption. }
      clearbody s1. simpl length.
      assert (Hfin : forall s', (s' = s1 \/ exists text, s' = write text s1) ->
                is_open s' = true /\
                ((S (length (rx s')) = S (length more) /\ clock s <= clock s')
                 \/ (rx s' = (a, b) :: more /\ clock s' = clock s + 100))).
      { intros s2 [-> | [text ->]]; (split; [|left]);
          first [apply Hs | apply Hw]. }
      clear Hw Hs Hrx1 Ho1 Hc1.
      destruct ((b =? 13) || (b =? 10)).
      { destruct (if negb (is_open s1) then _ else _); intros H; inversion H. }
      destruct ((b =? 8) || (b =? 127)).
      { destruct (truthy buffer); intros H; inversion H; subst s';
          apply Hfin; destruct echo; eauto. }
      destruct ((32 <=? b) && (b <? 127)).
      { intros H; inversion H; subst s'. apply Hfin; destruct echo; eauto. }
      destruct (128 <=? b); intros H; inversion H; subst s';
        apply Hfin; try destruct echo; eauto.
    + intros H. inversion H; subst. simpl. rewrite Hrx. split; [exact Ho|].
      right. split; reflexivity.
Qed.

Lemma polls_left_pos start timeout s :
  clock s - start < timeout -> (1 <= polls_left start timeout s)%nat.
Proof.
  intros H. unfold polls_left.
  assert (1 <= (start + timeout - clock s + 99) / 100).
  { apply Z.div_le_lower_bound; lia. }
  lia.
Qed.

Lemma polls_left_mono start timeout s s' :
  clock s <= clock s' ->
  (polls_left start timeout s' <= polls_left start timeout s)%nat.
Proof.
  intros H. unfold polls_left.
  assert ((start + timeout - clock s' + 99) / 100
          <= (start + timeout - clock s + 99) / 100)
    by (apply Z.div_le_mono; lia).
  lia.
Qed.

Lemma polls_left_wait start timeout s s' :
  clock s - start < timeout -> clock s' = clock s + 100 ->
  S (polls_left start timeout s') = polls_left start timeout s.
Proof.
  intros H E. unfold polls_left. rewrite E.
  replace (start + timeout - (clock s + 100) + 99)
    with (start + timeout - clock s + 99 + (-1) * 100) by lia.
  rewrite Z.div_add by lia.
  assert (1 <= (start + timeout - clock s + 99) / 100).
  { apply Z.div_le_lower_bound; lia. }
  lia.
Qed.

Lemma read_line_loop_total fuel start timeout echo buffer s :
  is_open s = true ->
  (length (rx s) + polls_left start timeout s <= fuel)%nat ->
  exists r, read_line_loop fuel start timeout echo buffer s = Ok r.
Proof.
  revert buffer s. induction fuel as [|fuel IH]; intros buffer s Ho Hf.
  - destruct (Z.lt_ge_cases (clock s - start) timeout) as [Hlt|Hge].
    + pose proof (polls_left_pos start timeout s Hlt). lia.
    + rewrite loop_deadline by exact Hge. eauto.
  - destruct (Z.lt_ge_cases (clock s - start) timeout) as [Hlt|Hge].
    + rewrite loop_step by exact Hlt.
      destruct (read_line_body echo buffer s) as [[line|buffer'] s'] eqn:Hb;
        [eauto|].
      destruct (body_progress echo buffer s buffer' s' Ho Hb) as (Ho' & Hp).
      apply IH; [exact Ho'|].
      destruct Hp as [[Hlen Hc]|[Hrx Hc]].
      * pose proof (polls_left_mono start timeout s s' Hc). lia.
      * pose proof (polls_left_wait start timeout s s' Hlt Hc). rewrite Hrx. lia.
    + rewrite loop_deadline by exact Hge. eauto.
Qed.

(** [read_line] always returns. *)
Lemma read_line_total timeout echo s :
  exists r, read_line timeout echo s = Ok r.
Proof.
  unfold read_line. destruct (is_open s) eqn:Ho; simpl; [|eauto].
  apply read_line_loop_total; [exact Ho|].
  unfold read_line_fuel, polls_left.
  replace (clock s + timeout - clock s + 99) with (timeout + 99) by lia. lia.
Qed.

(** Printable bytes already on the line are appended to the buffer one pass
    each, as long as the echo delays do not use up the timeout. *)
Lemma loop_typed bytes : forall pending more buffer s fuel start timeout echo,
  is_open s = true -> rx s = pending ++ more -> map snd pending = bytes ->
  Forall (fun p => fst p <= clock s) pending -> Forall printable bytes ->
  clock s - start + Z.max 0 (char_delay_ms s) * len bytes < timeout ->
  exists s',
    read_line_loop (length bytes + fuel) start timeout echo buffer s
    = read_line_loop fuel start timeout echo (buffer ++ map chr bytes) s' /\
    is_open s' = true /\ rx s' = more /\
    clock s <= clock s' <= clock s + Z.max 0 (char_delay_ms s) * len bytes /\
    char_delay_ms s' = char_delay_ms s.
Proof.
  induction bytes as [|b bytes IH];
    intros pending more buffer s fuel start timeout echo Ho Hrx Hp Harr Hpr Ht.
  - destruct pending; [|discriminate]. exists s. simpl.
    rewrite app_nil_r. unfold len. simpl. repeat split; try assumption; lia.
  - destruct pending as [|[a b'] pending]; [discriminate|].
    simpl in Hp. injection Hp as -> Hp.
    apply Forall_cons in Harr as [Ha Harr]. apply Forall_cons in Hpr as [Hb Hpr].
    simpl in Ha, Hrx.
    assert (Hlen : len (b :: bytes) = 1 + len bytes)
      by (unfold len; simpl length; lia).
    rewrite Hlen in Ht.
    assert (Hd : 0 <= Z.max 0 (char_delay_ms s)) by lia.
    assert (Hn : 0 <= len bytes) by (unfold len; lia).
    simpl plus. rewrite loop_step by nia.
    rewrite (body_printable echo buffer s a b (pending ++ more) Ho Hrx)
      by (unfold arrives_within; try assumption; lia).
    cbv zeta.
    set (s1 := mk _ _ _ _ _ (pending ++ more) _).
    set (s2 := if echo then write [chr b] s1 else s1).
    assert (H2 : is_open s2 = true /\ rx s2 = pending ++ more /\
                 char_delay_ms s2 = char_delay_ms s /\
                 clock s <= clock s2 <= clock s + Z.max 0 (char_delay_ms s)).
    { unfold s2. destruct echo.
      - destruct (write_frame [chr b] s1) as (E1 & E2 & _ & E4 & _).
        pose proof (write_clock [chr b] s1) as Hc.
        rewrite E1, E2, E4. unfold s1 in *; simpl in *.
        unfold len in Hc; simpl in Hc.
        repeat split; try assumption; lia.
      - unfold s1; simpl. repeat split; try assumption; lia. }
    destruct H2 as (Ho2 & Hrx2 & Hcd2 & Hc2). clearbody s2. clear s1.
    destruct (IH pending more (buffer ++ [chr b]) s2 fuel start timeout echo
                Ho2 Hrx2 Hp) as (s' & Heq & Ho' & Hrx' & Hc' & Hcd').
    + eapply Forall_impl; [exact Harr|]. simpl. intros p Hle. lia.
    + exact Hpr.
    + rewrite Hcd2. nia.
    + exists s'. rewrite Heq, <- app_assoc. simpl.
      rewrite Hlen. rewrite Hcd2 in Hc'.
      repeat split; try assumption; try congruence; nia.
Qed.

(** Once nothing more arrives the loop polls until the deadline, then
    returns the buffer, or no input when the buffer is empty. *)
Lemma loop_silence fuel : forall start timeout echo buffer s,
  is_open s = true -> rx s = [] ->
  (polls_left start timeout s <= fuel)%nat ->
  exists s',
    read_line_loop fuel start timeout echo buffer s
    = Ok (if truthy buffer then Some buffer else None, s').
Proof.
  induction fuel as [|fuel IH]; intros start timeout echo buffer s Ho Hrx Hf.
  - destruct (Z.lt_ge_cases (clock s - start) timeout) as [Hlt|Hge].
    + pose proof (polls_left_pos start timeout s Hlt). lia.
    + rewrite loop_deadline by exact Hge. eauto.
  - destruct (Z.lt_ge_cases (clock s - start) timeout) as [Hlt|Hge].
    + rewrite loop_step by exact Hlt.
      rewrite body_no_byte by (try exact Ho; rewrite Hrx; exact I).
      apply IH; [exact Ho|exact Hrx|].
      pose proof (polls_left_wait start timeout s (sleep 100 s) Hlt eq_refl). lia.
    + rewrite loop_deadline by exact Hge. eauto.
Qed.
End SerialFacts.

(** ** The line discipline and the two transports *)

Module SimulatedFacts.
Import SimulatedMinitel PyStrFacts.






(** A pipe that delivers two characters and is closed, and one that stays
    open: the second character, read ahead with the first, is handed out
    when the descriptor answers, and not when it is quiet. *)
Example read_byte_closed_pipe :
  let m := simulated_with [65; 66] in
  let (b1, m1) := read_byte 500 m in
  let (b2, m2) := read_byte 500 m1 in
  let (b3, m3) := read_byte 500 m2 in
  (b1, b2, b3) = (Some 65, Some 66, None).
Proof. reflexivity. Qed.

Example read_byte_open_pipe :
  let m := mk true 0 true [] [Chunk (lit "AB"); Quiet; Quiet] [] in
  let (b1, m1) := read_byte 500 m in
  let (b2, m2) := read_byte 500 m1 in
  (b1, b2, stdin m2) = (Some 65, None, lit "B").
Proof. reflexivity. Qed.

(** [read_byte] and [input] share what [sys.stdin] has read ahead. *)
Example read_byte_then_input :
  let m := mk true 0 true []
              [Chunk (lit "AB" ++ [LF] ++ lit "CD" ++ [LF] ++ lit "E"); Quiet] [] in
  let (b1, m1) := read_byte 500 m in
  let (l1, m2) := input m1 in
  let (l2, m3) := input m2 in
  let (b2, m4) := read_byte 500 m3 in
  let (l3, m5) := input m4 in
  (b1, l1, l2, b2, l3)
  = (Some 65, Some (lit "B"), Some (lit "CD"), None, Some (lit "E")).
Proof. reflexivity. Qed.



(** [read_byte] touches standard input only. *)
Lemma simulated_read_byte_frame timeout s :
  let s' := snd (read_byte timeout s) in
  _is_open s' = _is_open s /\
  _pagination_enabled s' = _pagination_enabled s /\
  stdout s' = stdout s.
Proof.
  destruct s as [o d p buffer fd out].
  unfold read_byte, select, read. cbn [stdin_buffer stdin_fd].
  destruct fd as [|[data|] later].
  - destruct buffer; repeat split.
  - destruct buffer; [|repeat split].
    cbn [read_fd]. destruct data; repeat split.
  - repeat split.
Qed.



End SimulatedFacts.

Module TransportClaims.
Import SerialMinitel SerialFacts PyStrFacts SimulatedFacts.

(** C5. [read_line] tells an empty submitted line from no input: a
    terminator read before the deadline returns the buffer, the empty string
    when the buffer is empty; when the deadline has passed the loop returns
    the buffer gathered so far if it is not empty and [None] otherwise; so a
    line typed without its terminator comes back at the deadline, and
    silence gives [None]. *)
Theorem read_line_empty_line_or_no_input (s : t) (timeout : Z) (echo : bool) :
  is_open s = true -> 0 < timeout ->
  (forall fuel start buffer arrival byte more,
     clock s - start < timeout ->
     rx s = (arrival, byte) :: more -> arrives_within 100 s arrival ->
     is_terminator byte ->
     exists s',
       read_line_loop (S fuel) start timeout echo buffer s
       = Ok (Some buffer, s'))
  /\
  (forall arrival byte more,
     rx s = (arrival, byte) :: more -> arrives_within 100 s arrival ->
     is_terminator byte ->
     exists s', read_line timeout echo s = Ok (Some [], s'))
  /\
  (forall fuel start buffer,
     timeout <= clock s - start ->
     read_line_loop fuel start timeout echo buffer s
     = Ok (if truthy buffer then Some buffer else None, s))
  /\
  (forall bytes,
     map snd (rx s) = bytes -> Forall (fun p => fst p <= clock s) (rx s) ->
     Forall printable bytes ->
     Z.max 0 (char_delay_ms s) * len bytes < timeout ->
     exists s',
       read_line timeout echo s
       = Ok (if truthy bytes then Some (map chr bytes) else None, s'))
  /\ Some ([] : str) <> None.
Proof.
  intros Ho Ht. split; [|split; [|split; [|split]]].
  - intros fuel start buffer arrival byte more Hc Hrx Ha Hb.
    rewrite loop_step by exact Hc.
    rewrite (body_terminator echo buffer s arrival byte more Ho Hrx Ha Hb). eauto.
  - intros arrival byte more Hrx Ha Hb. unfold read_line. rewrite Ho. simpl negb.
    cbv iota. unfold read_line_fuel. rewrite Hrx. simpl length. simpl plus.
    rewrite loop_step by lia.
    rewrite (body_terminator echo [] s arrival byte more Ho Hrx Ha Hb). eauto.
  - intros fuel start buffer Hd. apply loop_deadline, Hd.
  - intros bytes Hb Harr Hpr Hd. unfold read_line. rewrite Ho. simpl negb.
    cbv iota. unfold read_line_fuel.
    replace (length (rx s)) with (length bytes)
      by (rewrite <- Hb; apply length_map).
    destruct (loop_typed bytes (rx s) [] [] s
                (Z.to_nat ((timeout + 99) / 100)) (clock s) timeout echo Ho)
      as (s' & Heq & Ho' & Hrx' & Hc' & _);
      [symmetry; apply app_nil_r|exact Hb|exact Harr|exact Hpr|lia|].
    rewrite Heq. simpl app.
    destruct (loop_silence (Z.to_nat ((timeout + 99) / 100)) (clock s) timeout
                echo (map chr bytes) s' Ho' Hrx') as (s'' & Hs).
    + pose proof (polls_left_mono (clock s) timeout s s' (proj1 Hc')) as Hm.
      unfold polls_left in *.
      replace (clock s + timeout - clock s + 99) with (timeout + 99) in Hm by lia.
      exact Hm.
    + exists s''. rewrite Hs. destruct bytes; reflexivity.
  - discriminate.
Qed.

Lemma read_line_empty_line_or_no_input_witness :
  (exists s', read_line 60000 true (serial_with [13]) = Ok (Some [], s'))
  /\ (exists s', read_line 60000 true (serial_with []) = Ok (None, s')).
Proof.
  destruct (read_line_empty_line_or_no_input (serial_with [13]) 60000 true)
    as (_ & H1 & _); [reflexivity|lia|].
  destruct (read_line_empty_line_or_no_input (serial_with []) 60000 true)
    as (_ & _ & _ & H3 & _); [reflexivity|lia|].
  split.
  - apply (H1 0 13 []); [reflexivity|unfold arrives_within; simpl; lia|].
    left; reflexivity.
  - apply (H3 []); [reflexivity|constructor|constructor|simpl; lia].
Defined.

(** C6. A backspace or delete byte read while the buffer is empty changes
    neither the buffer nor the output; read while the buffer is not empty it
    removes the last character appended and, with echo, writes
    backspace, space, backspace.  The bytes 41 42 7F 43 0D (hex) with echo
    give the line AC and the echo A, B, backspace space backspace, C. *)
Theorem read_line_erase (s : t) (echo : bool) (arrival byte : Z)
  (more : list (Z * Z)) :
  is_open s = true -> rx s = (arrival, byte) :: more ->
  arrives_within 100 s arrival -> is_erase byte ->
  (exists s',
     read_line_body echo [] s = (Continue [], s') /\
     tx s' = tx s /\ rx s' = more)
  /\
  (forall buffer char, exists s',
     read_line_body echo (buffer ++ [char]) s = (Continue buffer, s') /\
     tx s' = tx s ++ (if echo then [BS; SP; BS] else []) /\ rx s' = more)
  /\
  (exists s',
     read_line 60000 true (serial_with [65; 66; 127; 67; 13])
     = Ok (Some (lit "AC"), s') /\
     tx s' = lit "AB" ++ [BS; SP; BS] ++ lit "C" ++ [CR; LF]).
Proof.
  intros Ho Hrx Ha Hb. split; [|split].
  - rewrite (body_erase echo [] s arrival byte more Ho Hrx Ha Hb). simpl.
    eexists. split; [reflexivity|]. split; reflexivity.
  - intros buffer char.
    rewrite (body_erase echo (buffer ++ [char]) s arrival byte more Ho Hrx Ha Hb).
    cbv zeta. set (s1 := mk _ _ _ _ _ more _).
    assert (Htr : truthy (buffer ++ [char]) = true) by (destruct buffer; reflexivity).
    rewrite Htr, removelast_last.
    eexists. split; [reflexivity|]. destruct echo.
    + rewrite write_tx. destruct (write_frame [BS; SP; BS] s1) as (_ & E & _).
      rewrite E. unfold s1; simpl. unfold is_open in Ho. rewrite Ho.
      split; reflexivity.
    + unfold s1; simpl. rewrite app_nil_r. split; reflexivity.
  - eexists. split; vm_compute; reflexivity.
Qed.

Lemma read_line_erase_witness :
  exists s',
    read_line_body true [] (serial_with [127; 65]) = (Continue [], s') /\
    tx s' = [] /\ rx s' = [(0, 65)].
Proof.
  destruct (read_line_erase (serial_with [127; 65]) true 0 127 [(0, 65)])
    as (H & _).
  - reflexivity.
  - reflexivity.
  - unfold arrives_within. simpl. lia.
  - right. reflexivity.
  - exact H.
Defined.

(** C7. After a terminator one more byte is read with a 50 ms timeout. If a
    byte arrives in that window it is taken off the line whatever it is, a
    terminator of the other kind or any other byte, and it is not part of
    the line returned nor left for a later read; if none arrives nothing is
    taken.  So in A CR B C CR the B, when it follows the CR within the
    window, is in neither line. *)
Theorem read_line_terminator_peek (s : t) (echo : bool) (buffer : str)
  (arrival byte : Z) (more : list (Z * Z)) :
  is_open s = true -> rx s = (arrival, byte) :: more ->
  arrives_within 100 s arrival -> is_terminator byte ->
  (exists s',
     read_line_body echo buffer s = (Return (Some buffer), s') /\
     match more with
     | (arrival2, byte2) :: more2 =>
         if arrival2 <=? Z.max (clock s) arrival + 50
         then rx s' = more2
         else rx s' = more
     | [] => rx s' = []
     end)
  /\
  (exists s1 s2,
     read_line 60000 false (serial_with [65; 13; 66; 67; 13])
     = Ok (Some (lit "A"), s1) /\
     rx s1 = [(0, 67); (0, 13)] /\
     read_line 60000 false s1 = Ok (Some (lit "C"), s2)).
Proof.
  intros Ho Hrx Ha Hb. split.
  - rewrite (body_terminator echo buffer s arrival byte more Ho Hrx Ha Hb).
    cbv zeta. set (s1 := mk _ _ _ _ _ more _).
    eexists. split; [reflexivity|].
    assert (Hw : forall s2, rx (if echo then writeln [] s2 else s2) = rx s2).
    { intros s2. destruct echo; [|reflexivity].
      destruct (writeln_frame [] s2) as (_ & E & _). exact E. }
    rewrite Hw. unfold read_byte.
    assert (Ho1 : is_open s1 = true) by exact Ho. rewrite Ho1. simpl negb.
    cbv iota. unfold s1 at 1. simpl rx.
    destruct more as [|[a2 b2] more2]; [reflexivity|].
    replace (clock s1) with (Z.max (clock s) arrival) by reflexivity.
    destruct (a2 <=? Z.max (clock s) arrival + 50); reflexivity.
  - eexists. eexists. split; [vm_compute; reflexivity|].
    split; vm_compute; reflexivity.
Qed.

Lemma read_line_terminator_peek_witness :
  exists s',
    read_line_body false (lit "A") (serial_with [13; 66; 67]) 
    = (Return (Some (lit "A")), s') /\ rx s' = [(0, 67)].
Proof.
  destruct (read_line_terminator_peek (serial_with [13; 66; 67]) false (lit "A")
              0 13 [(0, 66); (0, 67)]) as ((s' & H1 & H2) & _).
  - reflexivity.
  - reflexivity.
  - unfold arrives_within. simpl. lia.
  - left. reflexivity.
  - exists s'. split; [exact H1|exact H2].
Defined.








End TransportClaims.

(** ** The display loops *)

Module DisplayFacts.
Import PyStrFacts.

Lemma pauses_app l1 l2 : pauses (l1 ++ l2) = pauses l1 + pauses l2.
Proof. unfold pauses. rewrite List.filter_app. apply len_app. Qed.

Lemma lines_emitted_app l1 l2 :
  lines_emitted (l1 ++ l2) = lines_emitted l1 + lines_emitted l2.
Proof.
  unfold lines_emitted. rewrite pauses_app, List.filter_app, len_app. lia.
Qed.

Lemma lines_emitted_write text : lines_emitted [Write text] = 0.
Proof. reflexivity. Qed.

Lemma pauses_write text : pauses [Write text] = 0.
Proof. reflexivity. Qed.

Lemma pauses_nonneg l : 0 <= pauses l.
Proof. apply len_nonneg. Qed.


(** After a counted line terminator and the pagination block the count is
    right again. *)
Lemma count_line enabled page_lines st pre o' lc' cll' :
  0 < page_lines ->
  paging_inv enabled page_lines st ->
  pauses pre = 0 -> lines_emitted pre = 1 ->
  paginate enabled page_lines (out st ++ pre) (line_count st + 1) = (o', lc') ->
  paging_inv enabled page_lines (mkFmt o' lc' cll').
Proof.
  intros HP Hinv Hp Hl. unfold paginate, paging_inv in *.
  destruct enabled; simpl.
  - destruct Hinv as [Hr He].
    destruct (page_lines <=? line_count st + 1) eqn:E; intros H; inversion H; subst.
    + apply Z.leb_le in E. unfold counted. simpl.
      rewrite !lines_emitted_app, !pauses_app, Hp, Hl.
      change (lines_emitted pause_calls) with 0.
      change (pauses pause_calls) with 1. lia.
    + apply Z.leb_gt in E. unfold counted. simpl.
      rewrite !lines_emitted_app, !pauses_app, Hp, Hl. lia.
  - intros H; inversion H; subst. simpl. rewrite pauses_app. lia.
Qed.

Lemma write_only enabled page_lines st text lc cll :
  lc = line_count st ->
  paging_inv enabled page_lines st ->
  paging_inv enabled page_lines (mkFmt (out st ++ [Write text]) lc cll).
Proof.
  intros -> H. unfold paging_inv, counted in *. destruct enabled; simpl.
  - rewrite lines_emitted_app, pauses_app.
    change (lines_emitted [Write text]) with 0.
    change (pauses [Write text]) with 0. lia.
  - rewrite pauses_app. change (pauses [Write text]) with 0. lia.
Qed.

Lemma cut_point_zero_col text :
  WRAP_COLS < len text -> 1 <= cut_point_of text WRAP_COLS <= WRAP_COLS.
Proof.
  intros H. unfold cut_point_of.
  pose proof (rfind_lt SP (slice_to text WRAP_COLS)) as Hr.
  rewrite slice_to_len in Hr by (unfold WRAP_COLS; lia).
  destruct (rfind SP (slice_to text WRAP_COLS) <=? 0) eqn:E.
  - unfold WRAP_COLS. lia.
  - apply Z.leb_gt in E. lia.
Qed.

(** The loop body on a non-empty text, with fuel left. *)
Lemma wrap_text_unfold mode f enabled page_lines c remaining st :
  wrap_text mode (S f) enabled page_lines (c :: remaining) st
  = if len (c :: remaining) <=? WRAP_COLS - current_line_len st
    then match mode with
         | AtNewline =>
             Ok (mkFmt (out st ++ [Write (c :: remaining)]) (line_count st)
                       (current_line_len st + len (c :: remaining)))
         | AtSpace =>
             Ok (mkFmt (out st ++ [Write ((c :: remaining) ++ [SP])])
                       (line_count st)
                       (current_line_len st + (len (c :: remaining) + 1)))
         | AtEnd =>
             Ok (mkFmt (out st ++ [Write (c :: remaining)]) (line_count st)
                       (current_line_len st))
         end
    else
      let cut_point :=
        cut_point_of (c :: remaining) (WRAP_COLS - current_line_len st) in
      let out1 :=
        out st ++ [Write (slice_to (c :: remaining) cut_point); Writeln []] in
      let remaining' := lstrip (slice_from (c :: remaining) cut_point) in
      let '(out2, line_count2) :=
        match mode with
        | AtEnd => (out1, line_count st)
        | _ => paginate enabled page_lines out1 (line_count st + 1)
        end in
      wrap_text mode f enabled page_lines remaining' (mkFmt out2 line_count2 0).
Proof. reflexivity. Qed.

Lemma wrap_text_fits mode f enabled page_lines c remaining st :
  len (c :: remaining) <= WRAP_COLS - current_line_len st ->
  wrap_text mode (S f) enabled page_lines (c :: remaining) st
  = match mode with
    | AtNewline =>
        Ok (mkFmt (out st ++ [Write (c :: remaining)]) (line_count st)
                  (current_line_len st + len (c :: remaining)))
    | AtSpace =>
        Ok (mkFmt (out st ++ [Write ((c :: remaining) ++ [SP])]) (line_count st)
                  (current_line_len st + (len (c :: remaining) + 1)))
    | AtEnd =>
        Ok (mkFmt (out st ++ [Write (c :: remaining)]) (line_count st)
                  (current_line_len st))
    end.
Proof.
  intros H. apply Z.leb_le in H. rewrite wrap_text_unfold, H. reflexivity.
Qed.

Lemma wrap_text_cuts mode f enabled page_lines c remaining st :
  WRAP_COLS - current_line_len st < len (c :: remaining) ->
  wrap_text mode (S f) enabled page_lines (c :: remaining) st
  = let cut_point :=
      cut_point_of (c :: remaining) (WRAP_COLS - current_line_len st) in
    let out1 :=
      out st ++ [Write (slice_to (c :: remaining) cut_point); Writeln []] in
    let remaining' := lstrip (slice_from (c :: remaining) cut_point) in
    let '(out2, line_count2) :=
      match mode with
      | AtEnd => (out1, line_count st)
      | _ => paginate enabled page_lines out1 (line_count st + 1)
      end in
    wrap_text mode f enabled page_lines remaining' (mkFmt out2 line_count2 0).
Proof.
  intros H. apply Z.leb_gt in H. rewrite wrap_text_unfold, H. reflexivity.
Qed.

(** One pass of a wrapping loop: either the text fits and the loop ends, or
    a cut is made, after which the line is empty; a cut made on an empty
    line shortens the text. *)
Lemma wrap_text_pass mode f enabled page_lines c remaining st :
  0 < page_lines ->
  (len (c :: remaining) <= WRAP_COLS - current_line_len st /\
   exists st',
     wrap_text mode (S f) enabled page_lines (c :: remaining) st = Ok st' /\
     wrap_rel mode enabled page_lines st st' /\
     lines_emitted (out st') = lines_emitted (out st) /\
     line_count st' = line_count st)
  \/
  (WRAP_COLS - current_line_len st < len (c :: remaining) /\
   exists remaining' st2,
     wrap_text mode (S f) enabled page_lines (c :: remaining) st
     = wrap_text mode f enabled page_lines remaining' st2 /\
     wrap_rel mode enabled page_lines st st2 /\
     current_line_len st2 = 0 /\
     (length remaining' <= length (c :: remaining))%nat /\
     (current_line_len st = 0 ->
      (length remaining' < length (c :: remaining))%nat)).
Proof.
  intros HP. set (text := c :: remaining).
  destruct (len text <=? WRAP_COLS - current_line_len st) eqn:E.
  - left. apply Z.leb_le in E. split; [exact E|].
    unfold text. rewrite (wrap_text_fits mode f enabled page_lines c remaining st E).
    destruct mode; (eexists; split; [reflexivity|]);
      simpl; rewrite ?lines_emitted_app, ?pauses_app.
    + split; [intros H; apply write_only; [reflexivity|exact H]|].
      rewrite lines_emitted_write. lia.
    + split; [intros H; apply write_only; [reflexivity|exact H]|].
      rewrite lines_emitted_write. lia.
    + rewrite lines_emitted_write, pauses_write. lia.
  - right. apply Z.leb_gt in E. split; [exact E|].
    unfold text at 1.
    rewrite (wrap_text_cuts mode f enabled page_lines c remaining st E).
    cbv zeta. fold text.
    set (cut_point := cut_point_of text (WRAP_COLS - current_line_len st)).
    set (pre := [Write (slice_to text cut_point); Writeln []]).
    set (remaining' := lstrip (slice_from text cut_point)).
    assert (Hlen : (length remaining' <= length text)%nat).
    { unfold remaining'. pose proof (lstrip_len (slice_from text cut_point)).
      pose proof (slice_from_len_le text cut_point). lia. }
    assert (Hlt : current_line_len st = 0 -> (length remaining' < length text)%nat).
    { intros H0. unfold remaining'.
      pose proof (lstrip_len (slice_from text cut_point)) as H1.
      rewrite H0, Z.sub_0_r in E.
      pose proof (cut_point_zero_col text E) as Hc.
      assert (Hcp : cut_point = cut_point_of text WRAP_COLS)
        by (unfold cut_point; rewrite H0, Z.sub_0_r; reflexivity).
      rewrite <- Hcp in Hc.
      pose proof (slice_from_len text cut_point ltac:(lia)) as H2.
      unfold len in H2, E. lia. }
    destruct mode.
    + destruct (paginate enabled page_lines (out st ++ pre) (line_count st + 1))
        as [o2 lc2] eqn:Hpg.
      exists remaining', (mkFmt o2 lc2 0). split; [reflexivity|].
      split; [|split; [reflexivity|split; assumption]].
      intros Hinv.
      apply (count_line enabled page_lines st pre o2 lc2 0 HP Hinv eq_refl eq_refl Hpg).
    + destruct (paginate enabled page_lines (out st ++ pre) (line_count st + 1))
        as [o2 lc2] eqn:Hpg.
      exists remaining', (mkFmt o2 lc2 0). split; [reflexivity|].
      split; [|split; [reflexivity|split; assumption]].
      intros Hinv.
      apply (count_line enabled page_lines st pre o2 lc2 0 HP Hinv eq_refl eq_refl Hpg).
    + exists remaining', (mkFmt (out st ++ pre) (line_count st) 0).
      split; [reflexivity|].
      split; [|split; [reflexivity|split; assumption]].
      simpl. rewrite lines_emitted_app, pauses_app.
      change (pauses pre) with 0. change (lines_emitted pre) with 1. lia.
Qed.


Lemma wrap_rel_refl mode enabled page_lines st :
  wrap_rel mode enabled page_lines st st.
Proof. destruct mode; simpl; try tauto. lia. Qed.

Lemma wrap_rel_trans mode enabled page_lines st1 st2 st3 :
  wrap_rel mode enabled page_lines st1 st2 ->
  wrap_rel mode enabled page_lines st2 st3 ->
  wrap_rel mode enabled page_lines st1 st3.
Proof. destruct mode; simpl; try tauto. lia. Qed.

(** On an empty line every pass shortens the text: fuel above its length is
    enough. *)
Lemma wrap_text_total_from_col0 mode enabled page_lines fuel :
  0 < page_lines ->
  forall remaining st,
    current_line_len st = 0 -> (length remaining < fuel)%nat ->
    exists st',
      wrap_text mode fuel enabled page_lines remaining st = Ok st' /\
      wrap_rel mode enabled page_lines st st'.
Proof.
  intros HP. induction fuel as [|f IH]; intros remaining st H0 Hf; [lia|].
  destruct remaining as [|c remaining].
  - exists st. split; [reflexivity|apply wrap_rel_refl].
  - destruct (wrap_text_pass mode f enabled page_lines c remaining st HP)
      as [(_ & st' & Heq & Hrel & _) | (_ & r' & st2 & Heq & Hrel & H2 & _ & Hlt)].
    + exists st'. split; assumption.
    + specialize (Hlt H0). destruct (IH r' st2 H2) as (st' & Heq' & Hrel'); [lia|].
      exists st'. rewrite Heq. split; [exact Heq'|].
      eapply wrap_rel_trans; eassumption.
Qed.

(** From any column the first pass does not lengthen the text and leaves
    an empty line: [wrap_text_fuel] is enough. *)
Lemma wrap_text_total mode enabled page_lines remaining st :
  0 < page_lines ->
  exists st',
    wrap_text mode (wrap_text_fuel remaining) enabled page_lines remaining st
    = Ok st' /\
    wrap_rel mode enabled page_lines st st' /\
    (len remaining <= WRAP_COLS - current_line_len st ->
     lines_emitted (out st') = lines_emitted (out st)).
Proof.
  intros HP. unfold wrap_text_fuel. destruct remaining as [|c remaining].
  - exists st. split; [reflexivity|]. split; [apply wrap_rel_refl|reflexivity].
  - destruct (wrap_text_pass mode (S (length (c :: remaining))) enabled
                page_lines c remaining st HP)
      as [(_ & st' & Heq & Hrel & Hl & _) | (Hgt & r' & st2 & Heq & Hrel & H2 & Hle & _)].
    + exists st'. split; [exact Heq|split; [exact Hrel|intros _; exact Hl]].
    + destruct (wrap_text_total_from_col0 mode enabled page_lines
                  (S (length (c :: remaining))) HP r' st2 H2)
        as (st' & Heq' & Hrel'); [lia|].
      exists st'. rewrite Heq. split; [exact Heq'|].
      split; [eapply wrap_rel_trans; eassumption|]. intros Hfit. lia.
Qed.

Lemma process_buffer_newline f enabled page_lines c buffer st :
  contains LF (c :: buffer) = true ->
  process_buffer (S f) enabled page_lines (c :: buffer) st
  = let idx := find LF (c :: buffer) in
    let segment := slice_to (c :: buffer) idx in
    let buffer' := slice_from (c :: buffer) (idx + 1) in
    let* st1 :=
      if current_line_len st + len segment <=? WRAP_COLS then
        Ok (mkFmt (out st ++ [Write segment]) (line_count st)
                  (current_line_len st + len segment))
      else
        wrap_text AtNewline (wrap_text_fuel segment) enabled page_lines
                  segment st in
    let '(out2, line_count2) :=
      paginate enabled page_lines (out st1 ++ [Writeln []])
               (line_count st1 + 1) in
    process_buffer f enabled page_lines buffer' (mkFmt out2 line_count2 0).
Proof. intros H. cbn [process_buffer]. rewrite H. reflexivity. Qed.

Lemma process_buffer_space f enabled page_lines c buffer st :
  contains LF (c :: buffer) = false ->
  contains SP (c :: buffer) && (10 <? len (c :: buffer)) = true ->
  process_buffer (S f) enabled page_lines (c :: buffer) st
  = let idx := rfind SP (c :: buffer) in
    let segment := slice_to (c :: buffer) idx in
    let buffer' := slice_from (c :: buffer) (idx + 1) in
    let* st1 :=
      wrap_text AtSpace (wrap_text_fuel segment) enabled page_lines
                segment st in
    process_buffer f enabled page_lines buffer' st1.
Proof. intros H1 H2. cbn [process_buffer]. rewrite H1, H2. reflexivity. Qed.

Lemma process_buffer_wait f enabled page_lines c buffer st :
  contains LF (c :: buffer) = false ->
  contains SP (c :: buffer) && (10 <? len (c :: buffer)) = false ->
  process_buffer (S f) enabled page_lines (c :: buffer) st
  = Ok (c :: buffer, st).
Proof. intros H1 H2. cbn [process_buffer]. rewrite H1, H2. reflexivity. Qed.

(** The buffer loop returns, with the count still right. *)
Lemma process_buffer_total enabled page_lines fuel :
  0 < page_lines ->
  forall buffer st,
    (length buffer < fuel)%nat -> paging_inv enabled page_lines st ->
    exists buffer' st',
      process_buffer fuel enabled page_lines buffer st = Ok (buffer', st') /\
      paging_inv enabled page_lines st'.
Proof.
  intros HP. induction fuel as [|f IH]; intros buffer st Hf Hinv; [lia|].
  destruct buffer as [|c buffer].
  - exists [], st. split; [reflexivity|exact Hinv].
  - set (text := c :: buffer) in *.
    destruct (contains LF text) eqn:Hnl.
    + unfold text. rewrite process_buffer_newline by exact Hnl. fold text.
      cbv zeta. pose proof (find_contains LF text Hnl) as Hidx.
      set (idx := find LF text) in *.
      assert (Hshort : (length (slice_from text (idx + 1)) < f)%nat).
      { pose proof (slice_from_len text (idx + 1) ltac:(lia)) as H.
        unfold len in H, Hidx. lia. }
      assert (Hst1 : exists st1,
                 (if current_line_len st + len (slice_to text idx) <=? WRAP_COLS
                  then Ok (mkFmt (out st ++ [Write (slice_to text idx)])
                                 (line_count st)
                                 (current_line_len st + len (slice_to text idx)))
                  else wrap_text AtNewline (wrap_text_fuel (slice_to text idx))
                                 enabled page_lines (slice_to text idx) st)
                 = Ok st1 /\ paging_inv enabled page_lines st1).
      { destruct (_ <=? WRAP_COLS).
        - eexists. split; [reflexivity|]. apply write_only; [reflexivity|exact Hinv].
        - destruct (wrap_text_total AtNewline enabled page_lines
                      (slice_to text idx) st HP) as (st1 & Heq & Hrel & _).
          exists st1. split; [exact Heq|]. apply Hrel, Hinv. }
      destruct Hst1 as (st1 & -> & Hinv1). simpl bind.
      destruct (paginate enabled page_lines (out st1 ++ [Writeln []])
                         (line_count st1 + 1)) as [o2 lc2] eqn:Hpg.
      apply IH; [lia|].
      apply (count_line enabled page_lines st1 [Writeln []] o2 lc2 0 HP Hinv1
               eq_refl eq_refl Hpg).
    + destruct (contains SP text && (10 <? len text)) eqn:Hsp.
      * unfold text. rewrite process_buffer_space by assumption. fold text.
        cbv zeta. apply andb_true_iff in Hsp as [Hsp _].
        pose proof (rfind_contains SP text Hsp) as Hidx.
        set (idx := rfind SP text) in *.
        assert (Hshort : (length (slice_from text (idx + 1)) < f)%nat).
        { pose proof (slice_from_len text (idx + 1) ltac:(lia)) as H.
          unfold len in H, Hidx. lia. }
        destruct (wrap_text_total AtSpace enabled page_lines
                    (slice_to text idx) st HP) as (st1 & Heq & Hrel & _).
        rewrite Heq. simpl bind. apply IH; [lia|]. apply Hrel, Hinv.
      * unfold text. rewrite process_buffer_wait by assumption.
        exists (c :: buffer), st. split; [reflexivity|exact Hinv].
Qed.

(** The chunk loop returns; the text it hands back is the concatenation of
    the chunks. *)
Lemma stream_chunks_total enabled page_lines chunks :
  0 < page_lines ->
  forall full_text buffer st,
    paging_inv enabled page_lines st ->
    exists buffer' st',
      stream_chunks enabled page_lines chunks full_text buffer st
      = Ok (full_text ++ concat chunks, buffer', st') /\
      paging_inv enabled page_lines st'.
Proof.
  intros HP. induction chunks as [|chunk chunks IH]; intros full_text buffer st Hinv.
  - exists buffer, st. simpl. rewrite app_nil_r. split; [reflexivity|exact Hinv].
  - cbn [stream_chunks].
    destruct (process_buffer_total enabled page_lines
                (S (length (buffer ++ chunk))) HP (buffer ++ chunk) st
                ltac:(lia) Hinv) as (b2 & st1 & Heq & Hinv1).
    rewrite Heq. simpl bind.
    destruct (IH (full_text ++ chunk) b2 st1 Hinv1) as (b3 & st2 & Heq2 & Hinv2).
    exists b3, st2. rewrite Heq2. simpl concat. rewrite app_assoc.
    split; [reflexivity|exact Hinv2].
Qed.

(** What the buffer loop leaves holds no line feed and is the end of what
    it was given. *)
Lemma process_buffer_residue enabled page_lines fuel :
  forall buffer st buffer' st',
    process_buffer fuel enabled page_lines buffer st = Ok (buffer', st') ->
    contains LF buffer' = false /\ buffer' `suffix_of` buffer.
Proof.
  induction fuel as [|f IH]; intros buffer st buffer' st' H.
  - destruct buffer; [|discriminate]. inversion H; subst. split; reflexivity.
  - destruct buffer as [|c buffer].
    { inversion H; subst. split; reflexivity. }
    set (text := c :: buffer) in *.
    assert (Hdrop : forall idx, slice_from text idx `suffix_of` text).
    { intros idx. unfold slice_from. destruct (idx <? 0); apply suffix_drop. }
    destruct (contains LF text) eqn:Hnl.
    + unfold text in H. rewrite process_buffer_newline in H by exact Hnl.
      fold text in H. cbv zeta in H.
      destruct (if current_line_len st + len (slice_to text (find LF text))
                   <=? WRAP_COLS then _ else _) as [st1| |]; try discriminate.
      simpl bind in H.
      destruct (paginate enabled page_lines (out st1 ++ [Writeln []])
                         (line_count st1 + 1)) as [o2 lc2].
      destruct (IH _ _ _ _ H) as [H1 H2]. split; [exact H1|].
      etransitivity; [exact H2|apply Hdrop].
    + destruct (contains SP text && (10 <? len text)) eqn:Hsp.
      * unfold text in H. rewrite process_buffer_space in H by assumption.
        fold text in H. cbv zeta in H.
        destruct (wrap_text AtSpace _ enabled page_lines _ st) as [st1| |];
          try discriminate.
        simpl bind in H.
        destruct (IH _ _ _ _ H) as [H1 H2]. split; [exact H1|].
        etransitivity; [exact H2|apply Hdrop].
      * unfold text in H. rewrite process_buffer_wait in H by assumption.
        inversion H; subst. split; [exact Hnl|reflexivity].
Qed.

Lemma stream_chunks_residue enabled page_lines chunks :
  forall full_text buffer st full_text' buffer' st',
    stream_chunks enabled page_lines chunks full_text buffer st
    = Ok (full_text', buffer', st') ->
    contains LF buffer = false -> buffer `suffix_of` full_text ->
    contains LF buffer' = false /\ buffer' `suffix_of` full_text'.
Proof.
  induction chunks as [|chunk chunks IH];
    intros full_text buffer st full_text' buffer' st' H Hnl Hsuf.
  - inversion H; subst. split; assumption.
  - cbn [stream_chunks] in H.
    destruct (process_buffer (S (length (buffer ++ chunk))) enabled page_lines
                (buffer ++ chunk) st) as [[b2 st1]| |] eqn:Hpb; try discriminate.
    simpl bind in H.
    destruct (process_buffer_residue _ _ _ _ _ _ _ Hpb) as [H1 H2].
    apply (IH _ _ _ _ _ _ H H1).
    etransitivity; [exact H2|apply suffix_app, Hsuf].
Qed.

(** After a text that ends with a line feed nothing is left to flush. *)
Lemma no_residue_after_newline (text buffer : str) :
  contains LF buffer = false -> buffer `suffix_of` text ++ [LF] -> buffer = [].
Proof.
  intros Hnl [k Hk]. destruct buffer as [|c b0]; [reflexivity|]. exfalso.
  destruct (exists_last (l := c :: b0)) as (b & x & E); [discriminate|].
  rewrite E in *. rewrite app_assoc in Hk. apply app_inj_tail in Hk as [_ <-].
  change (b ++ [LF]) with (b ++ LF :: []) in Hnl.
  rewrite contains_first in Hnl. discriminate.
Qed.

End DisplayFacts.

(** ** [textwrap] and [wrap_40] *)

Module TextWrapFacts.
Import TextWrap PyStrFacts.

Lemma total_len_app l1 l2 : total_len (l1 ++ l2) = total_len l1 + total_len l2.
Proof. induction l1 as [|c l1 IH]; simpl; [reflexivity|]. rewrite IH. lia. Qed.

Lemma total_len_nonneg l : 0 <= total_len l.
Proof. induction l as [|c l IH]; simpl; [lia|]. pose proof (len_nonneg c). lia. Qed.

Lemma len_concat (l : list str) : len (concat l) = total_len l.
Proof.
  induction l as [|c l IH]; simpl; [reflexivity|]. rewrite len_app, IH. reflexivity.
Qed.

Lemma wrap_fuel_app l1 l2 : wrap_fuel (l1 ++ l2) = (wrap_fuel l1 + wrap_fuel l2)%nat.
Proof. induction l1 as [|c l1 IH]; simpl; [reflexivity|]. rewrite IH. lia. Qed.

(** [fill_line] moves a prefix of the stack onto the line, stops at the
    first chunk that does not fit, and keeps the line within the width. *)
Lemma fill_line_spec width : forall chunks cur_line cur_len cur_line' cur_len' chunks2,
  fill_line width cur_line cur_len chunks = (cur_line', cur_len', chunks2) ->
  exists taken,
    chunks = taken ++ chunks2 /\ cur_line' = cur_line ++ taken /\
    cur_len' = cur_len + total_len taken /\
    (cur_len <= width -> cur_len' <= width) /\
    match chunks2 with
    | top :: _ => width < cur_len' + len top
    | [] => True
    end.
Proof.
  induction chunks as [|c chunks IH]; intros cur_line cur_len cur_line' cur_len' chunks2 H.
  - simpl in H. inversion H; subst. exists []. simpl.
    rewrite app_nil_r. repeat split; lia.
  - simpl in H. destruct (cur_len + len c <=? width) eqn:E.
    + apply Z.leb_le in E.
      destruct (IH _ _ _ _ _ H) as (taken & H1 & H2 & H3 & H4 & H5).
      exists (c :: taken). simpl. subst chunks cur_line'. rewrite <- app_assoc.
      simpl. repeat split; try lia. destruct chunks2; [exact I|lia].
    + apply Z.leb_gt in E. inversion H; subst. exists []. simpl.
      rewrite app_nil_r. repeat split; lia.
Qed.

Lemma handle_long_word_spec top below cur_line cur_len width :
  1 <= width -> 0 <= cur_len <= width -> width < len top ->
  exists end_,
    _handle_long_word (top :: below) cur_line cur_len width
    = (slice_from top end_ :: below, cur_line ++ [slice_to top end_]) /\
    0 <= end_ <= width - cur_len /\ (cur_len = 0 -> 1 <= end_) /\
    (rfind HYPHEN (slice_to top (width - cur_len)) <= 0 -> end_ = width - cur_len).
Proof.
  intros Hw Hc Hl. unfold _handle_long_word.
  assert (E : (width <? 1) = false) by (apply Z.ltb_ge; lia). rewrite E.
  set (space_left := width - cur_len).
  set (hyphen := rfind HYPHEN (slice_to top space_left)).
  pose proof (rfind_lt HYPHEN (slice_to top space_left)) as Hr. fold hyphen in Hr.
  rewrite slice_to_len in Hr by (unfold space_left; lia).
  destruct ((space_left <? len top) && (0 <? hyphen) &&
            existsb (fun c => negb (Ascii.eqb c HYPHEN)) (slice_to top hyphen)) eqn:Ec.
  - exists (hyphen + 1). split; [reflexivity|].
    apply andb_true_iff in Ec as [Ec _]. apply andb_true_iff in Ec as [_ Ec].
    apply Z.ltb_lt in Ec. unfold space_left in *. repeat split; lia.
  - exists space_left. split; [reflexivity|]. unfold space_left. repeat split; lia.
Qed.

Lemma wrap_fuel_cons c l : wrap_fuel (c :: l) = (S (length c) + wrap_fuel l)%nat.
Proof. reflexivity. Qed.

Lemma drop_trailing_ws_len cur_line :
  total_len (drop_trailing_ws cur_line) <= total_len cur_line.
Proof.
  unfold drop_trailing_ws.
  destruct cur_line as [|c l] using rev_ind; [simpl; lia|].
  rewrite last_snoc. destruct (truthy (strip c)); [lia|].
  rewrite removelast_last, total_len_app. simpl. pose proof (len_nonneg c). lia.
Qed.

(** One pass of the outer loop uses up part of the stack and adds at most
    one line, which fits the width. *)
Lemma wrap_step_spec width lines chunks lines' chunks' :
  1 <= width -> chunks <> [] ->
  wrap_step width lines chunks = (lines', chunks') ->
  (wrap_fuel chunks' < wrap_fuel chunks)%nat /\
  exists added, lines' = lines ++ added /\ Forall (fun l => len l <= width) added.
Proof.
  intros Hw Hne. unfold wrap_step.
  set (chunks1 := match chunks with
                  | top :: below =>
                      if negb (truthy (strip top)) && truthy lines then below else chunks
                  | [] => chunks end).
  assert (H1 : (wrap_fuel chunks1 <= wrap_fuel chunks)%nat /\
               (chunks1 = [] -> (0 < wrap_fuel chunks)%nat)).
  { unfold chunks1. destruct chunks as [|top below]; [congruence|].
    destruct (negb (truthy (strip top)) && truthy lines); simpl; split; lia. }
  destruct H1 as [H1 H1'].
  destruct (fill_line width [] 0 chunks1) as [[cur_line cur_len] chunks2] eqn:Hf.
  destruct (fill_line_spec width _ _ _ _ _ _ Hf) as (taken & E1 & E2 & E3 & E4 & E5).
  simpl in E2. rewrite Z.add_0_l in E3. subst cur_line cur_len. specialize (E4 ltac:(lia)).
  pose proof (total_len_nonneg taken) as Hnn.
  assert (Hmu : (wrap_fuel chunks1 = wrap_fuel taken + wrap_fuel chunks2)%nat)
    by (rewrite E1; apply wrap_fuel_app).
  assert (Hfinish : forall cur_line1 chunks3,
             total_len cur_line1 <= width ->
             (wrap_fuel chunks3 < wrap_fuel chunks)%nat ->
             (let cur_line2 := drop_trailing_ws cur_line1 in
              let lines' := if truthy cur_line2 then lines ++ [concat cur_line2] else lines in
              (lines', chunks3)) = (lines', chunks') ->
             (wrap_fuel chunks' < wrap_fuel chunks)%nat /\
             exists added, lines' = lines ++ added /\ Forall (fun l => len l <= width) added).
  { intros cur_line1 chunks3 Hlen Hdec H. cbv zeta in H. inversion H; subst.
    split; [exact Hdec|].
    destruct (truthy (drop_trailing_ws cur_line1)).
    - eexists. split; [reflexivity|]. constructor; [|constructor].
      rewrite len_concat. pose proof (drop_trailing_ws_len cur_line1). lia.
    - exists []. rewrite app_nil_r. split; [reflexivity|constructor]. }
  destruct chunks2 as [|top below].
  - apply Hfinish; [lia|].
    destruct taken; simpl in *; [apply H1' in E1; lia|lia].
  - destruct (width <? len top) eqn:El.
    + apply Z.ltb_lt in El.
      destruct (handle_long_word_spec top below taken (total_len taken) width Hw
                  ltac:(lia) El) as (end_ & Heq & Hend & Hend1 & _).
      rewrite Heq. apply Hfinish.
      * rewrite total_len_app. simpl.
        rewrite slice_to_len by lia. lia.
      * rewrite wrap_fuel_cons in *.
        pose proof (slice_from_len top end_ ltac:(lia)) as Hsl. unfold len in Hsl, El.
        destruct taken as [|t0 taken].
        -- simpl in *. specialize (Hend1 eq_refl). lia.
        -- simpl in Hmu. lia.
    + apply Z.ltb_ge in El. apply Hfinish; [lia|].
      destruct taken as [|t0 taken]; [simpl in *; lia|].
      rewrite wrap_fuel_cons. simpl in Hmu. lia.
Qed.

(** [_wrap_chunks] returns, and no line it returns is wider than [width]. *)
Lemma wrap_loop_total width fuel :
  1 <= width ->
  forall lines chunks,
    (wrap_fuel chunks <= fuel)%nat ->
    Forall (fun l => len l <= width) lines ->
    exists lines',
      wrap_loop fuel width lines chunks = Ok lines' /\
      Forall (fun l => len l <= width) lines'.
Proof.
  intros Hw. induction fuel as [|f IH]; intros lines chunks Hf Hl.
  - destruct chunks; [eauto|]. simpl in Hf. lia.
  - destruct chunks as [|c chunks]; [simpl; eauto|].
    cbn [wrap_loop].
    destruct (wrap_step width lines (c :: chunks)) as [lines1 chunks1] eqn:Hs.
    destruct (wrap_step_spec width lines (c :: chunks) lines1 chunks1 Hw
                ltac:(discriminate) Hs) as (Hdec & added & -> & Hadd).
    apply IH; [lia|]. apply Forall_app. split; assumption.
Qed.

Lemma wrap_total text width :
  1 <= width ->
  exists lines,
    wrap text width = Ok lines /\ Forall (fun l => len l <= width) lines.
Proof.
  intros Hw. unfold wrap, _wrap_chunks.
  assert (E : (width <=? 0) = false) by (apply Z.leb_gt; lia). rewrite E.
  apply wrap_loop_total; [exact Hw|lia|constructor].
Qed.

(** [wrap_40] returns, and every line fits the width. *)
Lemma wrap_paragraphs_total paragraphs width :
  1 <= width ->
  exists lines,
    wrap_paragraphs paragraphs width = Ok lines /\
    Forall (fun l => len l <= width) lines.
Proof.
  intros Hw. induction paragraphs as [|p ps (lines & Heq & Hl)].
  - exists []. split; [reflexivity|constructor].
  - cbn [wrap_paragraphs]. destruct (negb (truthy (strip p))).
    + rewrite Heq. simpl. eexists. split; [reflexivity|].
      constructor; [unfold len; simpl; lia|exact Hl].
    + destruct (wrap_total p width Hw) as (wrapped & Hwr & Hwl).
      rewrite Hwr, Heq. simpl. eexists. split; [reflexivity|].
      apply Forall_app. split; [|exact Hl].
      destruct (truthy wrapped); [exact Hwl|].
      constructor; [unfold len; simpl; lia|constructor].
Qed.

Lemma wrap_40_total text width :
  1 <= width ->
  exists lines,
    wrap_40 text width = Ok lines /\ Forall (fun l => len l <= width) lines.
Proof. intros Hw. apply wrap_paragraphs_total, Hw. Qed.

End TextWrapFacts.

Module WholeChunks.
Import TextWrap PyStrFacts TextWrapFacts.

Lemma drop_trailing_ws_cases cur_line :
  drop_trailing_ws cur_line = cur_line \/
  exists x, cur_line = drop_trailing_ws cur_line ++ [x] /\ nonblank x = false.
Proof.
  unfold drop_trailing_ws.
  destruct cur_line as [|c l] using rev_ind; [left; reflexivity|].
  rewrite last_snoc. unfold nonblank. destruct (truthy (strip c)) eqn:E.
  - left; reflexivity.
  - right. exists c. rewrite removelast_last. split; [reflexivity|exact E].
Qed.

Lemma drop_trailing_ws_sublist cur_line :
  sublist (drop_trailing_ws cur_line) cur_line /\
  List.filter nonblank (drop_trailing_ws cur_line) = List.filter nonblank cur_line.
Proof.
  destruct (drop_trailing_ws_cases cur_line) as [-> | (x & E & Hx)].
  - split; reflexivity.
  - rewrite E at 2 4. split.
    + apply sublist_inserts_r. reflexivity.
    + rewrite List.filter_app. simpl. rewrite Hx, app_nil_r. reflexivity.
Qed.

(** When no chunk is longer than the width, a pass moves whole chunks to at
    most one new line. *)
Lemma wrap_step_whole width lines chunks lines' chunks' :
  Forall (fun c => len c <= width) chunks ->
  wrap_step width lines chunks = (lines', chunks') ->
  exists consumed group,
    chunks = consumed ++ chunks' /\
    lines' = lines ++ (if truthy group then [concat group] else []) /\
    sublist group consumed /\
    List.filter nonblank group = List.filter nonblank consumed.
Proof.
  intros Hall. unfold wrap_step.
  set (chunks1 := match chunks with
                  | top :: below =>
                      if negb (truthy (strip top)) && truthy lines then below else chunks
                  | [] => chunks end).
  assert (H1 : exists skipped, chunks = skipped ++ chunks1 /\
                 List.filter nonblank skipped = []).
  { unfold chunks1. destruct chunks as [|top below]; [exists []; split; reflexivity|].
    destruct (negb (truthy (strip top)) && truthy lines) eqn:E.
    - exists [top]. split; [reflexivity|]. simpl. unfold nonblank.
      apply andb_true_iff in E as [E _]. apply negb_true_iff in E. rewrite E.
      reflexivity.
    - exists []. split; reflexivity. }
  destruct H1 as (skipped & Hsk & Hblank). clearbody chunks1.
  destruct (fill_line width [] 0 chunks1) as [[cur_line cur_len] chunks2] eqn:Hf.
  destruct (fill_line_spec width _ _ _ _ _ _ Hf) as (taken & E1 & E2 & _).
  simpl in E2. subst cur_line.
  assert (Hnolong : (let '(chunks3, cur_line1) :=
                       match chunks2 with
                       | top :: _ =>
                           if width <? len top
                           then _handle_long_word chunks2 taken cur_len width
                           else (chunks2, taken)
                       | [] => (chunks2, taken)
                       end in
                     (chunks3, cur_line1)) = (chunks2, taken)).
  { destruct chunks2 as [|top below]; [reflexivity|].
    assert (Htop : len top <= width).
    { rewrite Hsk, E1 in Hall. apply Forall_app in Hall as [_ Hall].
      apply Forall_app in Hall as [_ Hall]. apply Forall_cons in Hall as [H _].
      exact H. }
    apply Z.ltb_ge in Htop. rewrite Htop. reflexivity. }
  destruct (match chunks2 with
            | top :: _ =>
                if width <? len top
                then _handle_long_word chunks2 taken cur_len width
                else (chunks2, taken)
            | [] => (chunks2, taken)
            end) as [chunks3 cur_line1].
  inversion Hnolong; subst chunks3 cur_line1. intros H. inversion H; subst.
  exists (skipped ++ taken), (drop_trailing_ws taken).
  destruct (drop_trailing_ws_sublist taken) as [Hs Hfl].
  split; [rewrite <- app_assoc; congruence|].
  split; [destruct (truthy _); [reflexivity|symmetry; apply app_nil_r]|]. split.
  - apply sublist_inserts_l. exact Hs.
  - rewrite List.filter_app, Hblank, Hfl. reflexivity.
Qed.

Lemma wrap_loop_whole width fuel : forall lines chunks lines',
  Forall (fun c => len c <= width) chunks ->
  wrap_loop fuel width lines chunks = Ok lines' ->
  exists groups,
    lines' = lines ++ map (@concat ascii) groups /\
    sublist (concat groups) chunks /\
    List.filter nonblank (concat groups) = List.filter nonblank chunks.
Proof.
  induction fuel as [|f IH]; intros lines chunks lines' Hall H.
  - destruct chunks; [|discriminate]. inversion H; subst. exists [].
    simpl. rewrite app_nil_r. repeat split; constructor.
  - destruct chunks as [|c chunks].
    + inversion H; subst. exists []. simpl. rewrite app_nil_r.
      repeat split; constructor.
    + cbn [wrap_loop] in H.
      destruct (wrap_step width lines (c :: chunks)) as [lines1 chunks1] eqn:Hs.
      destruct (wrap_step_whole width lines (c :: chunks) lines1 chunks1 Hall Hs)
        as (consumed & group & Hc & Hl & Hsub & Hfl).
      rewrite Hc in Hall. apply Forall_app in Hall as [_ Hall1].
      destruct (IH lines1 chunks1 lines' Hall1 H) as (groups & Hl' & Hsub' & Hfl').
      rewrite Hc. destruct (truthy group) eqn:Eg.
      * exists (group :: groups). simpl. subst lines1.
        rewrite <- app_assoc in Hl'. split; [exact Hl'|]. split.
        -- apply sublist_app; assumption.
        -- rewrite !List.filter_app. congruence.
      * destruct group; [|discriminate]. exists groups. subst lines1.
        rewrite app_nil_r in Hl'. split; [exact Hl'|]. split.
        -- apply sublist_inserts_l. exact Hsub'.
        -- rewrite List.filter_app, <- Hfl. simpl. exact Hfl'.
Qed.

(** Whatever a predicate on characters, the pieces cut by the splitter
    inherit it from the text. *)
Lemma split_loop_chars (P : ascii -> Prop) fuel : forall prev rest,
  Forall P rest -> Forall (Forall P) (split_loop fuel prev rest).
Proof.
  induction fuel as [|f IH]; intros prev rest H; simpl; [constructor|].
  destruct rest as [|c rest]; [constructor|].
  constructor.
  - apply Forall_take, H.
  - apply IH. apply Forall_drop, H.
Qed.

Lemma filter_Forall {A} (P : A -> Prop) f (l : list A) :
  Forall P l -> Forall P (List.filter f l).
Proof.
  induction l as [|x l IH]; intros H; simpl; [constructor|].
  apply Forall_cons in H as [Hx H]. destruct (f x); [constructor|]; auto.
Qed.

Lemma lstrip_all_space s : Forall (fun c => isspace c = true) s -> lstrip s = [].
Proof.
  induction s as [|c s IH]; intros H; simpl; [reflexivity|].
  apply Forall_cons in H as [Hc H]. rewrite Hc. apply IH, H.
Qed.

Lemma lstrip_nil_all_space s : lstrip s = [] -> Forall (fun c => isspace c = true) s.
Proof.
  induction s as [|c s IH]; intros H; [constructor|]. simpl in H.
  destruct (isspace c) eqn:E; [|discriminate]. constructor; auto.
Qed.

Lemma strip_nil_iff s : strip s = [] <-> Forall (fun c => isspace c = true) s.
Proof.
  unfold strip, rstrip. split.
  - intros H. apply lstrip_nil_all_space.
    destruct (lstrip s) as [|c l] eqn:E; [reflexivity|].
    exfalso. assert (Hr : lstrip (rev (c :: l)) = []).
    { destruct (lstrip (rev (c :: l))) eqn:E2; [reflexivity|].
      apply (f_equal (@length ascii)) in H. rewrite length_rev in H. discriminate. }
    apply lstrip_nil_all_space in Hr. apply Forall_rev in Hr.
    rewrite rev_involutive in Hr. apply Forall_cons in Hr as [Hc _].
    assert (Hl : lstrip (c :: l) = c :: l).
    { clear - E. induction s as [|x s IH]; [discriminate|]. simpl in E.
      destruct (isspace x) eqn:Ex; [auto|]. inversion E; subst. simpl.
      rewrite Ex. reflexivity. }
    simpl in Hl. rewrite Hc in Hl.
    pose proof (lstrip_len l) as Hlen. rewrite Hl in Hlen. simpl in Hlen. lia.
  - intros H. rewrite (lstrip_all_space s H). reflexivity.
Qed.

Lemma expandtabs_all_space tabsize s : forall col,
  Forall (fun c => isspace c = true) s ->
  Forall (fun c => isspace c = true) (expandtabs_from tabsize col s).
Proof.
  induction s as [|c s IH]; intros col H; simpl; [constructor|].
  apply Forall_cons in H as [Hc H].
  destruct (Ascii.eqb c TAB).
  - destruct (0 <? tabsize); [|apply IH, H].
    apply Forall_app. split; [|apply IH, H].
    apply Forall_forall. intros x Hx. apply list_elem_of_In, repeat_spec in Hx.
    subst. reflexivity.
  - destruct (Ascii.eqb c LF || Ascii.eqb c CR); constructor; auto.
Qed.

Lemma munge_all_space s :
  Forall (fun c => isspace c = true) s ->
  Forall (fun c => isspace c = true) (_munge_whitespace s).
Proof.
  intros H. unfold _munge_whitespace, expandtabs. apply Forall_map.
  eapply Forall_impl; [apply expandtabs_all_space, H|].
  intros c Hc. simpl. destruct (is_ws c); [reflexivity|exact Hc].
Qed.

(** The chunks of a blank paragraph are all blank. *)
Lemma blank_paragraph_chunks p :
  truthy (strip p) = false -> List.filter nonblank (_split_chunks p) = [].
Proof.
  intros H. assert (Hs : strip p = []) by (destruct (strip p); [reflexivity|discriminate]).
  apply strip_nil_iff in Hs. apply munge_all_space in Hs.
  unfold _split_chunks, _split.
  pose proof (split_loop_chars (fun c => isspace c = true)
                (length (_munge_whitespace p)) [] _ Hs) as Hall.
  apply (filter_Forall _ truthy) in Hall.
  induction Hall as [|c l Hc _ IH]; [reflexivity|]. simpl.
  unfold nonblank at 1. apply strip_nil_iff in Hc. rewrite Hc. exact IH.
Qed.

Lemma wrap_whole p width lines :
  Forall (fun c => len c <= width) (_split_chunks p) ->
  wrap p width = Ok lines -> made_of_whole_chunks lines (_split_chunks p).
Proof.
  intros Hall. unfold wrap, _wrap_chunks. destruct (width <=? 0); [discriminate|].
  intros H. destruct (wrap_loop_whole _ _ _ _ _ Hall H) as (groups & H1 & H2 & H3).
  exists groups. repeat split; assumption.
Qed.

Lemma made_of_whole_chunks_app l1 c1 l2 c2 :
  made_of_whole_chunks l1 c1 -> made_of_whole_chunks l2 c2 ->
  made_of_whole_chunks (l1 ++ l2) (c1 ++ c2).
Proof.
  intros (g1 & -> & S1 & F1) (g2 & -> & S2 & F2). exists (g1 ++ g2).
  rewrite map_app, concat_app. split; [reflexivity|]. split.
  - apply sublist_app; assumption.
  - rewrite !List.filter_app. congruence.
Qed.

Lemma wrap_paragraphs_whole width paragraphs : forall lines,
  Forall (fun c => len c <= width) (concat (map _split_chunks paragraphs)) ->
  wrap_paragraphs paragraphs width = Ok lines ->
  made_of_whole_chunks lines (concat (map _split_chunks paragraphs)).
Proof.
  induction paragraphs as [|p ps IH]; intros lines Hall H.
  - inversion H; subst. exists []. repeat split; constructor.
  - simpl in Hall. apply Forall_app in Hall as [Hp Hps].
    cbn [wrap_paragraphs] in H. simpl map. simpl concat.
    destruct (negb (truthy (strip p))) eqn:Eb.
    + destruct (wrap_paragraphs ps width) as [rest| |] eqn:Hr; try discriminate.
      simpl in H. inversion H; subst.
      change ([] :: rest) with ([[]] ++ rest).
      apply made_of_whole_chunks_app; [|apply IH; [exact Hps|reflexivity]].
      exists [[]]. simpl. split; [reflexivity|]. split; [apply sublist_nil_l|].
      symmetry. apply blank_paragraph_chunks. apply negb_true_iff, Eb.
    + destruct (wrap p width) as [wrapped| |] eqn:Hw; try discriminate.
      destruct (wrap_paragraphs ps width) as [rest| |] eqn:Hr; try discriminate.
      simpl in H. inversion H; subst.
      apply made_of_whole_chunks_app; [|apply IH; [exact Hps|reflexivity]].
      pose proof (wrap_whole p width wrapped Hp Hw) as (groups & -> & S & F).
      destruct groups as [|g groups]; simpl.
      * exists [[]]. simpl. split; [reflexivity|]. split; assumption.
      * exists (g :: groups). split; [reflexivity|]. split; assumption.
Qed.

End WholeChunks.

Module LongToken.
Import TextWrap PyStrFacts TextWrapFacts WholeChunks.

Lemma is_ws_isspace c : is_ws c = true -> isspace c = true.
Proof.
  unfold is_ws, isspace. set (n := code c).
  rewrite !orb_true_iff, !andb_true_iff, !Z.leb_le, !Z.eqb_eq. lia.
Qed.

Lemma not_space_not_ws c : isspace c = false -> is_ws c = false.
Proof.
  intros H. destruct (is_ws c) eqn:E; [|reflexivity].
  apply is_ws_isspace in E. congruence.
Qed.

Lemma not_space_neq c x : isspace c = false -> isspace x = true -> Ascii.eqb c x = false.
Proof. intros Hc Hx. apply Ascii.eqb_neq. intros ->. congruence. Qed.

Lemma expandtabs_plain tabsize s : forall col,
  Forall (fun c => isspace c = false) s -> expandtabs_from tabsize col s = s.
Proof.
  induction s as [|c s IH]; intros col H; simpl; [reflexivity|].
  apply Forall_cons in H as [Hc H].
  rewrite (not_space_neq c TAB Hc eq_refl).
  destruct (Ascii.eqb c LF || Ascii.eqb c CR); rewrite IH by exact H; reflexivity.
Qed.

Lemma munge_plain s :
  Forall (fun c => isspace c = false) s -> _munge_whitespace s = s.
Proof.
  intros H. unfold _munge_whitespace, expandtabs. rewrite expandtabs_plain by exact H.
  induction H as [|c s Hc _ IH]; simpl; [reflexivity|].
  rewrite (not_space_not_ws c Hc), IH. reflexivity.
Qed.

Lemma emdash_ahead_no_hyphen c rest : is_hyphen c = false -> emdash_ahead (c :: rest) = false.
Proof. intros H. unfold emdash_ahead. simpl. rewrite H. reflexivity. Qed.

Lemma word_end_plain rest : forall prev,
  Forall plain rest -> word_end prev rest = length rest.
Proof.
  induction rest as [|c rest IH]; intros prev H; simpl; [reflexivity|].
  apply Forall_cons in H as [[Hs Hh] H].
  rewrite Hh, (not_space_not_ws c Hs), (emdash_ahead_no_hyphen c rest Hh).
  simpl. rewrite andb_false_r, IH by exact H. reflexivity.
Qed.

Lemma match_len_plain s : Forall plain s -> match_len [] s = length s.
Proof.
  intros H. destruct s as [|c s]; [reflexivity|].
  apply Forall_cons in H as [[Hs Hh] H]. simpl.
  rewrite (not_space_not_ws c Hs), word_end_plain by exact H. reflexivity.
Qed.

Lemma split_loop_nil fuel prev : split_loop fuel prev [] = [].
Proof. destruct fuel; reflexivity. Qed.

(** A run of plain characters is a single chunk. *)
Lemma split_chunks_plain s :
  s <> [] -> Forall plain s -> _split_chunks s = [s].
Proof.
  intros Hne H. unfold _split_chunks.
  rewrite munge_plain by (eapply Forall_impl; [exact H|]; intros c [Hc _]; exact Hc).
  unfold _split. destruct s as [|c s]; [congruence|].
  cbn [length split_loop]. rewrite match_len_plain by exact H.
  rewrite firstn_all, skipn_all, split_loop_nil. reflexivity.
Qed.

Lemma lstrip_plain s : Forall (fun c => isspace c = false) s -> lstrip s = s.
Proof. intros H. destruct H as [|c s Hc _]; simpl; [reflexivity|]. rewrite Hc. reflexivity. Qed.

Lemma strip_plain s : Forall (fun c => isspace c = false) s -> strip s = s.
Proof.
  intros H. unfold strip, rstrip. rewrite (lstrip_plain s H).
  rewrite lstrip_plain by (apply Forall_rev, H). apply rev_involutive.
Qed.

Lemma rfind_from_absent c s : forall i,
  Forall (fun x => Ascii.eqb x c = false) s -> rfind_from c s i = -1.
Proof.
  induction s as [|x s IH]; intros i H; simpl; [reflexivity|].
  apply Forall_cons in H as [Hx H]. rewrite IH by exact H. simpl. rewrite Hx.
  reflexivity.
Qed.

Lemma split_absent c s :
  Forall (fun x => Ascii.eqb x c = false) s -> split c s = [s].
Proof.
  induction s as [|x s IH]; intros H; simpl; [reflexivity|].
  apply Forall_cons in H as [Hx H]. rewrite Hx, IH by exact H. reflexivity.
Qed.

Lemma fill_line_stops width cur_line cur_len c below :
  width < cur_len + len c ->
  fill_line width cur_line cur_len (c :: below) = (cur_line, cur_len, c :: below).
Proof. intros H. apply Z.leb_gt in H. simpl. rewrite H. reflexivity. Qed.

Lemma fill_line_last width cur_line cur_len c :
  cur_len + len c <= width ->
  fill_line width cur_line cur_len [c] = (cur_line ++ [c], cur_len + len c, []).
Proof. intros H. apply Z.leb_le in H. simpl. rewrite H. reflexivity. Qed.

Lemma drop_trailing_ws_keep x :
  nonblank x = true -> drop_trailing_ws [x] = [x].
Proof. intros H. unfold drop_trailing_ws. simpl. unfold nonblank in H. rewrite H. reflexivity. Qed.

Lemma nonblank_plain s :
  s <> [] -> Forall (fun c => isspace c = false) s -> nonblank s = true.
Proof.
  intros Hne H. unfold nonblank. rewrite strip_plain by exact H.
  destruct s; [congruence|reflexivity].
Qed.

Lemma slice_to_plain (token : str) n :
  Forall plain token -> Forall plain (slice_to token n).
Proof. intros H. unfold slice_to. destruct (n <? 0); apply Forall_take, H. Qed.

Lemma slice_from_plain (token : str) n :
  Forall plain token -> Forall plain (slice_from token n).
Proof. intros H. unfold slice_from. destruct (n <? 0); apply Forall_drop, H. Qed.

Lemma plain_not_space (s : str) :
  Forall plain s -> Forall (fun c => isspace c = false) s.
Proof. intros H. eapply Forall_impl; [exact H|]. intros c [Hc _]. exact Hc. Qed.

Lemma plain_no_hyphen (s : str) :
  Forall plain s -> Forall (fun c => Ascii.eqb c HYPHEN = false) s.
Proof. intros H. eapply Forall_impl; [exact H|]. intros c [_ Hc]. exact Hc. Qed.

(** A pass on a plain chunk longer than the width cuts it at the width. *)
Lemma wrap_step_cut width lines token below :
  1 <= width -> width < len token -> Forall plain token ->
  wrap_step width lines (token :: below)
  = (lines ++ [slice_to token width], slice_from token width :: below).
Proof.
  intros Hw Hl Hp.
  assert (Hne : token <> []) by (intros ->; unfold len in Hl; simpl in Hl; lia).
  assert (Hnb : nonblank token = true)
    by (apply nonblank_plain; [exact Hne|apply plain_not_space, Hp]).
  unfold wrap_step. unfold nonblank in Hnb. rewrite Hnb. cbn [negb andb].
  rewrite fill_line_stops by lia.
  rewrite (proj2 (Z.ltb_lt _ _) Hl).
  destruct (handle_long_word_spec token below [] 0 width Hw ltac:(lia) Hl)
    as (end_ & Heq & _ & _ & Hend).
  rewrite Z.sub_0_r in Hend. rewrite Hend in Heq; clear Hend.
  2:{ unfold rfind. rewrite rfind_from_absent; [lia|].
      apply plain_no_hyphen, slice_to_plain, Hp. }
  rewrite Heq. cbn [app].
  rewrite drop_trailing_ws_keep.
  - cbn [truthy concat]. rewrite app_nil_r. reflexivity.
  - apply nonblank_plain; [|apply plain_not_space, slice_to_plain, Hp].
    intros E. apply (f_equal len) in E. rewrite slice_to_len in E by lia.
    unfold len in E at 2. simpl in E. lia.
Qed.

(** A pass on a last chunk that fits puts it on a line of its own. *)
Lemma wrap_step_last width lines c :
  nonblank c = true -> len c <= width ->
  wrap_step width lines [c] = (lines ++ [c], []).
Proof.
  intros Hnb Hl. unfold wrap_step. unfold nonblank in Hnb. rewrite Hnb.
  cbn [negb andb]. rewrite fill_line_last by lia. cbn [app].
  fold (nonblank c) in Hnb. rewrite drop_trailing_ws_keep by exact Hnb.
  cbn [truthy concat]. rewrite app_nil_r. reflexivity.
Qed.

(** A plain chunk longer than the width, but no longer than twice the
    width, is cut at the width. *)
Lemma wrap_long_token token width :
  1 <= width -> width < len token <= 2 * width -> Forall plain token ->
  wrap token width
  = Ok [slice_to token width; slice_from token width].
Proof.
  intros Hw [Hl1 Hl2] Hp.
  assert (Hne : token <> []) by (intros ->; unfold len in Hl1; simpl in Hl1; lia).
  unfold wrap. rewrite split_chunks_plain by assumption.
  unfold _wrap_chunks.
  assert (E : (width <=? 0) = false) by (apply Z.leb_gt; lia). rewrite E.
  assert (Hfuel : exists k, wrap_fuel [token] = S (S k)).
  { unfold len in Hl1. simpl. exists (length token - 1 + 0)%nat. lia. }
  destruct Hfuel as (k & ->). cbn [wrap_loop].
  rewrite wrap_step_cut by assumption. cbn [app].
  rewrite wrap_step_last.
  - destruct k; reflexivity.
  - apply nonblank_plain; [|apply plain_not_space, slice_from_plain, Hp].
    intros E2. apply (f_equal len) in E2. rewrite slice_from_len in E2 by lia.
    unfold len in E2 at 2. simpl in E2. lia.
  - rewrite slice_from_len by lia. lia.
Qed.

Lemma wrap_40_long_token token width :
  1 <= width -> width < len token <= 2 * width -> Forall plain token ->
  wrap_40 token width = Ok [slice_to token width; slice_from token width].
Proof.
  intros Hw Hl Hp. unfold wrap_40.
  rewrite split_absent.
  - cbn [wrap_paragraphs].
    assert (Hnb : nonblank token = true).
    { apply nonblank_plain; [|apply plain_not_space, Hp].
      intros ->. unfold len in Hl. simpl in Hl. lia. }
    unfold nonblank in Hnb. rewrite Hnb. cbn [negb].
    rewrite wrap_long_token by assumption. reflexivity.
  - eapply Forall_impl; [exact Hp|]. intros c [Hc _].
    apply not_space_neq; [exact Hc|reflexivity].
Qed.

End LongToken.

(** ** Where the text is cut into chunks *)

Module ChunkCuts.
Import TextWrap PyStrFacts TextWrapFacts.

Lemma match_len_pos prev c rest : (1 <= match_len prev (c :: rest))%nat.
Proof.
  unfold match_len. destruct (is_ws c) eqn:E.
  - simpl. rewrite E. lia.
  - destruct (behind_wp prev && emdash_ahead (c :: rest)) eqn:E2; [|lia].
    apply andb_true_iff in E2 as [_ E2]. unfold emdash_ahead in E2.
    apply andb_true_iff in E2 as [E2 _]. apply Nat.leb_le in E2. lia.
Qed.

(** The pieces cut by the splitter, put together again, are the text. *)
Lemma split_loop_concat fuel : forall prev rest,
  (length rest <= fuel)%nat -> concat (split_loop fuel prev rest) = rest.
Proof.
  induction fuel as [|f IH]; intros prev rest Hf.
  - destruct rest; [reflexivity|simpl in Hf; lia].
  - destruct rest as [|c rest]; [reflexivity|].
    cbn [split_loop concat]. pose proof (match_len_pos prev c rest) as Hn.
    rewrite IH.
    + apply take_drop.
    + rewrite length_drop. simpl length in *. lia.
Qed.

Lemma concat_filter_truthy (l : list str) :
  concat (List.filter truthy l) = concat l.
Proof.
  induction l as [|x l IH]; [reflexivity|]. simpl.
  destruct x; simpl; [exact IH|]. rewrite IH. reflexivity.
Qed.

Lemma split_chunks_concat s : concat (_split_chunks s) = _munge_whitespace s.
Proof.
  unfold _split_chunks, _split. rewrite concat_filter_truthy.
  apply split_loop_concat. lia.
Qed.

(** No piece is empty: the filter of [_split] removes nothing. *)
Lemma split_loop_truthy fuel : forall prev rest,
  List.filter truthy (split_loop fuel prev rest) = split_loop fuel prev rest.
Proof.
  induction fuel as [|f IH]; intros prev rest; [reflexivity|].
  destruct rest as [|c rest]; [reflexivity|].
  cbn [split_loop]. pose proof (match_len_pos prev c rest) as Hn.
  destruct (match_len prev (c :: rest)) as [|n]; [lia|].
  cbn [take List.filter truthy]. rewrite IH. reflexivity.
Qed.

(** A run ends at a character that is not of the run. *)
Lemma span_len_stop p (s : str) r more :
  drop (span_len p s) s = r :: more -> p r = false.
Proof.
  induction s as [|c s IH]; simpl; [discriminate|].
  destruct (p c) eqn:E; simpl.
  - exact IH.
  - intros H. inversion H; subst. exact E.
Qed.

Lemma span_len_last p (s : str) :
  (1 <= span_len p s)%nat ->
  exists x before, rev (take (span_len p s) s) = x :: before /\ p x = true.
Proof.
  induction s as [|c s IH]; simpl; [lia|].
  destruct (p c) eqn:E; [|lia]. intros _. simpl.
  destruct (span_len p s) as [|n] eqn:En.
  - exists c, []. split; [reflexivity|exact E].
  - destruct IH as (x & before & Hr & Hx); [lia|].
    rewrite Hr. exists x, (before ++ [c]). split; [reflexivity|exact Hx].
Qed.

(** A run of hyphens read backwards is the same run. *)
Lemma span_len_run (s prev : str) :
  span_len is_hyphen prev = O ->
  span_len is_hyphen (rev (take (span_len is_hyphen s) s) ++ prev)
  = span_len is_hyphen s /\
  drop (span_len is_hyphen s) (rev (take (span_len is_hyphen s) s) ++ prev)
  = prev.
Proof.
  intros Hp.
  assert (Hrun : forall n (l : str), Forall (fun c => is_hyphen c = true) l ->
                   length l = n ->
                   span_len is_hyphen (l ++ prev) = n /\ drop n (l ++ prev) = prev).
  { intros n l Hl. revert n. induction Hl as [|c l Hc Hl IH]; intros n Hn.
    - simpl in *. subst n. split; [exact Hp|reflexivity].
    - simpl in *. rewrite Hc. destruct n as [|n]; [discriminate|].
      destruct (IH n) as [H1 H2]; [lia|]. rewrite H1. split; [reflexivity|exact H2]. }
  assert (Hall : Forall (fun c => is_hyphen c = true)
                   (take (span_len is_hyphen s) s)).
  { induction s as [|c s IH]; simpl; [constructor|].
    destruct (is_hyphen c) eqn:E; simpl; [|constructor].
    constructor; assumption. }
  apply Hrun.
  - apply Forall_rev, Hall.
  - rewrite length_rev, length_take.
    assert (span_len is_hyphen s <= length s)%nat; [|lia].
    clear. induction s as [|c s IH]; simpl; [lia|].
    destruct (is_hyphen c); simpl; lia.
Qed.

Lemma word_punct_not_hyphen c : is_word_punct c = true -> is_hyphen c = false.
Proof.
  intros H. unfold is_hyphen. apply Ascii.eqb_neq. intros ->.
  vm_compute in H. discriminate.
Qed.

(** Where a word piece ends, the cut is allowed. *)
Lemma word_end_cut rest : forall prev p before,
  prev = p :: before ->
  drop (word_end prev rest) rest <> [] ->
  cut_allowed (rev (take (word_end prev rest) rest) ++ prev)
              (drop (word_end prev rest) rest) = true.
Proof.
  induction rest as [|c t IH]; intros prev p before Hprev Hrest.
  - simpl in Hrest. congruence.
  - cbn [word_end] in *.
    destruct (is_hyphen c && hyphen_behind prev && hyphen_ahead t) eqn:Hh.
    + apply andb_true_iff in Hh as [Hh Ha]. apply andb_true_iff in Hh as [Hc Hb].
      destruct t as [|r t']; [discriminate Ha|].
      change (take 1 (c :: r :: t')) with [c].
      change (drop 1 (c :: r :: t')) with (r :: t').
      cbn [rev app]. unfold cut_allowed. rewrite Hc, Hb, Ha. simpl.
      rewrite !orb_true_r. reflexivity.
    + destruct (is_ws c) eqn:Hw.
      * rewrite drop_0, take_0. simpl app. subst prev. unfold cut_allowed.
        rewrite Hw. rewrite orb_true_r. reflexivity.
      * destruct (behind_wp prev && emdash_ahead (c :: t)) eqn:He.
        -- rewrite drop_0, take_0. simpl app. subst prev. unfold cut_allowed.
           rewrite He. rewrite !orb_true_r. reflexivity.
        -- cbn [take drop rev] in *. rewrite <- app_assoc. simpl app.
           apply (IH (c :: prev) c prev eq_refl Hrest).
Qed.

(** Where a match of [wordsep_re] ends before the end of the text, the cut
    is allowed. *)
Lemma match_len_cut prev rest :
  rest <> [] -> drop (match_len prev rest) rest <> [] ->
  cut_allowed (rev (take (match_len prev rest) rest) ++ prev)
              (drop (match_len prev rest) rest) = true.
Proof.
  intros Hne Hd. destruct rest as [|c t]; [congruence|].
  unfold match_len in *. destruct (is_ws c) eqn:Hw.
  - destruct (span_len_last is_ws (c :: t)) as (x & before & Hr & Hx).
    { simpl. rewrite Hw. lia. }
    rewrite Hr. destruct (drop _ (c :: t)) as [|r more] eqn:E; [congruence|].
    simpl. rewrite Hx. reflexivity.
  - destruct (behind_wp prev && emdash_ahead (c :: t)) eqn:He.
    + apply andb_true_iff in He as [Hb Ha].
      assert (Hp0 : span_len is_hyphen prev = O).
      { destruct prev as [|p before]; [reflexivity|]. simpl in *.
        rewrite (word_punct_not_hyphen p Hb). reflexivity. }
      destruct (span_len_run (c :: t) prev Hp0) as [H1 H2].
      unfold emdash_ahead in Ha. apply andb_true_iff in Ha as [Hn Hr].
      destruct (drop (span_len is_hyphen (c :: t)) (c :: t)) as [|r more] eqn:E;
        [congruence|].
      destruct (span_len_last is_hyphen (c :: t)) as (x & before & Hx & _).
      { apply Nat.leb_le in Hn. lia. }
      assert (Hem : emdash_behind
                      (rev (take (span_len is_hyphen (c :: t)) (c :: t)) ++ prev)
                    = true).
      { unfold emdash_behind. rewrite H1, H2, Hn, Hb. reflexivity. }
      unfold cut_allowed. rewrite Hem, Hr. rewrite Hx. simpl app.
      cbv beta iota. apply orb_true_iff. right. reflexivity.
    + cbn [take drop rev] in *. rewrite <- app_assoc. simpl app.
      apply (word_end_cut t (c :: prev) c prev eq_refl Hd).
Qed.

(** Between two pieces cut one after the other the cut is allowed. *)
Lemma split_loop_cuts fuel : forall prev rest pre c1 c2 post,
  (length rest <= fuel)%nat ->
  split_loop fuel prev rest = pre ++ c1 :: c2 :: post ->
  cut_allowed (rev (concat (pre ++ [c1])) ++ prev) (concat (c2 :: post)) = true.
Proof.
  induction fuel as [|f IH]; intros prev rest pre c1 c2 post Hf H.
  - destruct pre; discriminate.
  - destruct rest as [|c t]; [destruct pre; discriminate|].
    cbn [split_loop] in H. pose proof (match_len_pos prev c t) as Hn.
    set (n := match_len prev (c :: t)) in *.
    assert (Hshort : (length (drop n (c :: t)) <= f)%nat).
    { rewrite length_drop. simpl length in *. lia. }
    destruct pre as [|x pre].
    + simpl app in H. injection H as Hc1 Hrest.
      change (concat ([] ++ [c1])) with (c1 ++ []). rewrite app_nil_r.
      rewrite <- Hrest, <- Hc1.
      rewrite split_loop_concat by exact Hshort.
      apply match_len_cut; [discriminate|]. fold n.
      intros Hnil. rewrite Hnil in Hrest. destruct f; discriminate Hrest.
    + simpl app in H. injection H as Hx Hrest. rewrite Hx in Hrest.
      pose proof (IH _ _ _ _ _ _ Hshort Hrest) as Hcut.
      change (concat ((x :: pre) ++ [c1])) with (x ++ concat (pre ++ [c1])).
      rewrite rev_app_distr, <- app_assoc. exact Hcut.
Qed.

(** The chunks of a paragraph are cut where it may be cut. *)
Lemma split_chunks_cuts paragraph pre c1 c2 post :
  _split_chunks paragraph = pre ++ c1 :: c2 :: post ->
  cut_allowed (rev (concat (pre ++ [c1]))) (concat (c2 :: post)) = true.
Proof.
  unfold _split_chunks, _split. rewrite split_loop_truthy. intros H.
  rewrite <- (app_nil_r (rev (concat (pre ++ [c1])))).
  apply (split_loop_cuts _ [] _ pre c1 c2 post (Nat.le_refl _) H).
Qed.

End ChunkCuts.

Module WrapClaims.
Import TextWrap PyStrFacts TextWrapFacts WholeChunks LongToken ChunkCuts.

(** C9, as the code has it. A 45-character token with no whitespace and no
    hyphen in it, wrapped at width 40, comes out as two lines, its first 40
    characters and its last 5, with nothing inserted.  More generally the
    lines [wrap_40] returns are made of whole chunks of the text unless a
    chunk is longer than the width.  The chunks of a paragraph put together
    are the paragraph, its tabs expanded and its whitespace turned into
    spaces, and two chunks that follow each other meet only where
    [cut_allowed] holds: next to whitespace; after a hyphen
    that has two letters, or a letter, a hyphen and a letter, before it and
    a letter followed by a letter, or by a hyphen and a letter, after it;
    before or after an em-dash, a run of two hyphens or more between a word
    or punctuation character and a word character.  So a word is cut
    nowhere else, and a line may end after a hyphen inside a word. *)
Theorem wrap_40_breaks_only_between_chunks :
  (forall token : str,
     length token = 45%nat -> Forall plain token ->
     wrap_40 token WRAP_COLS = Ok [take 40 token; drop 40 token] /\
     length (take 40 token) = 40%nat /\ length (drop 40 token) = 5%nat /\
     take 40 token ++ drop 40 token = token)
  /\
  (forall (text : str) (width : Z),
     1 <= width ->
     Forall (fun c => len c <= width) (chunks_of text) ->
     exists lines,
       wrap_40 text width = Ok lines /\
       made_of_whole_chunks lines (chunks_of text))
  /\
  (forall (paragraph : str) (pre : list str) (c1 c2 : str) (post : list str),
     _split_chunks paragraph = pre ++ c1 :: c2 :: post ->
     concat (_split_chunks paragraph) = _munge_whitespace paragraph /\
     cut_allowed (rev (concat (pre ++ [c1]))) (concat (c2 :: post)) = true).
Proof.
  split; [|split].
  - intros token Hlen Hp.
    rewrite (wrap_40_long_token token WRAP_COLS)
      by (unfold WRAP_COLS, len; try assumption; lia).
    split; [reflexivity|]. rewrite length_take, length_drop, take_drop.
    repeat split; lia.
  - intros text width Hw Hall.
    destruct (wrap_40_total text width Hw) as (lines & Heq & _).
    exists lines. split; [exact Heq|].
    apply (wrap_paragraphs_whole width (split LF text) lines Hall Heq).
  - intros paragraph pre c1 c2 post H. split.
    + apply split_chunks_concat.
    + apply (split_chunks_cuts paragraph pre c1 c2 post H).
Qed.

Lemma wrap_40_breaks_only_between_chunks_witness :
  wrap_40 (repeat "a"%char 45) WRAP_COLS
  = Ok [repeat "a"%char 40; repeat "a"%char 5]
  /\ (exists lines,
        wrap_40 (lit "bonjour le monde") 10 = Ok lines /\
        made_of_whole_chunks lines (chunks_of (lit "bonjour le monde")))
  /\ cut_allowed (rev (lit "well-")) (lit "known") = true.
Proof.
  destruct wrap_40_breaks_only_between_chunks as (H1 & H2 & H3).
  split; [|split].
  - apply (H1 (repeat "a"%char 45)); [reflexivity|].
    apply Forall_forall. intros c Hc. apply list_elem_of_In, repeat_spec in Hc.
    subst c. split; reflexivity.
  - apply (H2 (lit "bonjour le monde") 10); [lia|].
    vm_compute. repeat constructor; discriminate.
  - apply (H3 (lit "well-known") [] (lit "well-") (lit "known") []).
    reflexivity.
Defined.

(** C9 as stated fails: a word with a hyphen is broken after the hyphen
    although it is shorter than the width, and a 45-character token with a
    hyphen is not split 40 + 5. *)
Lemma wrap_40_breaks_at_hyphen :
  wrap_40 (repeat "x"%char 30 ++ lit " well-known") WRAP_COLS
  = Ok [repeat "x"%char 30 ++ lit " well-"; lit "known"]
  /\
  length (repeat "a"%char 20 ++ lit "-" ++ repeat "b"%char 24) = 45%nat /\
  wrap_40 (repeat "a"%char 20 ++ lit "-" ++ repeat "b"%char 24) WRAP_COLS
  = Ok [repeat "a"%char 20 ++ lit "-"; repeat "b"%char 24]
  /\
  wrap_40 (repeat "a"%char 20 ++ lit "-" ++ repeat "b"%char 24) WRAP_COLS
  <> Ok [take 40 (repeat "a"%char 20 ++ lit "-" ++ repeat "b"%char 24);
         drop 40 (repeat "a"%char 20 ++ lit "-" ++ repeat "b"%char 24)].
Proof. vm_compute. repeat split; discriminate. Qed.

End WrapClaims.

(** ** The display functions *)

Module DisplayClaims.
Import PyStrFacts DisplayFacts TextWrapFacts.

Lemma display_lines_counted enabled page_lines lines :
  0 < page_lines ->
  forall o lc,
    paging_inv enabled page_lines (mkFmt o lc 0) ->
    paging_inv enabled page_lines
      (mkFmt (fst (display_lines enabled page_lines lines o lc))
             (snd (display_lines enabled page_lines lines o lc)) 0) /\
    lines_emitted (fst (display_lines enabled page_lines lines o lc))
    = lines_emitted o + len lines.
Proof.
  intros HP. induction lines as [|line lines IH]; intros o lc Hinv.
  - simpl. split; [exact Hinv|]. unfold len. simpl. lia.
  - cbn [display_lines].
    destruct (paginate enabled page_lines (o ++ [Writeln line]) (lc + 1))
      as [o2 lc2] eqn:Hpg.
    pose proof (count_line enabled page_lines (mkFmt o lc 0) [Writeln line]
                  o2 lc2 0 HP Hinv eq_refl eq_refl Hpg) as Hinv2.
    destruct (IH o2 lc2 Hinv2) as [H1 H2]. split; [exact H1|].
    rewrite H2, len_cons.
    assert (lines_emitted o2 = lines_emitted o + 1); [|lia].
    unfold paginate in Hpg.
    destruct (enabled && (page_lines <=? lc + 1)); inversion Hpg; subst;
      rewrite !lines_emitted_app; change (lines_emitted [Writeln line]) with 1;
      try change (lines_emitted pause_calls) with 0; lia.
Qed.

Lemma counted_div page_lines n p r :
  0 < page_lines -> 0 <= r < page_lines -> n = p * page_lines + r ->
  p = n / page_lines /\ r = n mod page_lines.
Proof.
  intros HP Hr ->. split.
  - apply (Z.div_unique _ _ p r); lia.
  - apply (Z.mod_unique _ _ p r); lia.
Qed.

(** C2, as the code has it. With pagination enabled and a page height
    [page_lines > 0]: a [display_wrapped] call that emits N lines pauses
    [N / page_lines] times (so also after the last line when N is a multiple
    of the page height); a [display_streaming] call whose final flush writes
    the residual buffer without a line break, as it does after a text that
    ends with a line feed, pauses [(N - 1) / page_lines] times for its N
    lines.  With pagination disabled there is no pause.  The counter starts
    at zero and goes back to zero at every pause. *)
Theorem pagination_pause_count (page_lines : Z) (text : str)
  (text_generator : list str) :
  0 < page_lines ->
  (exists lines calls,
     wrap_40 text WRAP_COLS = Ok lines /\
     display_wrapped true text page_lines = Ok calls /\
     lines_emitted calls = len lines /\
     pauses calls = len lines / page_lines /\
     snd (display_lines true page_lines lines [] 0) = len lines mod page_lines)
  /\
  (exists calls,
     display_wrapped false text page_lines = Ok calls /\ pauses calls = 0)
  /\
  (exists calls,
     display_streaming true text_generator page_lines
     = Ok (calls, concat text_generator) /\
     (flush_fits true text_generator page_lines ->
      pauses calls = (lines_emitted calls - 1) / page_lines) /\
     (forall before, concat text_generator = before ++ [LF] ->
      pauses calls = (lines_emitted calls - 1) / page_lines))
  /\
  (exists calls full,
     display_streaming false text_generator page_lines = Ok (calls, full) /\
     pauses calls = 0)
  /\
  (forall o lc,
     page_lines <= lc -> paginate true page_lines o lc = (o ++ pause_calls, 0)).
Proof.
  intros HP.
  destruct (wrap_40_total text WRAP_COLS ltac:(unfold WRAP_COLS; lia))
    as (lines & Hw & _).
  split; [|split; [|split; [|split]]].
  - exists lines. unfold display_wrapped. rewrite Hw. simpl bind.
    eexists. split; [reflexivity|]. split; [reflexivity|].
    destruct (display_lines_counted true page_lines lines HP [] 0) as [[Hr He] Hl].
    { simpl. unfold counted. simpl. split; [lia|reflexivity]. }
    simpl in Hr, He. change (lines_emitted []) with 0 in Hl.
    split; [lia|].
    destruct (counted_div page_lines (len lines)
                (pauses (fst (display_lines true page_lines lines [] 0)))
                (snd (display_lines true page_lines lines [] 0)) HP Hr
                ltac:(lia)) as [H1 H2].
    split; assumption.
  - unfold display_wrapped. rewrite Hw. simpl bind. eexists.
    split; [reflexivity|].
    destruct (display_lines_counted false page_lines lines HP [] 0) as [Hp _];
      [reflexivity|exact Hp].
  - destruct (stream_chunks_total true page_lines text_generator HP [] []
                (mkFmt [] 0 0)) as (buffer & st & Hs & Hr & He).
    { simpl. unfold counted. simpl. split; [lia|reflexivity]. }
    simpl app in Hs.
    destruct (wrap_text_total AtEnd true page_lines buffer st HP)
      as (st1 & Hf & [Hp Hle] & Hfit).
    exists (out st1 ++ [Writeln []]).
    split; [unfold display_streaming; rewrite Hs; unfold bind at 1;
            cbv beta iota; rewrite Hf; reflexivity|].
    rewrite lines_emitted_app, pauses_app.
    change (lines_emitted [Writeln []]) with 1.
    change (pauses [Writeln []]) with 0.
    destruct (counted_div page_lines (lines_emitted (out st)) (pauses (out st))
                (line_count st) HP Hr He) as [H1 _].
    assert (Hsame : lines_emitted (out st1) = lines_emitted (out st) ->
                    pauses (out st1) + 0
                    = (lines_emitted (out st1) + 1 - 1) / page_lines).
    { intros E. replace (lines_emitted (out st1) + 1 - 1)
        with (lines_emitted (out st)) by lia. lia. }
    split.
    + intros (buffer0 & st0 & Hat & Hb). unfold at_flush in Hat.
      rewrite Hs in Hat. simpl bind in Hat. inversion Hat; subst buffer0 st0.
      apply Hsame, Hfit, Hb.
    + intros before Hend.
      destruct (stream_chunks_residue _ _ _ _ _ _ _ _ _ Hs eq_refl
                  ltac:(reflexivity)) as [Hnl Hsuf].
      rewrite Hend in Hsuf.
      pose proof (no_residue_after_newline before buffer Hnl Hsuf) as ->.
      simpl in Hf. inversion Hf; subst st1. apply Hsame. reflexivity.
  - destruct (stream_chunks_total false page_lines text_generator HP [] []
                (mkFmt [] 0 0)) as (buffer & st & Hs & Hp); [reflexivity|].
    destruct (wrap_text_total AtEnd false page_lines buffer st HP)
      as (st1 & Hf & [Hp1 _] & _).
    unfold display_streaming. rewrite Hs. unfold bind at 1. cbv beta iota.
    rewrite Hf. simpl bind.
    eexists. eexists. split; [reflexivity|].
    rewrite pauses_app. simpl in Hp. change (pauses [Writeln []]) with 0. lia.
  - intros o lc Hlc. unfold paginate. apply Z.leb_le in Hlc. rewrite Hlc.
    reflexivity.
Qed.

Lemma pagination_pause_count_witness :
  (exists lines calls,
     wrap_40 (lit "un deux") WRAP_COLS = Ok lines /\
     display_wrapped true (lit "un deux") 1 = Ok calls /\
     lines_emitted calls = len lines /\
     pauses calls = len lines / 1)
  /\
  (exists calls,
     display_streaming true [lit "un"; [LF]; lit "deux"; [LF]] 1
     = Ok (calls, lit "un" ++ [LF] ++ lit "deux" ++ [LF]) /\
     pauses calls = (lines_emitted calls - 1) / 1)
  /\
  (exists calls,
     display_streaming true [lit "un deux trois "; lit "quatre"] 1
     = Ok (calls, lit "un deux trois quatre") /\
     pauses calls = (lines_emitted calls - 1) / 1).
Proof.
  destruct (pagination_pause_count 1 (lit "un deux")
              [lit "un"; [LF]; lit "deux"; [LF]])
    as ((lines & calls & H1 & H2 & H3 & H4 & _) & _ & (calls' & H5 & _ & H6) & _);
    [lia|].
  destruct (pagination_pause_count 1 (lit "un deux")
              [lit "un deux trois "; lit "quatre"])
    as (_ & _ & (calls'' & H7 & H8 & _) & _); [lia|].
  split; [|split].
  - exists lines, calls. repeat split; assumption.
  - exists calls'. split; [exact H5|].
    apply (H6 (lit "un" ++ [LF] ++ lit "deux")). reflexivity.
  - exists calls''. split; [exact H7|]. apply H8.
    eexists. eexists. split; [vm_compute; reflexivity|].
    vm_compute. discriminate.
Defined.

(** C2 as stated fails.  Two wrapped lines on a page of two lines make one
    pause, where the claim counts none.  And a streamed text of 95 letters
    on a page of one line comes out in three lines without any pause, where
    the claim counts two. *)
Lemma display_wrapped_pauses_after_last_line :
  (exists calls,
     display_wrapped true (map chr [97; 10; 98]) 2 = Ok calls /\
     lines_emitted calls = 2 /\
     pauses calls = 1 /\
     pauses calls <> (lines_emitted calls - 1) / 2)
  /\
  (exists calls full,
     display_streaming true [repeat "x"%char 95] 1 = Ok (calls, full) /\
     lines_emitted calls = 3 /\
     pauses calls = 0 /\
     pauses calls <> (lines_emitted calls - 1) / 1).
Proof.
  split.
  - eexists. split; [vm_compute; reflexivity|]. vm_compute.
    repeat split; discriminate.
  - eexists. eexists. split; [vm_compute; reflexivity|]. vm_compute.
    repeat split; discriminate.
Qed.

(** C1 fails on [display_streaming]: a segment that exactly fills the room
    left on the line is written followed by a space, one column too many;
    the column count then stands at 41 and the next segment is written on
    the same line, all but its last character. *)
Theorem display_streaming_overruns_width :
  (exists calls,
     display_streaming true [repeat "a"%char 40 ++ lit " "] PAGE_LINES
     = Ok (calls, repeat "a"%char 40 ++ lit " ") /\
     emitted_lines calls = [repeat "a"%char 40 ++ lit " "] /\
     map len (emitted_lines calls) = [41])
  /\
  (exists calls text,
     display_streaming true
       [repeat "a"%char 40 ++ lit " "; lit "bbbbbbbbbbb cc"] PAGE_LINES
     = Ok (calls, text) /\
     emitted_lines calls
     = [repeat "a"%char 40 ++ lit " bbbbbbbbbb"; lit "b cc"] /\
     map len (emitted_lines calls) = [51; 4] /\
     Exists (fun line => WRAP_COLS < len line) (emitted_lines calls)).
Proof.
  split.
  - eexists. split; [vm_compute; reflexivity|]. split; vm_compute; reflexivity.
  - eexists. eexists. split; [vm_compute; reflexivity|].
    split; [vm_compute; reflexivity|]. split; [vm_compute; reflexivity|].
    apply Exists_cons_hd. vm_compute. reflexivity.
Qed.

End DisplayClaims.

(** ** The calls replayed on a transport *)

Module InterfaceFacts.
Import PyStrFacts SerialFacts DisplayFacts TextWrapFacts.

(** No call a display function makes changes the answer of
    [is_pagination_enabled]. *)
Lemma serial_run_pagination calls : forall s : SerialMinitel.t,
  m_is_pagination_enabled (run calls s) = m_is_pagination_enabled s.
Proof.
  induction calls as [|c calls IH]; intros s; [reflexivity|].
  unfold run in *. simpl fold_left. rewrite IH. destruct c; simpl.
  - apply write_frame.
  - apply writeln_frame.
  - unfold SerialMinitel.wait_keypress, SerialMinitel.read_byte.
    destruct (negb _); [reflexivity|].
    destruct (SerialMinitel.rx s) as [|[a b] more]; [reflexivity|].
    destruct (_ <=? _); reflexivity.
Qed.

Lemma simulated_run_pagination calls : forall m : SimulatedMinitel.t,
  m_is_pagination_enabled (run calls m) = m_is_pagination_enabled m.
Proof.
  induction calls as [|c calls IH]; intros m; [reflexivity|].
  unfold run in *. simpl fold_left. rewrite IH. destruct c; simpl; try reflexivity.
  unfold SimulatedMinitel.wait_keypress.
  apply (SimulatedFacts.simulated_read_byte_frame timeout m).
Qed.

(** On an open serial transport the calls put their text on the line, in
    order, each [writeln] ending with carriage return and line feed. *)
Lemma serial_run_tx calls : forall s : SerialMinitel.t,
  SerialMinitel.is_open s = true ->
  SerialMinitel.is_open (run calls s) = true /\
  SerialMinitel.tx (run calls s)
  = SerialMinitel.tx s ++ concat (map render calls).
Proof.
  induction calls as [|c calls IH]; intros s Ho.
  - simpl. rewrite app_nil_r. split; [exact Ho|reflexivity].
  - unfold run in *. simpl fold_left.
    assert (H : SerialMinitel.is_open (perform s c) = true /\
                SerialMinitel.tx (perform s c) = SerialMinitel.tx s ++ render c).
    { destruct c; simpl.
      - rewrite write_tx, Ho. split; [|reflexivity].
        destruct (write_frame text s) as (E & _). congruence.
      - rewrite writeln_tx, Ho. split; [|reflexivity].
        destruct (writeln_frame line s) as (E & _). congruence.
      - unfold SerialMinitel.wait_keypress, SerialMinitel.read_byte.
        rewrite Ho. simpl negb. cbv iota. rewrite app_nil_r.
        destruct (SerialMinitel.rx s) as [|[a b] more]; [split; [exact Ho|reflexivity]|].
        destruct (_ <=? _); split; try exact Ho; reflexivity. }
    destruct H as [Ho1 Htx]. destruct (IH _ Ho1) as [Ho2 Htx2].
    split; [exact Ho2|]. rewrite Htx2, Htx, <- app_assoc. reflexivity.
Qed.

Lemma display_lines_unpaged page_lines lines : forall o lc,
  fst (display_lines false page_lines lines o lc) = o ++ map Writeln lines.
Proof.
  induction lines as [|line lines IH]; intros o lc; simpl.
  - symmetry. apply app_nil_r.
  - rewrite IH, <- app_assoc. reflexivity.
Qed.

Lemma emitted_lines_writelns lines :
  emitted_lines (map Writeln lines) = lines.
Proof.
  unfold emitted_lines. induction lines as [|line lines IH]; [reflexivity|].
  simpl. rewrite IH. reflexivity.
Qed.

(** The lines [display_wrapped] sends are those of [wrap_40], none wider
    than the 40 columns. *)
Lemma display_wrapped_within_width text page_lines :
  exists lines calls,
    wrap_40 text WRAP_COLS = Ok lines /\
    display_wrapped false text page_lines = Ok calls /\
    emitted_lines calls = lines /\
    Forall (fun line => len line <= WRAP_COLS) lines.
Proof.
  destruct (wrap_40_total text WRAP_COLS ltac:(unfold WRAP_COLS; lia))
    as (lines & Hw & Hfit).
  exists lines. unfold display_wrapped. rewrite Hw. simpl bind.
  eexists. split; [reflexivity|]. split; [reflexivity|].
  split; [|exact Hfit].
  rewrite display_lines_unpaged. apply emitted_lines_writelns.
Qed.

End InterfaceFacts.

(** ** Text within Latin-1

    The strings of this development hold Latin-1 characters.  A text whose
    code points are all under 256 is such a string, and the transports send
    it as it is. *)

Module LatinText.
Import PyStrFacts.

Lemma of_str_range (s : str) :
  Forall (fun cp => 0 <= cp < 256) (Unicode.of_str s).
Proof.
  unfold Unicode.of_str. apply Forall_map, Forall_forall. intros c _.
  unfold code. pose proof (N_ascii_bounded c). simpl. lia.
Qed.

Lemma of_to_str (text : list Z) :
  Forall (fun cp => 0 <= cp < 256) text ->
  Unicode.of_str (Unicode.to_str text) = text.
Proof.
  unfold Unicode.of_str, Unicode.to_str.
  induction 1 as [|cp text Hcp _ IH]; [reflexivity|].
  simpl. rewrite IH, code_chr by exact Hcp. reflexivity.
Qed.

Lemma encode_of_str (s : str) :
  Unicode.encode_latin1 (Unicode.of_str s) = Unicode.of_str s.
Proof.
  pose proof (of_str_range s) as H. unfold Unicode.encode_latin1.
  induction H as [|cp text Hcp _ IH]; [reflexivity|].
  simpl. rewrite IH. destruct (cp <? 256) eqn:E; [reflexivity|].
  apply Z.ltb_ge in E. lia.
Qed.

(** What [SerialMinitel.write] sends for a string is the string. *)
Lemma write_data_of_str (s : str) :
  Unicode.write_data (Unicode.of_str s) = Unicode.of_str s.
Proof.
  unfold Unicode.write_data, Unicode.sanitize_latin1, Unicode.decode_latin1.
  rewrite !encode_of_str. reflexivity.
Qed.

End LatinText.

Module WrapMore.
Import TextWrap PyStrFacts TextWrapFacts WholeChunks LongToken ChunkCuts.

Lemma visible_app a b : visible (a ++ b) = visible a ++ visible b.
Proof. unfold visible. apply List.filter_app. Qed.

Lemma visible_all_space s :
  Forall (fun c => isspace c = true) s -> visible s = [].
Proof.
  induction 1 as [|c s Hc _ IH]; [reflexivity|]. simpl. rewrite Hc. exact IH.
Qed.

Lemma visible_blank c : nonblank c = false -> visible c = [].
Proof.
  unfold nonblank. intros H. apply visible_all_space, strip_nil_iff.
  destruct (strip c); [reflexivity|discriminate].
Qed.

Lemma visible_lstrip s : visible (lstrip s) = visible s.
Proof.
  induction s as [|c s IH]; [reflexivity|]. simpl.
  destruct (isspace c) eqn:E; simpl; [exact IH|]. rewrite E. reflexivity.
Qed.

(** Splitting at a whitespace character loses no visible character. *)
Lemma visible_split c s :
  isspace c = true -> visible (concat (split c s)) = visible s.
Proof.
  intros Hc. induction s as [|x s IH]; [reflexivity|]. simpl split.
  destruct (Ascii.eqb x c) eqn:E.
  - apply Ascii.eqb_eq in E. subst x. simpl. rewrite Hc. exact IH.
  - destruct (split c s) as [|h r] eqn:Es.
    + simpl in *. rewrite <- IH. destruct (isspace x); reflexivity.
    + simpl in *. rewrite <- IH. destruct (isspace x); reflexivity.
Qed.

Lemma visible_expandtabs tabsize s : forall col,
  visible (expandtabs_from tabsize col s) = visible s.
Proof.
  induction s as [|c s IH]; intros col; [reflexivity|]. simpl expandtabs_from.
  destruct (Ascii.eqb c TAB) eqn:E.
  - apply Ascii.eqb_eq in E. subst c.
    destruct (0 <? tabsize).
    + rewrite visible_app, IH, visible_all_space; [reflexivity|].
      apply Forall_forall. intros x Hx. apply list_elem_of_In, repeat_spec in Hx.
      subst. reflexivity.
    + rewrite IH. reflexivity.
  - destruct (Ascii.eqb c LF || Ascii.eqb c CR); simpl; rewrite IH; reflexivity.
Qed.

Lemma visible_munge s : visible (_munge_whitespace s) = visible s.
Proof.
  unfold _munge_whitespace, expandtabs. rewrite <- (visible_expandtabs 8 s 0).
  induction (expandtabs_from 8 0 s) as [|c l IH]; [reflexivity|]. simpl.
  destruct (is_ws c) eqn:E.
  - rewrite (is_ws_isspace c E). simpl. exact IH.
  - destruct (isspace c); simpl; rewrite IH; reflexivity.
Qed.

Lemma visible_concat_app (l1 l2 : list str) :
  visible (concat (l1 ++ l2)) = visible (concat l1) ++ visible (concat l2).
Proof. rewrite concat_app. apply visible_app. Qed.

Lemma visible_drop_trailing_ws cur_line :
  visible (concat (drop_trailing_ws cur_line)) = visible (concat cur_line).
Proof.
  destruct (drop_trailing_ws_cases cur_line) as [-> | (x & E & Hx)]; [reflexivity|].
  rewrite E at 2. rewrite visible_concat_app. simpl.
  rewrite app_nil_r, (visible_blank x Hx), app_nil_r. reflexivity.
Qed.

(** One pass of the outer loop keeps the visible characters: those of the
    new line and of what is left of the stack are those of the stack. *)
Lemma wrap_step_visible width lines chunks lines' chunks' :
  1 <= width ->
  wrap_step width lines chunks = (lines', chunks') ->
  visible (concat lines') ++ visible (concat chunks')
  = visible (concat lines) ++ visible (concat chunks).
Proof.
  intros Hw. unfold wrap_step.
  set (chunks1 := match chunks with
                  | top :: below =>
                      if negb (truthy (strip top)) && truthy lines then below else chunks
                  | [] => chunks end).
  assert (H1 : visible (concat chunks1) = visible (concat chunks)).
  { unfold chunks1. destruct chunks as [|top below]; [reflexivity|].
    destruct (negb (truthy (strip top)) && truthy lines) eqn:E; [|reflexivity].
    apply andb_true_iff in E as [E _]. apply negb_true_iff in E.
    simpl. rewrite visible_app, (visible_blank top E). reflexivity. }
  clearbody chunks1.
  destruct (fill_line width [] 0 chunks1) as [[cur_line cur_len] chunks2] eqn:Hf.
  destruct (fill_line_spec width _ _ _ _ _ _ Hf) as (taken & E1 & E2 & E3 & E4 & E5).
  simpl in E2. rewrite Z.add_0_l in E3. subst cur_line cur_len.
  specialize (E4 ltac:(lia)). pose proof (total_len_nonneg taken) as Hnn.
  assert (Hfinish : forall cur_line1 chunks3,
             visible (concat cur_line1) ++ visible (concat chunks3)
             = visible (concat chunks1) ->
             (let cur_line2 := drop_trailing_ws cur_line1 in
              let lines' := if truthy cur_line2 then lines ++ [concat cur_line2] else lines in
              (lines', chunks3)) = (lines', chunks') ->
             visible (concat lines') ++ visible (concat chunks')
             = visible (concat lines) ++ visible (concat chunks)).
  { intros cur_line1 chunks3 Hv H. cbv zeta in H. inversion H; subst lines' chunks'.
    rewrite <- H1, <- Hv, <- (visible_drop_trailing_ws cur_line1).
    destruct (drop_trailing_ws cur_line1) as [|x l] eqn:Ed.
    - reflexivity.
    - cbn [truthy]. rewrite visible_concat_app. simpl concat at 2.
      rewrite app_nil_r, <- app_assoc. reflexivity. }
  destruct chunks2 as [|top below].
  - apply Hfinish. rewrite app_nil_r in E1. subst chunks1. simpl. apply app_nil_r.
  - destruct (width <? len top) eqn:El.
    + apply Z.ltb_lt in El.
      destruct (handle_long_word_spec top below taken (total_len taken) width Hw
                  ltac:(lia) El) as (end_ & Heq & _).
      rewrite Heq. apply Hfinish. rewrite E1.
      rewrite !visible_concat_app. simpl concat.
      rewrite app_nil_r, !visible_app, <- app_assoc. f_equal.
      rewrite app_assoc, <- visible_app, slice_app. reflexivity.
    + apply Hfinish. rewrite E1, visible_concat_app. reflexivity.
Qed.

Lemma wrap_loop_visible width fuel :
  1 <= width ->
  forall lines chunks lines',
    wrap_loop fuel width lines chunks = Ok lines' ->
    visible (concat lines')
    = visible (concat lines) ++ visible (concat chunks).
Proof.
  intros Hw. induction fuel as [|f IH]; intros lines chunks lines' H.
  - destruct chunks; [|discriminate]. inversion H; subst. simpl.
    symmetry. apply app_nil_r.
  - destruct chunks as [|c chunks].
    + inversion H; subst. simpl. symmetry. apply app_nil_r.
    + cbn [wrap_loop] in H.
      destruct (wrap_step width lines (c :: chunks)) as [lines1 chunks1] eqn:Hs.
      rewrite (IH _ _ _ H). apply (wrap_step_visible _ _ _ _ _ Hw Hs).
Qed.

Lemma wrap_visible p width lines :
  wrap p width = Ok lines -> visible (concat lines) = visible p.
Proof.
  unfold wrap, _wrap_chunks. destruct (width <=? 0) eqn:E; [discriminate|].
  apply Z.leb_gt in E. intros H.
  rewrite (wrap_loop_visible width _ ltac:(lia) _ _ _ H). simpl.
  rewrite split_chunks_concat. apply visible_munge.
Qed.

Lemma wrap_paragraphs_visible width paragraphs : forall lines,
  wrap_paragraphs paragraphs width = Ok lines ->
  visible (concat lines) = visible (concat paragraphs).
Proof.
  induction paragraphs as [|p ps IH]; intros lines H.
  - inversion H; subst. reflexivity.
  - cbn [wrap_paragraphs] in H. simpl concat. rewrite visible_app.
    destruct (negb (truthy (strip p))) eqn:Eb.
    + destruct (wrap_paragraphs ps width) as [rest| |] eqn:Hr; try discriminate.
      simpl in H. inversion H; subst. simpl.
      rewrite (IH rest eq_refl).
      rewrite (visible_blank p) by (apply negb_true_iff, Eb). reflexivity.
    + destruct (wrap p width) as [wrapped| |] eqn:Hw; try discriminate.
      destruct (wrap_paragraphs ps width) as [rest| |] eqn:Hr; try discriminate.
      simpl in H. inversion H; subst.
      rewrite visible_concat_app, (IH rest eq_refl).
      rewrite <- (wrap_visible p width wrapped Hw).
      destruct wrapped; reflexivity.
Qed.

Lemma wrap_paragraphs_count width paragraphs : forall lines,
  wrap_paragraphs paragraphs width = Ok lines ->
  (length paragraphs <= length lines)%nat.
Proof.
  induction paragraphs as [|p ps IH]; intros lines H.
  - simpl. lia.
  - cbn [wrap_paragraphs] in H. destruct (negb (truthy (strip p))).
    + destruct (wrap_paragraphs ps width) as [rest| |] eqn:Hr; try discriminate.
      simpl in H. inversion H; subst. specialize (IH rest eq_refl). simpl. lia.
    + destruct (wrap p width) as [wrapped| |] eqn:Hw; try discriminate.
      destruct (wrap_paragraphs ps width) as [rest| |] eqn:Hr; try discriminate.
      simpl in H. inversion H; subst. specialize (IH rest eq_refl).
      rewrite length_app. destruct wrapped; simpl; lia.
Qed.

Lemma split_length c s :
  length (split c s) = S (length (List.filter (Ascii.eqb c) s)).
Proof.
  induction s as [|x s IH]; [reflexivity|]. simpl split.
  rewrite (Ascii.eqb_sym x c). simpl List.filter.
  destruct (Ascii.eqb c x).
  - simpl. rewrite IH. reflexivity.
  - destruct (split c s); simpl in *; lia.
Qed.

(** X1. For a width of at least 1, [wrap_40] returns (it does not raise): no
    line it returns is longer than the width, and every line of the source
    text, blank or not, gives at least one line. *)
Theorem wrap_40_lines_fit (text : str) (width : Z) :
  1 <= width ->
  exists lines,
    wrap_40 text width = Ok lines /\
    Forall (fun line => len line <= width) lines /\
    (length (split LF text) <= length lines)%nat /\
    length (split LF text) = S (length (List.filter (Ascii.eqb LF) text)).
Proof.
  intros Hw. destruct (wrap_40_total text width Hw) as (lines & Heq & Hfit).
  exists lines. split; [exact Heq|]. split; [exact Hfit|]. split.
  - apply (wrap_paragraphs_count width _ _ Heq).
  - apply split_length.
Qed.

Lemma wrap_40_lines_fit_witness :
  exists lines,
    wrap_40 (lit "Bonjour tout le monde") 10 = Ok lines /\
    Forall (fun line => len line <= 10) lines.
Proof.
  destruct (wrap_40_lines_fit (lit "Bonjour tout le monde") 10) as (l & H1 & H2 & _).
  - lia.
  - exists l. split; assumption.
Defined.

(** X2. [wrap_40] loses no visible character and changes their order in no
    way: the characters of the lines that are not whitespace are those of
    the text, also when a long word is cut. *)
Theorem wrap_40_keeps_visible_characters (text : str) (width : Z) :
  1 <= width ->
  exists lines,
    wrap_40 text width = Ok lines /\
    visible (concat lines) = visible text.
Proof.
  intros Hw. destruct (wrap_40_total text width Hw) as (lines & Heq & _).
  exists lines. split; [exact Heq|].
  rewrite (wrap_paragraphs_visible width _ _ Heq).
  apply visible_split. reflexivity.
Qed.

Lemma wrap_40_keeps_visible_characters_witness :
  exists lines,
    wrap_40 (lit "abcdefghijkl mn") 5 = Ok lines /\
    visible (concat lines) = lit "abcdefghijklmn".
Proof.
  destruct (wrap_40_keeps_visible_characters (lit "abcdefghijkl mn") 5)
    as (l & H1 & H2); [lia|].
  exists l. split; [exact H1|exact H2].
Defined.

Lemma wrap_paragraphs_blank width paragraphs :
  Forall (fun p => nonblank p = false) paragraphs ->
  wrap_paragraphs paragraphs width = Ok (map (fun _ => []) paragraphs).
Proof.
  induction 1 as [|p ps Hp _ IH]; [reflexivity|].
  cbn [wrap_paragraphs]. unfold nonblank in Hp. rewrite Hp. simpl negb. cbv iota.
  rewrite IH. reflexivity.
Qed.

Lemma wrap_paragraphs_bad_width width paragraphs :
  width <= 0 -> Exists (fun p => nonblank p = true) paragraphs ->
  wrap_paragraphs paragraphs width = Raise ValueError.
Proof.
  intros Hw. induction paragraphs as [|p ps IH]; intros H; [inversion H|].
  cbn [wrap_paragraphs]. destruct (truthy (strip p)) eqn:Ep; simpl negb; cbv iota.
  - unfold wrap, _wrap_chunks. apply Z.leb_le in Hw. rewrite Hw. reflexivity.
  - rewrite IH; [reflexivity|].
    apply Exists_cons in H as [H|H]; [|exact H].
    unfold nonblank in H. congruence.
Qed.

(** X3. A text made of whitespace only gives one empty line per source
    line, whatever the width; with a width of 0 or less any other text
    makes [wrap_40] raise [ValueError]. *)
Theorem wrap_40_blank_text_and_bad_width (text : str) (width : Z) :
  (Forall (fun c => isspace c = true) text ->
   wrap_40 text width = Ok (map (fun _ => []) (split LF text)))
  /\
  (width <= 0 -> Exists (fun c => isspace c = false) text ->
   wrap_40 text width = Raise ValueError).
Proof.
  split.
  - intros H. apply wrap_paragraphs_blank.
    assert (Hall : Forall (Forall (fun c => isspace c = true)) (split LF text)).
    { clear width. induction H as [|c s Hc _ IH]; [repeat constructor|].
      simpl. destruct (Ascii.eqb c LF); [constructor; [constructor|exact IH]|].
      destruct (split LF s) as [|h r]; [repeat constructor; exact Hc|].
      apply Forall_cons in IH as [Hh Hr]. constructor; [|exact Hr].
      constructor; assumption. }
    eapply Forall_impl; [exact Hall|]. intros p Hp. unfold nonblank.
    apply strip_nil_iff in Hp. rewrite Hp. reflexivity.
  - intros Hw H. apply wrap_paragraphs_bad_width; [exact Hw|].
    induction text as [|c s IH]; [inversion H|]. simpl.
    assert (Hnb : forall p, nonblank (c :: p) = true \/ isspace c = true).
    { intros p. destruct (isspace c) eqn:Ec; [right; reflexivity|left].
      unfold nonblank. destruct (strip (c :: p)) eqn:Es; [|reflexivity].
      apply strip_nil_iff in Es. apply Forall_cons in Es as [Es _]. congruence. }
    apply Exists_cons in H as [H|H].
    + destruct (Ascii.eqb c LF) eqn:E.
      * apply Ascii.eqb_eq in E. subst c. discriminate.
      * destruct (split LF s) as [|h r].
        -- apply Exists_cons_hd. destruct (Hnb []); [assumption|congruence].
        -- apply Exists_cons_hd. destruct (Hnb h); [assumption|congruence].
    + specialize (IH H). destruct (Ascii.eqb c LF); [apply Exists_cons_tl, IH|].
      destruct (split LF s) as [|h r]; [inversion IH|].
      apply Exists_cons in IH as [IH|IH]; [|apply Exists_cons_tl, IH].
      apply Exists_cons_hd. unfold nonblank in *.
      destruct (strip (c :: h)) eqn:Es; [|reflexivity].
      apply strip_nil_iff in Es. apply Forall_cons in Es as [_ Es].
      apply strip_nil_iff in Es. rewrite Es in IH. discriminate.
Qed.

Lemma wrap_40_blank_text_and_bad_width_witness :
  wrap_40 (map chr [32; 10; 9; 10]) 0 = Ok [[]; []; []]
  /\ wrap_40 (lit "a") 0 = Raise ValueError.
Proof.
  split.
  - apply (proj1 (wrap_40_blank_text_and_bad_width (map chr [32; 10; 9; 10]) 0)).
    repeat constructor.
  - apply (proj2 (wrap_40_blank_text_and_bad_width (lit "a") 0)); [lia|].
    apply Exists_cons_hd. reflexivity.
Defined.

End WrapMore.

Module DisplayMore.
Import PyStrFacts DisplayFacts TextWrapFacts InterfaceFacts WrapMore.

(** Where [find] and [rfind] point. *)
Lemma find_from_split c s : forall i,
  contains c s = true ->
  exists pre post, s = pre ++ c :: post /\ find_from c s i = i + len pre.
Proof.
  induction s as [|x s IH]; intros i H; [discriminate|]. simpl in *.
  rewrite Ascii.eqb_sym in H. destruct (Ascii.eqb x c) eqn:E.
  - apply Ascii.eqb_eq in E. subst x. exists [], s. split; [reflexivity|].
    unfold len. simpl. lia.
  - simpl in H. destruct (IH (i + 1) H) as (pre & post & -> & Hf).
    exists (x :: pre), post. split; [reflexivity|]. rewrite Hf, len_cons. lia.
Qed.

Lemma rfind_from_split c s : forall i,
  0 <= i -> contains c s = true ->
  exists pre post, s = pre ++ c :: post /\ rfind_from c s i = i + len pre.
Proof.
  induction s as [|x s IH]; intros i Hi H; [discriminate|]. simpl in *.
  rewrite Ascii.eqb_sym in H.
  destruct (contains c s) eqn:Hc.
  - destruct (IH (i + 1) ltac:(lia) eq_refl) as (pre & post & -> & Hf).
    exists (x :: pre), post. split; [reflexivity|]. rewrite Hf.
    pose proof (len_nonneg pre).
    destruct (0 <=? i + 1 + len pre) eqn:E; [rewrite len_cons; lia|].
    apply Z.leb_gt in E. lia.
  - unfold contains in Hc. rewrite orb_false_r in H.
    assert (Hr : rfind_from c s (i + 1) = -1).
    { apply LongToken.rfind_from_absent. clear - Hc.
      induction s as [|y s IH]; [constructor|]. simpl in Hc.
      apply orb_false_iff in Hc as [Hy Hc]. rewrite Ascii.eqb_sym in Hy.
      constructor; auto. }
    rewrite Hr. simpl. rewrite H. apply Ascii.eqb_eq in H. subst x.
    exists [], s. split; [reflexivity|]. unfold len. simpl. lia.
Qed.

(** The text a sequence of calls puts on the line, visible characters only. *)
Lemma written_app o1 o2 : written (o1 ++ o2) = written o1 ++ written o2.
Proof. unfold written. rewrite map_app, concat_app. apply visible_app. Qed.

Lemma written_write text : written [Write text] = visible text.
Proof. unfold written. simpl. rewrite app_nil_r. reflexivity. Qed.

Lemma written_writeln line : written [Writeln line] = visible line.
Proof.
  unfold written. simpl. rewrite app_nil_r, visible_app. simpl. apply app_nil_r.
Qed.

Lemma visible_snoc_space s : visible (s ++ [SP]) = visible s.
Proof. rewrite visible_app. simpl. apply app_nil_r. Qed.

(** With pagination off the page height plays no part. *)
Lemma paginate_off page_lines o lc : paginate false page_lines o lc = (o, lc).
Proof. reflexivity. Qed.

Lemma wrap_text_off mode fuel page_lines : forall remaining st,
  wrap_text mode fuel false page_lines remaining st
  = wrap_text mode fuel false 1 remaining st.
Proof.
  induction fuel as [|f IH]; intros remaining st; [destruct remaining; reflexivity|].
  destruct remaining as [|c remaining]; [reflexivity|].
  rewrite !wrap_text_unfold. destruct (_ <=? _); [reflexivity|].
  cbv zeta. rewrite !paginate_off. destruct mode; apply IH.
Qed.

Lemma process_buffer_off fuel page_lines : forall buffer st,
  process_buffer fuel false page_lines buffer st
  = process_buffer fuel false 1 buffer st.
Proof.
  induction fuel as [|f IH]; intros buffer st; [destruct buffer; reflexivity|].
  destruct buffer as [|c buffer]; [reflexivity|].
  cbn [process_buffer]. destruct (contains LF (c :: buffer)).
  - rewrite (wrap_text_off AtNewline _ page_lines).
    destruct (if _ <=? WRAP_COLS then _ else _); try reflexivity.
    cbn [bind]. rewrite !paginate_off. apply IH.
  - destruct (contains SP (c :: buffer) && _); [|reflexivity].
    rewrite (wrap_text_off AtSpace _ page_lines).
    destruct (wrap_text AtSpace _ false 1 _ st); try reflexivity. simpl bind.
    apply IH.
Qed.

Lemma stream_chunks_off page_lines chunks : forall full_text buffer st,
  stream_chunks false page_lines chunks full_text buffer st
  = stream_chunks false 1 chunks full_text buffer st.
Proof.
  induction chunks as [|chunk chunks IH]; intros full_text buffer st; [reflexivity|].
  cbn [stream_chunks]. rewrite process_buffer_off.
  destruct (process_buffer _ false 1 _ st) as [[b st1]| |]; try reflexivity.
  simpl bind. apply IH.
Qed.

Lemma display_streaming_off page_lines text_generator :
  display_streaming false text_generator page_lines
  = display_streaming false text_generator 1.
Proof.
  unfold display_streaming. rewrite stream_chunks_off.
  destruct (stream_chunks false 1 _ _ _ _) as [[[full b] st]| |]; try reflexivity.
  unfold bind at 1 3. cbv beta iota. rewrite wrap_text_off. reflexivity.
Qed.


(** A wrapping loop writes the visible characters of its text, all of them,
    in order. *)
Lemma wrap_text_visible mode fuel : forall remaining st st',
  wrap_text mode fuel false 1 remaining st = Ok st' ->
  written (out st') = written (out st) ++ visible remaining.
Proof.
  induction fuel as [|f IH]; intros remaining st st' H.
  - destruct remaining; [|discriminate]. inversion H; subst.
    symmetry. apply app_nil_r.
  - destruct remaining as [|c remaining].
    + inversion H; subst. symmetry. apply app_nil_r.
    + rewrite wrap_text_unfold in H. destruct (_ <=? _).
      * destruct mode; inversion H; subst; cbn [out];
          rewrite written_app, written_write; try reflexivity.
        change (c :: remaining ++ [SP]) with ((c :: remaining) ++ [SP]).
        rewrite visible_snoc_space. reflexivity.
      * cbv zeta in H. rewrite paginate_off in H.
        set (text := c :: remaining) in *.
        set (cut := cut_point_of text (WRAP_COLS - current_line_len st)) in *.
        assert (H' : wrap_text mode f false 1 (lstrip (slice_from text cut))
                       (mkFmt (out st ++ [Write (slice_to text cut); Writeln []])
                              (match mode with AtEnd => line_count st
                               | _ => line_count st + 1 end) 0) = Ok st')
          by (destruct mode; exact H).
        rewrite (IH _ _ _ H'). cbn [out].
        rewrite written_app, visible_lstrip, <- app_assoc. f_equal.
        change [Write (slice_to text cut); Writeln []]
          with ([Write (slice_to text cut)] ++ [Writeln []]).
        rewrite written_app, written_write, written_writeln.
        simpl. rewrite app_nil_r, <- visible_app, slice_app. reflexivity.
Qed.

Lemma process_buffer_visible fuel : forall buffer st buffer' st',
  process_buffer fuel false 1 buffer st = Ok (buffer', st') ->
  written (out st') ++ visible buffer' = written (out st) ++ visible buffer.
Proof.
  induction fuel as [|f IH]; intros buffer st buffer' st' H.
  - destruct buffer; [|discriminate]. inversion H; subst. reflexivity.
  - destruct buffer as [|c buffer]; [inversion H; subst; reflexivity|].
    destruct (contains LF (c :: buffer)) eqn:Hnl.
    + rewrite process_buffer_newline in H by exact Hnl. cbv zeta in H.
      destruct (find_from_split LF (c :: buffer) 0 Hnl)
        as (pre & post & Htext & Hidx).
      fold (find LF (c :: buffer)) in Hidx. rewrite Z.add_0_l in Hidx.
      rewrite Hidx, Htext in H.
      rewrite slice_to_app, slice_from_app in H.
      destruct (if current_line_len st + len pre <=? WRAP_COLS
                then Ok (mkFmt (out st ++ [Write pre]) (line_count st)
                               (current_line_len st + len pre))
                else wrap_text AtNewline (wrap_text_fuel pre) false 1 pre st)
        as [st1| |] eqn:H1; try discriminate.
      cbn [bind] in H. rewrite paginate_off in H.
      rewrite (IH _ _ _ _ H). cbn [out].
      rewrite written_app, written_writeln. simpl visible at 2. rewrite app_nil_r.
      assert (Hw : written (out st1) = written (out st) ++ visible pre).
      { destruct (_ <=? WRAP_COLS).
        - inversion H1; subst. cbn [out].
          rewrite written_app, written_write. reflexivity.
        - apply (wrap_text_visible _ _ _ _ _ H1). }
      rewrite Hw, Htext, visible_app, <- app_assoc. reflexivity.
    + destruct (contains SP (c :: buffer) && (10 <? len (c :: buffer))) eqn:Hsp.
      * rewrite process_buffer_space in H by assumption. cbv zeta in H.
        apply andb_true_iff in Hsp as [Hsp _].
        destruct (rfind_from_split SP (c :: buffer) 0 ltac:(lia) Hsp)
          as (pre & post & Htext & Hidx).
        fold (rfind SP (c :: buffer)) in Hidx. rewrite Z.add_0_l in Hidx.
        rewrite Hidx, Htext in H.
        rewrite slice_to_app, slice_from_app in H.
        destruct (wrap_text AtSpace (wrap_text_fuel pre) false 1 pre st)
          as [st1| |] eqn:H1; try discriminate.
        cbn [bind] in H. rewrite (IH _ _ _ _ H).
        rewrite (wrap_text_visible _ _ _ _ _ H1), Htext, visible_app, <- app_assoc.
        reflexivity.
      * rewrite process_buffer_wait in H by assumption.
        inversion H; subst. reflexivity.
Qed.

Lemma stream_chunks_visible chunks : forall full_text buffer st full' buffer' st',
  stream_chunks false 1 chunks full_text buffer st = Ok (full', buffer', st') ->
  written (out st') ++ visible buffer'
  = written (out st) ++ visible buffer ++ visible (concat chunks).
Proof.
  induction chunks as [|chunk chunks IH]; intros full_text buffer st full' buffer' st' H.
  - inversion H; subst. simpl. rewrite app_nil_r. reflexivity.
  - cbn [stream_chunks] in H.
    destruct (process_buffer _ false 1 (buffer ++ chunk) st) as [[b st1]| |] eqn:Hp;
      try discriminate.
    simpl bind in H. rewrite (IH _ _ _ _ _ _ H).
    rewrite app_assoc, (process_buffer_visible _ _ _ _ _ Hp).
    simpl concat. rewrite !visible_app, <- !app_assoc. reflexivity.
Qed.

(** With pagination off the calls of [display_streaming] hold the visible
    characters of the text. *)
Lemma display_streaming_visible (text_generator : list str) (page_lines : Z) :
  exists calls,
    display_streaming false text_generator page_lines
    = Ok (calls, concat text_generator) /\
    written calls = visible (concat text_generator).
Proof.
  rewrite display_streaming_off. unfold display_streaming.
  destruct (stream_chunks_total false 1 text_generator ltac:(lia) [] []
              (mkFmt [] 0 0)) as (buffer & st & Hs & _); [reflexivity|].
  simpl app in Hs. rewrite Hs. unfold bind at 1. cbv beta iota.
  destruct (wrap_text_total AtEnd false 1 buffer st ltac:(lia)) as (st1 & Hf & _).
  rewrite Hf. simpl bind. eexists. split; [reflexivity|].
  rewrite written_app, written_writeln. simpl. rewrite app_nil_r.
  rewrite (wrap_text_visible _ _ _ _ _ Hf).
  rewrite (stream_chunks_visible _ _ _ _ _ _ _ Hs). reflexivity.
Qed.

(** X4. For chunks whose characters are all in Latin-1 and with pagination
    off, [display_streaming] returns the concatenation of the chunks, and
    the texts it passes to [write] and [writeln] hold every visible
    character of it, once and in order, however the text is cut into
    chunks: chunk boundaries move line breaks and spaces only.  The serial
    transport sends each of these texts as it is.  (A character outside
    Latin-1 is not covered: the transports send a question mark for it.) *)
Theorem display_streaming_keeps_visible_characters
  (chunks : list (list Z)) (page_lines : Z) :
  Forall (Forall (fun cp => 0 <= cp < 256)) chunks ->
  let text_generator := map Unicode.to_str chunks in
  exists calls,
    display_streaming false text_generator page_lines
    = Ok (calls, concat text_generator) /\
    map Unicode.of_str text_generator = chunks /\
    written calls = visible (concat text_generator) /\
    Forall (fun c => Unicode.write_data (Unicode.of_str (render c))
                     = Unicode.of_str (render c)) calls.
Proof.
  intros Hl text_generator.
  assert (Hback : map Unicode.of_str text_generator = chunks).
  { unfold text_generator. clear text_generator. rewrite map_map.
    induction Hl as [|c chunks Hc _ IH]; [reflexivity|].
    simpl. rewrite IH, (LatinText.of_to_str c Hc). reflexivity. }
  destruct (display_streaming_visible text_generator page_lines)
    as (calls & H1 & H2).
  exists calls. split; [exact H1|]. split; [exact Hback|]. split; [exact H2|].
  apply Forall_forall. intros c _. apply LatinText.write_data_of_str.
Qed.

Lemma display_streaming_keeps_visible_characters_witness :
  exists calls,
    display_streaming false [lit "un deux trois "; lit "quatre"] 18
    = Ok (calls, lit "un deux trois quatre") /\
    written calls = lit "undeuxtroisquatre".
Proof.
  destruct (display_streaming_keeps_visible_characters
              [Unicode.of_str (lit "un deux trois ");
               Unicode.of_str (lit "quatre")] 18)
    as (calls & H1 & _ & H2 & _).
  - repeat (constructor; [apply LatinText.of_str_range|]). constructor.
  - exists calls. split; [exact H1|exact H2].
Defined.

(** X5. With pagination off, [display_wrapped] sends the lines of [wrap_40],
    one [writeln] each: none is wider than 40 columns and together they
    hold the visible characters of the text, in order. *)
Theorem display_wrapped_writes_wrapped_lines (text : str) (page_lines : Z) :
  exists lines,
    wrap_40 text WRAP_COLS = Ok lines /\
    display_wrapped false text page_lines = Ok (map Writeln lines) /\
    Forall (fun line => len line <= WRAP_COLS) lines /\
    written (map Writeln lines) = visible text.
Proof.
  destruct (wrap_40_total text WRAP_COLS ltac:(unfold WRAP_COLS; lia))
    as (lines & Hw & Hfit).
  exists lines. split; [exact Hw|]. split.
  - unfold display_wrapped. rewrite Hw. simpl bind.
    rewrite display_lines_unpaged. reflexivity.
  - split; [exact Hfit|].
    assert (Hv : visible (concat lines) = visible text).
    { rewrite (wrap_paragraphs_visible WRAP_COLS _ _ Hw).
      apply visible_split. reflexivity. }
    rewrite <- Hv. clear. induction lines as [|l lines IH]; [reflexivity|].
    change (map Writeln (l :: lines)) with ([Writeln l] ++ map Writeln lines).
    rewrite written_app, written_writeln, IH. simpl. symmetry. apply visible_app.
Qed.

End DisplayMore.

Module HistoryMore.
Import History HistoryFile PyStrFacts HistoryFacts.

Lemma total_chars_app l1 l2 : total_chars (l1 ++ l2) = total_chars l1 + total_chars l2.
Proof. induction l1 as [|m l1 IH]; simpl; [reflexivity|]. rewrite IH. lia. Qed.

Lemma caps_nonneg s l : caps_hold s l -> 0 <= max_turns s /\ 0 <= max_chars s.
Proof.
  intros [H1 H2]. pose proof (len_nonneg l). pose proof (total_chars_nonneg l). lia.
Qed.

(** A list within both caps is left as it is. *)
Lemma trim_list_within_caps s l :
  caps_hold s l -> trim_list (max_turns s) (max_chars s) l = Ok l.
Proof.
  intros Hc. destruct (caps_nonneg s l Hc) as [Hmt Hmc].
  destruct (trim_list_spec (max_turns s) (max_chars s) l Hmt Hmc)
    as (k & Hk & _ & _ & Hmin).
  destruct k as [|k]; [exact Hk|].
  destruct Hc as [H1 H2].
  destruct (Hmin O ltac:(lia)) as [H|H]; rewrite drop_0 in H; lia.
Qed.

Lemma _trim_within_caps s h l :
  h !! messages s = Some l -> caps_hold s l -> _trim s h = Ok h.
Proof.
  intros Hl Hc. unfold _trim. rewrite Hl, (trim_list_within_caps s l Hc). simpl.
  rewrite insert_id by exact Hl. reflexivity.
Qed.

(** X6. No eviction while the caps hold: [_trim] leaves a history within
    both caps exactly as it is, [add] then appends the message and nothing
    else, and trimming twice is trimming once. *)
Theorem history_untouched_within_caps (s : HistoryStore) (h : heap)
  (l : list message) :
  h !! messages s = Some l ->
  (caps_hold s l -> _trim s h = Ok h)
  /\
  (forall role content,
     caps_hold s (l ++ [mk_message role content]) ->
     add role content s h
     = Ok (<[messages s := l ++ [mk_message role content]]> h))
  /\
  (0 <= max_turns s -> 0 <= max_chars s ->
   exists h1, _trim s h = Ok h1 /\ _trim s h1 = Ok h1).
Proof.
  intros Hl. split; [|split].
  - apply _trim_within_caps, Hl.
  - intros role content Hc. unfold add. rewrite Hl.
    apply (_trim_within_caps s _ (l ++ [mk_message role content]));
      [apply lookup_insert_eq|exact Hc].
  - intros Hmt Hmc. destruct (_trim_spec s h l Hmt Hmc Hl) as (k & Hk & Hc & _).
    eexists. split; [exact Hk|].
    apply (_trim_within_caps s _ (drop k l)); [apply lookup_insert_eq|exact Hc].
Qed.

Lemma history_untouched_within_caps_witness :
  add (lit "user") (lit "hi") (mkStore 20 16000 1%positive) heap0
  = Ok (<[1%positive := history0 ++ [mk_message (lit "user") (lit "hi")]]> heap0).
Proof.
  destruct (history_untouched_within_caps (mkStore 20 16000 1%positive) heap0
              history0 eq_refl) as (_ & H & _).
  apply H. split; vm_compute; discriminate.
Defined.

Lemma content_len_mk role content : content_len (mk_message role content) = len content.
Proof. unfold content_len, mk_message. rewrite lookup_insert_eq. reflexivity. Qed.

(** X7. The message just added survives the trim exactly when its content
    fits [max_chars] on its own (the store keeping at least one turn): it is
    then the last message of the history, preceded by the most recent of
    the older ones; a message whose content alone is over [max_chars] is
    evicted with everything before it, and the history is left empty. *)
Theorem history_add_keeps_or_drops_new_message (s : HistoryStore) (h : heap)
  (l : list message) (role content : str) :
  1 <= max_turns s -> 0 <= max_chars s ->
  h !! messages s = Some l ->
  exists l',
    add role content s h = Ok (<[messages s := l']> h) /\
    (len content <= max_chars s ->
     exists k : nat, (k <= length l)%nat /\
       l' = drop k l ++ [mk_message role content]) /\
    (max_chars s < len content -> l' = []).
Proof.
  intros Hmt Hmc Hl. set (m := mk_message role content).
  unfold add. rewrite Hl.
  destruct (_trim_spec s (<[messages s := l ++ [m]]> h) (l ++ [m])
              ltac:(lia) Hmc) as (k & Hk & [Hc1 Hc2] & Hmin);
    [apply lookup_insert_eq|].
  rewrite insert_insert_eq in Hk. exists (drop k (l ++ [m])).
  split; [exact Hk|]. split.
  - intros Hfit. exists k.
    assert (Hle : (k <= length l)%nat).
    { destruct (Nat.le_gt_cases k (length l)) as [H|H]; [exact H|exfalso].
      destruct (Hmin (length l) H) as [Hv|Hv];
        rewrite drop_app_length in Hv; simpl in Hv.
      - unfold len in Hv. simpl in Hv. lia.
      - unfold m in Hv. rewrite content_len_mk in Hv. lia. }
    split; [exact Hle|]. rewrite drop_app_le by exact Hle. reflexivity.
  - intros Hbig. destruct (Nat.le_gt_cases k (length l)) as [H|H].
    + exfalso. rewrite drop_app_le in Hc2 by exact H.
      rewrite total_chars_app in Hc2. simpl in Hc2.
      unfold m in Hc2. rewrite content_len_mk in Hc2.
      pose proof (total_chars_nonneg (drop k l)). lia.
    + apply drop_ge. rewrite length_app. simpl. lia.
Qed.

Lemma history_add_keeps_or_drops_new_message_witness :
  exists l',
    add (lit "assistant") (lit "123456") store0 heap0
    = Ok (<[1%positive := l']> heap0) /\ l' = [].
Proof.
  destruct (history_add_keeps_or_drops_new_message store0 heap0 history0
              (lit "assistant") (lit "123456")) as (l' & H1 & _ & H3).
  - simpl. lia.
  - simpl. lia.
  - reflexivity.
  - exists l'. split; [exact H1|]. apply H3. vm_compute. reflexivity.
Defined.

Lemma trim_turns_negative cap l : cap < 0 -> trim_turns cap l = Raise IndexError.
Proof.
  intros Hc. induction l as [|m l IH]; simpl.
  - assert (E : (cap <? len (@nil message)) = true)
      by (apply Z.ltb_lt; unfold len; simpl; lia).
    rewrite E. reflexivity.
  - assert (E : (cap <? len (m :: l)) = true)
      by (apply Z.ltb_lt; pose proof (len_nonneg (m :: l)); lia).
    rewrite E. exact IH.
Qed.

Lemma trim_chars_negative cap l : forall total,
  cap < 0 -> total = total_chars l -> trim_chars cap total l = [].
Proof.
  induction l as [|m l IH]; intros total Hc ->; simpl.
  - destruct (cap <? 0); reflexivity.
  - pose proof (total_chars_nonneg l). pose proof (content_len_nonneg m).
    assert (E : (cap <? content_len m + total_chars l) = true)
      by (apply Z.ltb_lt; lia).
    rewrite E. apply IH; [exact Hc|lia].
Qed.

(** X8. Caps below zero: with [max_turns < 0] the first loop of [_trim] pops
    from the list until it is empty and then raises [IndexError], so
    [_trim] and [add] raise whatever the history; with [max_chars < 0] (and
    [max_turns >= 0]) every trim empties the history. *)
Theorem history_negative_caps (s : HistoryStore) (h : heap) (l : list message) :
  h !! messages s = Some l ->
  (max_turns s < 0 ->
   _trim s h = Raise IndexError /\
   forall role content, add role content s h = Raise IndexError)
  /\
  (0 <= max_turns s -> max_chars s < 0 ->
   _trim s h = Ok (<[messages s := []]> h) /\
   forall role content,
     add role content s h = Ok (<[messages s := []]> h)).
Proof.
  intros Hl. split.
  - intros Hneg.
    assert (Ht : forall l0, trim_list (max_turns s) (max_chars s) l0 = Raise IndexError).
    { intros l0. unfold trim_list. rewrite trim_turns_negative by lia. reflexivity. }
    split.
    + unfold _trim. rewrite Hl, Ht. reflexivity.
    + intros role content. unfold add, _trim. rewrite Hl, lookup_insert_eq, Ht.
      reflexivity.
  - intros Hmt Hneg.
    assert (Ht : forall l0, trim_list (max_turns s) (max_chars s) l0 = Ok []).
    { intros l0. unfold trim_list.
      destruct (trim_turns_spec (max_turns s * 2) l0 ltac:(lia)) as (k & -> & _).
      simpl. rewrite trim_chars_negative by (try reflexivity; lia). reflexivity. }
    split.
    + unfold _trim. rewrite Hl, Ht. reflexivity.
    + intros role content. unfold add, _trim.
      rewrite Hl, lookup_insert_eq, Ht. simpl. rewrite insert_insert_eq.
      reflexivity.
Qed.

Lemma history_negative_caps_witness :
  _trim (mkStore (-1) 5 1%positive) heap0 = Raise IndexError
  /\ _trim (mkStore 1 (-1) 1%positive) heap0 = Ok (<[1%positive := []]> heap0).
Proof.
  destruct (history_negative_caps (mkStore (-1) 5 1%positive) heap0 history0 eq_refl)
    as [H1 _].
  destruct (history_negative_caps (mkStore 1 (-1) 1%positive) heap0 history0 eq_refl)
    as [_ H2].
  split.
  - apply H1. simpl. lia.
  - apply H2; simpl; lia.
Defined.

Lemma fresh_loc_ne (h : heap) p l : h !! p = Some l -> p <> fresh_loc h.
Proof. intros H E. rewrite E, fresh_loc_None in H. discriminate. Qed.

Lemma _trim_other s (h h' : heap) p :
  p <> messages s -> _trim s h = Ok h' -> h' !! p = h !! p.
Proof.
  intros Hne. unfold _trim. destruct (h !! messages s); [|discriminate].
  destruct (trim_list _ _ _); simpl; try discriminate.
  intros H. inversion H; subst. apply lookup_insert_ne. congruence.
Qed.

Lemma add_other role content s (h h' : heap) p :
  p <> messages s -> add role content s h = Ok h' -> h' !! p = h !! p.
Proof.
  intros Hne. unfold add. destruct (h !! messages s); [|discriminate].
  intros H. rewrite (_trim_other _ _ _ p Hne H).
  apply lookup_insert_ne. congruence.
Qed.

(** X9. The list [get_messages] returns is a snapshot: whatever the store
    does afterwards ([add], [_trim], [save], [load], [reset]) the returned
    list still holds the messages it held. *)
Theorem get_messages_is_a_snapshot (s : HistoryStore) (h : heap) (r : loc)
  (h' : heap) (l : list message) :
  h !! messages s = Some l ->
  get_messages s h = Some (r, h') ->
  h' !! r = Some l /\
  (forall role content h'',
     add role content s h' = Ok h'' -> h'' !! r = Some l) /\
  (forall h'', _trim s h' = Ok h'' -> h'' !! r = Some l) /\
  (forall writable f h'' f',
     save writable s h' f = Ok (h'', f') -> h'' !! r = Some l) /\
  (forall data s' h'',
     load data s h' = Ok (s', h'') -> h'' !! r = Some l /\ messages s' <> r) /\
  (forall deletable f,
     let '(s', h'', _) := reset deletable s h' f in
     h'' !! r = Some l /\ h'' !! messages s' = Some []).
Proof.
  intros Hl Hg. unfold get_messages in Hg. rewrite Hl in Hg.
  inversion Hg; subst r h'. clear Hg.
  set (r := fresh_loc h).
  assert (Hne : r <> messages s).
  { intros E. pose proof (fresh_loc_None h) as Hf. fold r in Hf.
    rewrite E, Hl in Hf. discriminate. }
  assert (Hr : (<[r := l]> h) !! r = Some l) by apply lookup_insert_eq.
  split; [exact Hr|]. split; [|split; [|split; [|split]]].
  - intros role content h'' H. rewrite (add_other _ _ _ _ _ r Hne H). exact Hr.
  - intros h'' H. rewrite (_trim_other _ _ _ r Hne H). exact Hr.
  - intros writable f h'' f' H. unfold save in H.
    destruct (_trim s (<[r := l]> h)) as [h1| |] eqn:Ht; try discriminate.
    simpl in H. inversion H; subst. rewrite (_trim_other _ _ _ r Hne Ht). exact Hr.
  - intros data s' h'' H. unfold load in H.
    set (r2 := fresh_loc (<[r := l]> h)) in *.
    assert (Hne2 : r <> r2) by (apply (fresh_loc_ne _ _ l), Hr).
    destruct data as [d|].
    + destruct (_trim _ _) as [h1| |] eqn:Ht; try discriminate.
      simpl in H. inversion H; subst.
      split; [|simpl; congruence].
      rewrite (_trim_other (mkStore (max_turns s) (max_chars s) r2) _ _ r Hne2 Ht).
      rewrite lookup_insert_ne by congruence. exact Hr.
    + inversion H; subst. split; [|simpl; congruence].
      rewrite lookup_insert_ne by congruence. exact Hr.
  - intros deletable f. unfold reset.
    set (r2 := fresh_loc (<[r := l]> h)).
    assert (Hne2 : r <> r2) by (apply (fresh_loc_ne _ _ l), Hr).
    split; [|apply lookup_insert_eq].
    rewrite lookup_insert_ne by congruence. exact Hr.
Qed.

Lemma get_messages_is_a_snapshot_witness :
  (<[fresh_loc heap0 := history0]> heap0) !! fresh_loc heap0 = Some history0.
Proof.
  exact (proj1 (get_messages_is_a_snapshot store0 heap0 (fresh_loc heap0)
                  (<[fresh_loc heap0 := history0]> heap0) history0
                  eq_refl eq_refl)).
Defined.

(** X10. What [save] writes, [load] reads back: after a [save] that could
    write the file, a [load] by a store with the same caps holds the
    messages the saving store holds, and its trim removes nothing. *)
Theorem history_save_then_load (s s2 : HistoryStore) (h h1 h2 : heap)
  (l : list message) (f f1 : file) :
  0 <= max_turns s -> 0 <= max_chars s ->
  max_turns s2 = max_turns s -> max_chars s2 = max_chars s ->
  h !! messages s = Some l ->
  save true s h f = Ok (h1, f1) ->
  f1 = h1 !! messages s /\
  exists s3 h3,
    load f1 s2 h2 = Ok (s3, h3) /\
    h3 !! messages s3 = h1 !! messages s /\
    max_turns s3 = max_turns s /\ max_chars s3 = max_chars s.
Proof.
  intros Hmt Hmc E1 E2 Hl Hs. unfold save in Hs.
  destruct (_trim_spec s h l Hmt Hmc Hl) as (k & Hk & Hc & _).
  rewrite Hk in Hs. simpl in Hs. inversion Hs; subst h1 f1. clear Hs.
  split; [reflexivity|]. rewrite lookup_insert_eq.
  unfold load. simpl default.
  set (r := fresh_loc h2). set (s3 := mkStore (max_turns s2) (max_chars s2) r).
  assert (Hc3 : caps_hold s3 (drop k l))
    by (unfold caps_hold, s3; simpl; rewrite E1, E2; exact Hc).
  rewrite (_trim_within_caps s3 (<[r := drop k l]> h2) (drop k l)
             ltac:(apply lookup_insert_eq) Hc3).
  simpl. exists s3, (<[r := drop k l]> h2). split; [reflexivity|].
  split; [apply lookup_insert_eq|]. simpl. split; assumption.
Qed.

Lemma history_save_then_load_witness :
  exists h1 f1 s3 h3,
    save true store0 heap0 None = Ok (h1, f1) /\
    load f1 store0 heap0 = Ok (s3, h3) /\
    h3 !! messages s3 = h1 !! messages store0.
Proof.
  destruct (save true store0 heap0 None) as [[h1 f1]| |] eqn:E; try discriminate.
  destruct (history_save_then_load store0 store0 heap0 h1 heap0 history0 None f1)
    as (_ & s3 & h3 & H1 & H2 & _); try reflexivity; try (simpl; lia).
  - exact E.
  - exists h1, f1, s3, h3. repeat split; assumption.
Defined.

End HistoryMore.

Module SerialMore.
Import SerialMinitel PyStrFacts SerialFacts.

(** X11. Writing a text in pieces sends the same bytes and takes the same
    time as writing it at once, on an open port and on a closed one; a line
    is its text followed by carriage return and line feed. *)
Theorem serial_write_in_pieces (a b : str) (s : t) :
  write (a ++ b) s = write b (write a s) /\
  tx (writeln a s) = tx (write [CR; LF] (write a s)).
Proof.
  split.
  - unfold write, is_open. rewrite !sanitize_latin1_id.
    destruct (port_open s) eqn:Ho; simpl; [|rewrite Ho; reflexivity].
    destruct (0 <? char_delay_ms s) eqn:Hd; simpl; rewrite Ho; simpl; rewrite Hd.
    + unfold sleep, send. simpl. rewrite len_app, app_assoc. f_equal. lia.
    + unfold send. simpl. rewrite app_assoc. reflexivity.
  - rewrite writeln_tx, !write_tx.
    destruct (write_frame a s) as (Ho & _). rewrite Ho.
    destruct (is_open s); [rewrite app_assoc|]; reflexivity.
Qed.

Lemma typed_text_removelast l : typed_text l -> typed_text (removelast l).
Proof.
  unfold typed_text. induction l as [|c l IH]; intros H; [exact H|].
  inversion H; subst. destruct l as [|d l]; [constructor|].
  change (removelast (c :: d :: l)) with (c :: removelast (d :: l)).
  constructor; [assumption|]. apply IH. assumption.
Qed.

Lemma len_removelast {A} (l : list A) : len (removelast l) <= len l.
Proof.
  unfold len. induction l as [|c l IH]; [simpl; lia|].
  destruct l as [|d l]; [simpl; lia|].
  change (removelast (c :: d :: l)) with (c :: removelast (d :: l)).
  simpl length in *. lia.
Qed.

Lemma writeln_line_delay line s : line_delay_ms (writeln line s) = line_delay_ms s.
Proof.
  unfold writeln. destruct (write_frame (line ++ [CR; LF]) s) as (_ & _ & Hl & _).
  destruct (0 <? _); simpl; exact Hl.
Qed.

Lemma read_byte_shape timeout s :
  (fst (read_byte timeout s) = None /\ rx (snd (read_byte timeout s)) = rx s) \/
  (exists arrival byte,
     rx s = (arrival, byte) :: rx (snd (read_byte timeout s)) /\
     fst (read_byte timeout s) = Some byte).
Proof.
  unfold read_byte. destruct (negb (is_open s)); [left; split; reflexivity|].
  destruct (rx s) as [|[arrival byte] more] eqn:E; [left; split; simpl; auto|].
  destruct (arrival <=? clock s + timeout).
  - right. exists arrival, byte. split; reflexivity.
  - left. split; simpl; auto.
Qed.

Lemma read_byte_frame timeout s :
  is_open (snd (read_byte timeout s)) = is_open s /\
  line_delay_ms (snd (read_byte timeout s)) = line_delay_ms s /\
  char_delay_ms (snd (read_byte timeout s)) = char_delay_ms s /\
  tx (snd (read_byte timeout s)) = tx s.
Proof.
  unfold read_byte. destruct (negb (is_open s)); [repeat split|].
  destruct (rx s) as [|[arrival byte] more]; [repeat split|].
  destruct (arrival <=? clock s + timeout); repeat split.
Qed.

Lemma read_byte_clock_le timeout s :
  0 <= timeout ->
  clock s <= clock (snd (read_byte timeout s)) <= clock s + timeout.
Proof.
  intros Ht. unfold read_byte. destruct (negb (is_open s)); [simpl; lia|].
  destruct (rx s) as [|[arrival byte] more]; [simpl; lia|].
  destruct (arrival <=? clock s + timeout) eqn:E; simpl; [|lia].
  apply Z.leb_le in E. lia.
Qed.

(** One pass of the loop of [read_line]: the bytes it takes come off the
    front of the line, and the buffer stays a typed text. *)
Lemma body_buffer echo buffer s :
  Forall (fun p => 0 <= snd p < 256) (rx s) -> typed_text buffer ->
  exists consumed,
    rx s = consumed ++ rx (snd (read_line_body echo buffer s)) /\
    match fst (read_line_body echo buffer s) with
    | Return line => line = Some buffer
    | Continue buffer' =>
        typed_text buffer' /\ len buffer' <= len buffer + len consumed
    end.
Proof.
  intros Hrx Hb. unfold read_line_body.
  destruct (read_byte_shape 100 s) as [[Hn Hr]|(arrival & byte & Hr & Hs)];
    destruct (read_byte 100 s) as [o s1]; simpl in *; subst o.
  - exists []. simpl. split; [symmetry; exact Hr|]. split; [exact Hb|]. unfold len; simpl; lia.
  - assert (Hbyte : 0 <= byte < 256).
    { rewrite Hr in Hrx. inversion Hrx; subst. assumption. }
    destruct ((byte =? 13) || (byte =? 10)) eqn:Et.
    + destruct (read_byte_shape 50 s1) as [[Hn2 Hr2]|(a2 & b2 & Hr2 & Hs2)];
        destruct (read_byte 50 s1) as [o2 s2]; simpl in *.
      * exists [(arrival, byte)]. split; [|reflexivity].
        rewrite Hr. simpl. f_equal.
        destruct echo; [destruct (writeln_frame [] s2) as (_ & -> & _)|]; congruence.
      * exists [(arrival, byte); (a2, b2)]. split; [|reflexivity].
        rewrite Hr, Hr2. simpl. do 2 f_equal.
        destruct echo; [destruct (writeln_frame [] s2) as (_ & -> & _)|]; reflexivity.
    + assert (Hw : forall text, rx (if echo then write text s1 else s1) = rx s1).
      { intros text. destruct echo; [apply write_frame|reflexivity]. }
      destruct ((byte =? 8) || (byte =? 127)) eqn:Ee.
      * destruct (truthy buffer); simpl.
        -- exists [(arrival, byte)]. rewrite Hw. split; [exact Hr|].
           split; [apply typed_text_removelast, Hb|].
           pose proof (len_removelast buffer). unfold len in *. simpl. lia.
        -- exists [(arrival, byte)]. split; [exact Hr|]. split; [exact Hb|].
           unfold len. simpl. lia.
      * assert (Hgood : forall b, 32 <= b < 256 -> b <> 127 ->
                  typed_text (buffer ++ [chr b])).
        { intros b Hb1 Hb2. apply Forall_app. split; [exact Hb|].
          constructor; [|constructor]. rewrite code_chr by lia. lia. }
        apply orb_false_iff in Ee. destruct Ee as [_ E127]. apply Z.eqb_neq in E127.
        destruct ((32 <=? byte) && (byte <? 127)) eqn:Ep.
        -- simpl. exists [(arrival, byte)]. rewrite Hw. split; [exact Hr|].
           apply andb_true_iff in Ep. destruct Ep as [E1 E2].
           apply Z.leb_le in E1. split; [apply Hgood; lia|].
           rewrite len_app. unfold len. simpl. lia.
        -- destruct (128 <=? byte) eqn:Ex; simpl.
           ++ exists [(arrival, byte)]. rewrite Hw. split; [exact Hr|].
              apply Z.leb_le in Ex. split; [apply Hgood; lia|].
              rewrite len_app. unfold len. simpl. lia.
           ++ exists [(arrival, byte)]. split; [exact Hr|]. split; [exact Hb|].
              unfold len. simpl. lia.
Qed.

Lemma loop_buffer fuel : forall start timeout echo buffer s line s',
  Forall (fun p => 0 <= snd p < 256) (rx s) -> typed_text buffer ->
  read_line_loop fuel start timeout echo buffer s = Ok (line, s') ->
  exists consumed,
    rx s = consumed ++ rx s' /\
    forall l, line = Some l ->
      typed_text l /\ len l <= len buffer + len consumed.
Proof.
  induction fuel as [|f IH]; intros start timeout echo buffer s line s' Hrx Hb H.
  - simpl in H. destruct (clock s - start <? timeout); [discriminate|].
    inversion H; subst. exists []. split; [reflexivity|].
    intros l Hl. destruct (truthy buffer); [|discriminate].
    inversion Hl; subst. split; [exact Hb|]. unfold len; simpl; lia.
  - simpl in H. destruct (clock s - start <? timeout).
    + destruct (body_buffer echo buffer s Hrx Hb) as (c1 & Hc1 & Hm).
      destruct (read_line_body echo buffer s) as [[line1|buffer1] s1]; simpl in *.
      * inversion H; subst. exists c1. split; [exact Hc1|].
        intros l Hl. inversion Hl; subst. split; [exact Hb|].
        pose proof (len_nonneg c1). lia.
      * destruct Hm as [Hb1 Hlen1].
        assert (Hrx1 : Forall (fun p => 0 <= snd p < 256) (rx s1)).
        { rewrite Hc1 in Hrx. apply Forall_app in Hrx. apply Hrx. }
        destruct (IH _ _ _ _ _ _ _ Hrx1 Hb1 H) as (c2 & Hc2 & Hl2).
        exists (c1 ++ c2). split; [rewrite <- app_assoc, <- Hc2; exact Hc1|].
        intros l Hl. destruct (Hl2 l Hl) as [Ht Hn]. split; [exact Ht|].
        rewrite len_app. lia.
    + inversion H; subst. exists []. split; [reflexivity|].
      intros l Hl. destruct (truthy buffer); [|discriminate].
      inversion Hl; subst. split; [exact Hb|]. unfold len; simpl; lia.
Qed.

(** X12. The line [read_line] hands back holds no control character and no
    delete character, whatever bytes come in, and has at most as many
    characters as bytes were taken off the line; the bytes are taken from
    the front of what is received, in order. *)
Theorem read_line_returns_typed_text (timeout : Z) (echo : bool) (s : t) :
  Forall (fun p => 0 <= snd p < 256) (rx s) ->
  exists line s' consumed,
    read_line timeout echo s = Ok (line, s') /\
    rx s = consumed ++ rx s' /\
    forall l, line = Some l ->
      Forall (fun c => 32 <= code c /\ code c <> 127) l /\
      len l <= len consumed.
Proof.
  intros Hrx. destruct (read_line_total timeout echo s) as ([line s'] & Hr).
  unfold read_line in *. destruct (negb (is_open s)).
  - inversion Hr; subst. exists None, s', [].
    split; [reflexivity|]. split; [reflexivity|]. intros l Hl. discriminate.
  - destruct (loop_buffer _ _ _ _ _ _ _ _ Hrx (List.Forall_nil _) Hr) as (c & Hc & Hl).
    exists line, s', c. split; [exact Hr|]. split; [exact Hc|].
    intros l E. destruct (Hl l E) as [H1 H2]. split; [exact H1|].
    unfold len in H2 at 2. simpl in H2. lia.
Qed.

Lemma read_line_returns_typed_text_witness :
  exists s',
    read_line 1000 false (serial_with [7; 65; 27; 200; 8; 66; 13]) = Ok (Some (lit "AB"), s').
Proof.
  destruct (read_line_returns_typed_text 1000 false (serial_with [7; 65; 27; 200; 8; 66; 13]))
    as (line & s' & consumed & H & _).
  - repeat constructor; simpl; lia.
  - exists s'. rewrite H. vm_compute in H. inversion H. reflexivity.
Defined.

Lemma body_clock echo buffer s :
  let s' := snd (read_line_body echo buffer s) in
  clock s <= clock s' <= clock s + 150 + echo_cost echo s /\
  char_delay_ms s' = char_delay_ms s /\ line_delay_ms s' = line_delay_ms s.
Proof.
  unfold read_line_body.
  pose proof (read_byte_clock_le 100 s ltac:(lia)) as Hc1.
  destruct (read_byte_frame 100 s) as (_ & Hl1 & Hd1 & _).
  destruct (read_byte 100 s) as [o s1]. simpl in Hc1, Hl1, Hd1.
  assert (Hw : forall text, len text <= 3 ->
            clock s1 <= clock (if echo then write text s1 else s1)
              <= clock s1 + echo_cost echo s /\
            char_delay_ms (if echo then write text s1 else s1) = char_delay_ms s /\
            line_delay_ms (if echo then write text s1 else s1) = line_delay_ms s).
  { intros text Ht. unfold echo_cost. destruct echo.
    - pose proof (write_clock text s1) as Hc. rewrite Hd1 in Hc.
      destruct (write_frame text s1) as (_ & _ & Hl & Hd & _).
      rewrite Hl, Hd. split; [|split; assumption].
      pose proof (len_nonneg text).
      assert (Z.max 0 (char_delay_ms s) * len text <= 3 * Z.max 0 (char_delay_ms s)) by nia.
      lia.
    - split; [lia|split; assumption]. }
  destruct o as [byte|]; [|simpl; unfold echo_cost; destruct echo; lia].
  destruct ((byte =? 13) || (byte =? 10)).
  - pose proof (read_byte_clock_le 50 s1 ltac:(lia)) as Hc2.
    destruct (read_byte_frame 50 s1) as (_ & Hl2 & Hd2 & _).
    destruct (read_byte 50 s1) as [o2 s2]. simpl in *.
    unfold echo_cost. destruct echo; [|lia].
    rewrite writeln_line_delay.
    destruct (writeln_frame [] s2) as (_ & _ & Hd & _). rewrite Hd.
    split; [|split; congruence].
    unfold writeln. change ([] ++ [CR; LF]) with [CR; LF].
    pose proof (write_clock [CR; LF] s2) as Hc.
    destruct (write_frame [CR; LF] s2) as (_ & _ & Hl & _).
    change (len [CR; LF]) with 2 in Hc. rewrite Hl.
    rewrite Hd2, Hd1 in Hc. rewrite Hl2, Hl1.
    destruct (0 <? line_delay_ms s) eqn:E; simpl.
    + apply Z.ltb_lt in E. lia.
    + lia.
  - destruct ((byte =? 8) || (byte =? 127)).
    + destruct (truthy buffer); simpl.
      * destruct (Hw [BS; SP; BS]) as (H1 & H2 & H3); [unfold len; simpl; lia|].
        split; [lia|split; assumption].
      * unfold echo_cost. destruct echo; lia.
    + destruct ((32 <=? byte) && (byte <? 127)); simpl.
      * destruct (Hw [chr byte]) as (H1 & H2 & H3); [unfold len; simpl; lia|].
        split; [lia|split; assumption].
      * destruct (128 <=? byte); simpl.
        -- destruct (Hw [chr byte]) as (H1 & H2 & H3); [unfold len; simpl; lia|].
           split; [lia|split; assumption].
        -- unfold echo_cost. destruct echo; lia.
Qed.

Lemma loop_clock fuel : forall start timeout echo buffer s line s',
  read_line_loop fuel start timeout echo buffer s = Ok (line, s') ->
  clock s <= clock s' /\
  (s' = s \/ clock s' < start + timeout + 150 + echo_cost echo s).
Proof.
  induction fuel as [|f IH]; intros start timeout echo buffer s line s' H.
  - simpl in H. destruct (clock s - start <? timeout); [discriminate|].
    inversion H; subst. split; [lia|left; reflexivity].
  - simpl in H. destruct (clock s - start <? timeout) eqn:E.
    + apply Z.ltb_lt in E.
      pose proof (body_clock echo buffer s) as (Hc & Hd & Hl).
      destruct (read_line_body echo buffer s) as [[line1|buffer1] s1]; simpl in *.
      * inversion H; subst. split; [lia|right; lia].
      * destruct (IH _ _ _ _ _ _ _ H) as [H1 H2].
        assert (Ee : echo_cost echo s1 = echo_cost echo s)
          by (unfold echo_cost; rewrite Hd, Hl; reflexivity).
        rewrite Ee in H2. split; [lia|right].
        destruct H2 as [->|H2]; lia.
    + inversion H; subst. split; [lia|left; reflexivity].
Qed.

(** X13. [read_line] keeps its deadline: it returns, and no later than 150 ms
    after the timeout (one poll of 100 ms and the look at the byte after a
    terminator, 50 ms) plus the time of one echo; with a timeout that is not
    positive it returns [None] at once and touches nothing. *)
Theorem read_line_keeps_deadline (timeout : Z) (echo : bool) (s : t) :
  exists line s',
    read_line timeout echo s = Ok (line, s') /\
    clock s <= clock s' /\
    (timeout <= 0 -> line = None /\ s' = s) /\
    (0 < timeout ->
     clock s' < clock s + timeout + 150
                + (if echo
                   then 3 * Z.max 0 (char_delay_ms s) + Z.max 0 (line_delay_ms s)
                   else 0)).
Proof.
  destruct (read_line_total timeout echo s) as ([line s'] & Hr).
  exists line, s'. split; [exact Hr|].
  unfold read_line in Hr. destruct (negb (is_open s)).
  - inversion Hr; subst. split; [lia|]. split; [auto|].
    intros Ht. destruct echo; lia.
  - destruct (loop_clock _ _ _ _ _ _ _ _ Hr) as [H1 H2].
    split; [exact H1|]. split.
    + intros Ht. rewrite loop_deadline in Hr by lia.
      simpl in Hr. inversion Hr; subst. auto.
    + intros Ht. fold (echo_cost echo s). destruct H2 as [->|H2]; [|exact H2].
      unfold echo_cost. destruct echo; lia.
Qed.

Lemma read_line_keeps_deadline_witness :
  exists line s',
    read_line 0 true (serial_with [65; 13]) = Ok (line, s') /\ line = None.
Proof.
  destruct (read_line_keeps_deadline 0 true (serial_with [65; 13]))
    as (line & s' & H & _ & H0 & _).
  exists line, s'. split; [exact H|]. apply H0. lia.
Defined.

End SerialMore.

Module UnicodeFacts.
Import PyStrFacts.

Lemma encode_latin1_fixed text :
  Forall (fun cp => cp < 256) text -> Unicode.encode_latin1 text = text.
Proof.
  induction 1 as [|cp text Hcp _ IH]; [reflexivity|].
  simpl. rewrite IH. apply Z.ltb_lt in Hcp. rewrite Hcp. reflexivity.
Qed.

Lemma encode_latin1_range text :
  Forall (fun cp => cp < 256) (Unicode.encode_latin1 text).
Proof.
  induction text as [|cp text IH]; constructor; [|exact IH].
  destruct (cp <? 256) eqn:E; [apply Z.ltb_lt in E; exact E|lia].
Qed.

(** X14. [sanitize_latin1] on any text: the result has the length of the
    text (a line wrapped to a width keeps to it once sanitised), every
    character of it is in Latin-1, characters of Latin-1 are kept and every
    other one becomes a question mark at its place; sanitising twice is
    sanitising once, so the second encoding in [SerialMinitel.write] sends
    the sanitised text as it is; on a Latin-1 string it is the identity. *)
Theorem sanitize_latin1_on_unicode (text : list Z) :
  len (Unicode.sanitize_latin1 text) = len text /\
  Forall (fun cp => cp < 256) (Unicode.sanitize_latin1 text) /\
  (forall (i : nat) cp, text !! i = Some cp ->
     Unicode.sanitize_latin1 text !! i = Some (if cp <? 256 then cp else 63)) /\
  Unicode.sanitize_latin1 (Unicode.sanitize_latin1 text)
  = Unicode.sanitize_latin1 text /\
  Unicode.write_data text = Unicode.sanitize_latin1 text /\
  (Unicode.sanitize_latin1 text = text <-> Forall (fun cp => cp < 256) text) /\
  (forall s : str,
     Unicode.sanitize_latin1 (Unicode.of_str s)
     = Unicode.of_str (sanitize_latin1 s)).
Proof.
  unfold Unicode.write_data, Unicode.sanitize_latin1, Unicode.decode_latin1.
  split; [unfold Unicode.encode_latin1, len; rewrite length_map; reflexivity|].
  split; [apply encode_latin1_range|].
  split; [intros i cp Hi; unfold Unicode.encode_latin1;
          rewrite list_lookup_fmap, Hi; reflexivity|].
  split; [apply encode_latin1_fixed, encode_latin1_range|].
  split; [apply encode_latin1_fixed, encode_latin1_range|].
  split.
  - split; [intros <-; apply encode_latin1_range|apply encode_latin1_fixed].
  - intros s. rewrite sanitize_latin1_id. apply encode_latin1_fixed.
    unfold Unicode.of_str. apply Forall_map, Forall_forall. intros c _.
    unfold code. pose proof (N_ascii_bounded c). simpl. lia.
Qed.

End UnicodeFacts.

Module PortFacts.
Import PyText.

Lemma filter_partition {A} (f : A -> bool) (l : list A) :
  Permutation (List.filter f l ++ List.filter (fun x => negb (f x)) l) l.
Proof.
  induction l as [|x l IH]; [constructor|].
  simpl. destruct (f x); simpl.
  - constructor. exact IH.
  - rewrite <- Permutation_middle. constructor. exact IH.
Qed.

Lemma filter_filter_same {A} (f : A -> bool) (l : list A) :
  List.filter f (List.filter f l) = List.filter f l.
Proof.
  induction l as [|x l IH]; [reflexivity|].
  simpl. destruct (f x) eqn:E; simpl; [rewrite E, IH|]; auto.
Qed.

Lemma filter_filter_neg {A} (f : A -> bool) (l : list A) :
  List.filter f (List.filter (fun x => negb (f x)) l) = [] /\
  List.filter (fun x => negb (f x)) (List.filter f l) = [].
Proof.
  induction l as [|x l [IH1 IH2]]; [split; reflexivity|].
  simpl. destruct (f x) eqn:E; simpl; rewrite ?E; simpl; auto.
Qed.

(** X15. [list_serial_ports] loses no port and invents none: its result is
    a rearrangement of the reported devices in which every device whose
    name contains [/dev/cu.] comes before every other one, the devices of
    each kind staying in the order they were reported. *)
Theorem list_serial_ports_cu_first (ports : list str) :
  Permutation (list_serial_ports (Some ports)) ports /\
  (exists n : nat,
     Forall (fun p => is_cu p = true) (take n (list_serial_ports (Some ports))) /\
     Forall (fun p => is_cu p = false) (drop n (list_serial_ports (Some ports)))) /\
  List.filter is_cu (list_serial_ports (Some ports)) = List.filter is_cu ports /\
  List.filter (fun p => negb (is_cu p)) (list_serial_ports (Some ports))
  = List.filter (fun p => negb (is_cu p)) ports.
Proof.
  unfold list_serial_ports. split; [apply filter_partition|]. split.
  - exists (length (List.filter is_cu ports)).
    rewrite take_app_length, drop_app_length. split.
    + apply Forall_forall. intros p Hp. apply list_elem_of_In, filter_In in Hp. apply Hp.
    + apply Forall_forall. intros p Hp. apply list_elem_of_In, filter_In in Hp.
      destruct Hp as [_ Hp]. apply negb_true_iff in Hp. exact Hp.
  - rewrite !List.filter_app, !filter_filter_same.
    destruct (filter_filter_neg is_cu ports) as [-> ->].
    rewrite app_nil_r. split; reflexivity.
Qed.

End PortFacts.

Module CallFacts.
Import OpenAIClientWrapper.

Lemma yielded_app a b : yielded (a ++ b) = yielded a ++ yielded b.
Proof.
  induction a as [|[c|n] a IH]; simpl; [reflexivity| |exact IH].
  rewrite IH. reflexivity.
Qed.

Lemma yielded_chunks chunks : yielded (map Yield chunks) = chunks.
Proof. induction chunks as [|c l IH]; simpl; [|rewrite IH]; reflexivity. Qed.

Lemma slept_app a b : slept (a ++ b) = slept a + slept b.
Proof.
  induction a as [|[c|n] a IH]; simpl; [reflexivity|exact IH|].
  rewrite IH. lia.
Qed.

Lemma slept_chunks chunks : slept (map Yield chunks) = 0.
Proof. induction chunks as [|c l IH]; simpl; [reflexivity|exact IH]. Qed.

Lemma call_unfold api :
  call api =
    map Yield (fst (api 0)) ++
    match snd (api 0) with
    | None => []
    | Some e0 =>
        if transient e0 then
          Sleep 2 ::
          map Yield (fst (api 1)) ++
          match snd (api 1) with
          | None => []
          | Some e1 =>
              if transient e1 then
                Sleep 4 ::
                map Yield (fst (api 2)) ++
                match snd (api 2) with
                | None => []
                | Some e2 => [Yield (error_chunk e2)]
                end
              else [Yield (error_chunk e1)]
          end
        else [Yield (error_chunk e0)]
    end.
Proof.
  unfold call. cbn [call_loop].
  destruct (api 0) as [c0 [e0|]]; [|reflexivity]. cbn [fst snd].
  destruct (transient e0); [|reflexivity].
  change (true && (0 <? max_retries - 1)) with true. cbv iota.
  destruct (api 1) as [c1 [e1|]]; [|reflexivity]. cbn [fst snd].
  destruct (transient e1); [|reflexivity].
  change (true && (1 <? max_retries - 1)) with true. cbv iota.
  change (2 * 2) with 4.
  destruct (api 2) as [c2 [e2|]]; cbn [fst snd]; [|reflexivity].
  change (2 <? max_retries - 1) with false. rewrite andb_false_r. reflexivity.
Qed.

Ltac count_events :=
  repeat (rewrite ?yielded_app, ?yielded_chunks, ?slept_app, ?slept_chunks;
          cbn [yielded slept]).

(** X16. [call] sends at most three requests, the first at once, the second
    after 2 seconds and the third after 4 more, and sends a further one only
    after a failure it takes for transient.  What a failed request yielded
    before it failed is not taken back: the chunks of all the requests made
    come out one after the other.  When the last request made fails, the
    chunk [[Erreur API: <type>]] closes the output. *)
Theorem call_retries (api : Z -> attempt) :
  exists n : Z,
    1 <= n <= 3 /\
    (forall i, 0 <= i < n - 1 ->
       exists e, snd (api i) = Some e /\ transient e = true) /\
    yielded (call api)
    = concat (map (fun i => fst (api i)) (seqZ 0 n))
      ++ match snd (api (n - 1)) with
         | None => []
         | Some e => [error_chunk e]
         end /\
    slept (call api) = 2 * (2 ^ (n - 1) - 1) /\
    (n < 3 ->
     match snd (api (n - 1)) with
     | None => True
     | Some e => transient e = false
     end).
Proof.
  rewrite call_unfold.
  destruct (snd (api 0)) as [e0|] eqn:E0;
    [destruct (transient e0) eqn:T0;
     [destruct (snd (api 1)) as [e1|] eqn:E1;
      [destruct (transient e1) eqn:T1|]|]|].
  - exists 3. split; [lia|]. split.
    { intros i Hi. assert (Hc : i = 0 \/ i = 1) by lia.
      destruct Hc as [-> | ->]; eauto. }
    change (seqZ 0 3) with [0; 1; 2]. change (3 - 1) with 2.
    count_events. cbn [map concat]. rewrite app_nil_r, <- !app_assoc.
    split; [|split; [|lia]].
    + destruct (snd (api 2)); count_events; reflexivity.
    + destruct (snd (api 2)); count_events; reflexivity.
  - exists 2. split; [lia|]. split.
    { intros i Hi. assert (Hc : i = 0) by lia. subst i. eauto. }
    change (seqZ 0 2) with [0; 1]. change (2 - 1) with 1. rewrite E1.
    count_events. cbn [map concat]. rewrite app_nil_r, <- !app_assoc.
    split; [reflexivity|]. split; [reflexivity|]. intros _. exact T1.
  - exists 2. split; [lia|]. split.
    { intros i Hi. assert (Hc : i = 0) by lia. subst i. eauto. }
    change (seqZ 0 2) with [0; 1]. change (2 - 1) with 1. rewrite E1.
    count_events. cbn [map concat]. rewrite !app_nil_r.
    split; [reflexivity|]. split; [reflexivity|]. intros _. exact I.
  - exists 1. split; [lia|]. split; [intros i Hi; lia|].
    change (seqZ 0 1) with [0]. change (1 - 1) with 0. rewrite E0.
    count_events. cbn [map concat]. rewrite app_nil_r.
    split; [reflexivity|]. split; [reflexivity|]. intros _. exact T0.
  - exists 1. split; [lia|]. split; [intros i Hi; lia|].
    change (seqZ 0 1) with [0]. change (1 - 1) with 0. rewrite E0.
    count_events. cbn [map concat]. rewrite !app_nil_r.
    split; [reflexivity|]. split; [reflexivity|]. intros _. exact I.
Qed.

End CallFacts.

Module PromptFacts.
Import PyStrFacts.











End PromptFacts.

Module AutoconfigFacts.
Import Autoconfig PyStrFacts.

Lemma lower_byte_y b : lower_byte b = 121 <-> is_y b.
Proof.
  unfold lower_byte, is_y.
  destruct ((65 <=? b) && (b <=? 90)) eqn:E.
  - apply andb_true_iff in E. destruct E as [E1 E2].
    apply Z.leb_le in E1. apply Z.leb_le in E2. lia.
  - apply andb_false_iff in E. destruct E as [E|E];
      [apply Z.leb_gt in E|apply Z.leb_gt in E]; lia.
Qed.

Lemma byte_in_spec c buffer : byte_in c buffer = true <-> In c buffer.
Proof.
  unfold byte_in. rewrite existsb_exists. split.
  - intros (x & Hin & Hx). apply Z.eqb_eq in Hx. subst. exact Hin.
  - intros Hin. exists c. split; [exact Hin|apply Z.eqb_refl].
Qed.

(** The first test of the loop: a [y] or a [Y] is in the buffer. *)
Lemma y_test buffer :
  byte_in 121 (map lower_byte buffer) || byte_in 89 buffer = true
  <-> Exists is_y buffer.
Proof.
  rewrite orb_true_iff, !byte_in_spec, in_map_iff, List.Exists_exists. split.
  - intros [(b & Hb & Hin)|Hin].
    + exists b. split; [exact Hin|apply lower_byte_y, Hb].
    + exists 89. split; [exact Hin|right; reflexivity].
  - intros (b & Hin & Hb). left. exists b. split; [apply lower_byte_y, Hb|exact Hin].
Qed.

(** The second test asks nothing more. *)
Lemma any_test buffer :
  Exists is_y buffer ->
  existsb (fun c => byte_in c buffer) [13; 10; 121; 89] = true.
Proof.
  rewrite List.Exists_exists. intros (b & Hin & [-> | ->]); simpl.
  - apply (byte_in_spec 121) in Hin. rewrite Hin, !orb_true_r. reflexivity.
  - apply (byte_in_spec 89) in Hin. rewrite Hin, !orb_true_r. reflexivity.
Qed.

Lemma read_one p :
  read 1 p =
    match rx p with
    | (arrival, byte) :: more =>
        if arrival <=? clock p + 500
        then ([byte], mkPort (Z.max (clock p) arrival) more)
        else ([], mkPort (clock p + 500) (rx p))
    | [] => ([], mkPort (clock p + 500) (rx p))
    end.
Proof.
  unfold read. cbn [read_until].
  destruct (rx p) as [|[arrival byte] more]; [reflexivity|].
  destruct (arrival <=? clock p + 500); reflexivity.
Qed.

Lemma read_until_spec size : forall deadline p,
  exists consumed,
    rx p = consumed ++ rx (snd (read_until size deadline p)) /\
    fst (read_until size deadline p) = map snd consumed.
Proof.
  induction size as [|n IH]; intros deadline p; cbn [read_until].
  - exists []. split; reflexivity.
  - destruct (rx p) as [|[arrival byte] more] eqn:E; [exists []; split; reflexivity|].
    destruct (arrival <=? deadline); [|exists []; simpl; split; reflexivity].
    destruct (IH deadline (mkPort (Z.max (clock p) arrival) more)) as (c & Hc & Hd).
    destruct (read_until n deadline _) as [data p']. simpl in *.
    exists ((arrival, byte) :: c). simpl. rewrite <- Hc, Hd. split; reflexivity.
Qed.

Lemma reads_left_pos start p : clock p - start < 6000 -> (1 <= reads_left start p)%nat.
Proof.
  intros H. unfold reads_left.
  assert (1 <= (start + 6000 - clock p + 499) / 500)
    by (apply Z.div_le_lower_bound; lia).
  lia.
Qed.

Lemma reads_left_mono start p p' :
  clock p <= clock p' -> (reads_left start p' <= reads_left start p)%nat.
Proof.
  intros H. unfold reads_left.
  assert ((start + 6000 - clock p' + 499) / 500
          <= (start + 6000 - clock p + 499) / 500)
    by (apply Z.div_le_mono; lia).
  lia.
Qed.

Lemma reads_left_wait start p p' :
  clock p - start < 6000 -> clock p' = clock p + 500 ->
  S (reads_left start p') = reads_left start p.
Proof.
  intros H E. unfold reads_left. rewrite E.
  replace (start + 6000 - (clock p + 500) + 499)
    with (start + 6000 - clock p + 499 + (-1) * 500) by lia.
  rewrite Z.div_add by lia.
  assert (1 <= (start + 6000 - clock p + 499) / 500)
    by (apply Z.div_le_lower_bound; lia).
  lia.
Qed.

(** One pass of the loop, the second test resolved. *)
Lemma wait_step f start buffer p :
  clock p - start < 6000 ->
  wait_for_y (S f) start buffer p =
    match rx p with
    | (arrival, byte) :: more =>
        if arrival <=? clock p + 500 then
          let p1 := mkPort (Z.max (clock p) arrival) more in
          if byte_in 121 (map lower_byte (buffer ++ [byte]))
             || byte_in 89 (buffer ++ [byte])
          then Ok (true, snd (read 10 (sleep 300 p1)))
          else wait_for_y f start (buffer ++ [byte]) p1
        else wait_for_y f start buffer (mkPort (clock p + 500) (rx p))
    | [] => wait_for_y f start buffer (mkPort (clock p + 500) (rx p))
    end.
Proof.
  intros H. apply Z.ltb_lt in H. cbn [wait_for_y]. rewrite H, read_one.
  destruct (rx p) as [|[arrival byte] more]; [reflexivity|].
  destruct (arrival <=? clock p + 500); [|reflexivity].
  cbn [truthy]. cbv zeta.
  destruct (byte_in 121 (map lower_byte (buffer ++ [byte]))
            || byte_in 89 (buffer ++ [byte])) eqn:E; [|reflexivity].
  destruct (read 10 (sleep 300 (mkPort (Z.max (clock p) arrival) more)))
    as [extra p3]. cbn [snd].
  rewrite any_test; [reflexivity|].
  apply y_test in E. apply List.Exists_app. left. exact E.
Qed.

Lemma wait_done fuel start buffer p :
  6000 <= clock p - start -> wait_for_y fuel start buffer p = Ok (false, p).
Proof.
  intros H. apply Z.ltb_ge in H. destruct fuel; cbn [wait_for_y]; rewrite H; reflexivity.
Qed.

Lemma wait_total fuel : forall start buffer p,
  (length (rx p) + reads_left start p <= fuel)%nat ->
  exists r p', wait_for_y fuel start buffer p = Ok (r, p').
Proof.
  induction fuel as [|f IH]; intros start buffer p Hf.
  - destruct (Z.lt_ge_cases (clock p - start) 6000) as [H|H].
    + pose proof (reads_left_pos start p H). lia.
    + rewrite wait_done by exact H. eauto.
  - destruct (Z.lt_ge_cases (clock p - start) 6000) as [H|H];
      [|rewrite wait_done by exact H; eauto].
    rewrite wait_step by exact H.
    assert (Hwait : exists r p',
              wait_for_y f start buffer (mkPort (clock p + 500) (rx p)) = Ok (r, p')).
    { apply IH. simpl.
      pose proof (reads_left_wait start p (mkPort (clock p + 500) (rx p)) H eq_refl).
      lia. }
    destruct (rx p) as [|[arrival byte] more] eqn:E; [exact Hwait|].
    destruct (arrival <=? clock p + 500); [|exact Hwait].
    cbv zeta. destruct (_ || _); [eauto|].
    apply IH. simpl in *.
    pose proof (reads_left_mono start p (mkPort (Z.max (clock p) arrival) more)
                  ltac:(simpl; lia)).
    lia.
Qed.

(** What the loop answers, by the bytes it took. *)
Lemma wait_spec fuel : forall start buffer p r p',
  Forall (fun b => ~ is_y b) buffer ->
  wait_for_y fuel start buffer p = Ok (r, p') ->
  exists consumed,
    rx p = consumed ++ rx p' /\
    (r = true <-> Exists is_y (map snd consumed)) /\
    (r = false ->
     start + 6000 <= clock p' /\ (p' = p \/ clock p' < start + 6500)).
Proof.
  induction fuel as [|f IH]; intros start buffer p r p' Hb H.
  - destruct (Z.lt_ge_cases (clock p - start) 6000) as [Hc|Hc].
    + apply Z.ltb_lt in Hc. cbn [wait_for_y] in H. rewrite Hc in H. discriminate.
    + rewrite wait_done in H by exact Hc. inversion H; subst.
      exists []. split; [reflexivity|]. split.
      * split; [discriminate|]. intros HE. inversion HE.
      * intros _. split; [lia|left; reflexivity].
  - destruct (Z.lt_ge_cases (clock p - start) 6000) as [Hc|Hc].
    2:{ rewrite wait_done in H by exact Hc. inversion H; subst.
        exists []. split; [reflexivity|]. split.
        - split; [discriminate|]. intros HE. inversion HE.
        - intros _. split; [lia|left; reflexivity]. }
    rewrite wait_step in H by exact Hc.
    assert (Hwait : wait_for_y f start buffer (mkPort (clock p + 500) (rx p))
                    = Ok (r, p') ->
              exists consumed,
                rx p = consumed ++ rx p' /\
                (r = true <-> Exists is_y (map snd consumed)) /\
                (r = false ->
                 start + 6000 <= clock p' /\ (p' = p \/ clock p' < start + 6500))).
    { intros H1. destruct (IH _ _ _ _ _ Hb H1) as (c & Hc1 & Hc2 & Hc3).
      exists c. simpl in Hc1. split; [exact Hc1|]. split; [exact Hc2|].
      intros Hr. destruct (Hc3 Hr) as [Ht [-> | Ht2]]; simpl in *; split; try lia;
        right; lia. }
    destruct (rx p) as [|[arrival byte] more] eqn:E; [exact (Hwait H)|].
    destruct (arrival <=? clock p + 500) eqn:Ea; [|exact (Hwait H)].
    apply Z.leb_le in Ea. cbv zeta in H.
    destruct (byte_in 121 (map lower_byte (buffer ++ [byte]))
              || byte_in 89 (buffer ++ [byte])) eqn:Ey.
    + inversion H; subst. clear H.
      apply y_test in Ey. apply List.Exists_app in Ey.
      destruct Ey as [Ey|Ey].
      { exfalso. apply List.Exists_exists in Ey. destruct Ey as (b & Hin & Hy).
        rewrite List.Forall_forall in Hb. exact (Hb b Hin Hy). }
      inversion Ey as [? ? Hy|? ? Hy]; subst; [|inversion Hy].
      unfold read.
      destruct (read_until_spec 10
                  (clock (sleep 300 (mkPort (Z.max (clock p) arrival) more)) + 500)
                  (sleep 300 (mkPort (Z.max (clock p) arrival) more)))
        as (c & Hc1 & _).
      exists ((arrival, byte) :: c). simpl in *. rewrite <- Hc1.
      split; [reflexivity|]. split; [|discriminate].
      split; [intros _; apply Exists_cons_hd; exact Hy|reflexivity].
    + assert (Hn : ~ is_y byte).
      { intros Hy. assert (Exists is_y (buffer ++ [byte]))
          by (apply List.Exists_app; right; apply Exists_cons_hd; exact Hy).
        apply y_test in H0. rewrite H0 in Ey. discriminate. }
      assert (Hb1 : Forall (fun b => ~ is_y b) (buffer ++ [byte])).
      { apply Forall_app. split; [exact Hb|]. constructor; [exact Hn|constructor]. }
      destruct (IH _ _ _ _ _ Hb1 H) as (c & Hc1 & Hc2 & Hc3).
      exists ((arrival, byte) :: c). simpl in *. rewrite <- Hc1.
      split; [reflexivity|]. split.
      * rewrite Hc2. split; [intros HE; apply Exists_cons_tl; exact HE|].
        intros HE. inversion HE; subst; [contradiction|assumption].
      * intros Hr. destruct (Hc3 Hr) as [Ht [-> | Ht2]]; simpl in *; split; try lia;
          right; lia.
Qed.

(** A [y] that arrives within the window, with all that comes before it,
    is enough. *)
Lemma wait_complete fuel : forall start buffer p pre a b post,
  rx p = pre ++ (a, b) :: post -> is_y b ->
  Forall (fun x => fst x < start + 6000) (pre ++ [(a, b)]) ->
  clock p < start + 6000 ->
  (length (rx p) + reads_left start p <= fuel)%nat ->
  exists p', wait_for_y fuel start buffer p = Ok (true, p').
Proof.
  induction fuel as [|f IH]; intros start buffer p pre a b post Hrx Hy Hin Hc Hf.
  - pose proof (reads_left_pos start p ltac:(lia)). lia.
  - rewrite wait_step by lia.
    assert (Hhead : exists a0 b0 more, rx p = (a0, b0) :: more /\ a0 < start + 6000).
    { destruct pre as [|[a0 b0] pre']; simpl in *.
      - exists a, b, post. split; [exact Hrx|]. inversion Hin; subst. assumption.
      - exists a0, b0, (pre' ++ (a, b) :: post). split; [exact Hrx|].
        inversion Hin; subst. assumption. }
    destruct Hhead as (a0 & b0 & more & Hm & Ha0). rewrite Hm.
    destruct (a0 <=? clock p + 500) eqn:Ea.
    + cbv zeta. destruct (_ || _) eqn:Ey; [eauto|].
      destruct pre as [|[a1 b1] pre'].
      * exfalso. simpl in Hrx. rewrite Hrx in Hm. inversion Hm; subst.
        assert (Exists is_y (buffer ++ [b0]))
          by (apply List.Exists_app; right; apply Exists_cons_hd; exact Hy).
        apply y_test in H. rewrite H in Ey. discriminate.
      * simpl in Hrx. rewrite Hrx in Hm. inversion Hm; subst.
        apply (IH start _ _ pre' a b post); simpl.
        -- reflexivity.
        -- exact Hy.
        -- inversion Hin; subst. assumption.
        -- lia.
        -- rewrite Hrx in Hf. simpl in Hf.
           pose proof (reads_left_mono start p
                         (mkPort (Z.max (clock p) a0) (pre' ++ (a, b) :: post))
                         ltac:(simpl; lia)).
           lia.
    + apply Z.leb_gt in Ea. rewrite <- Hm.
      apply (IH start _ _ pre a b post); simpl.
      * exact Hrx.
      * exact Hy.
      * exact Hin.
      * lia.
      * pose proof (reads_left_wait start p (mkPort (clock p + 500) (rx p))
                      ltac:(lia) eq_refl).
        lia.
Qed.

(** X18. The wait for the answer to a test message: the configuration is
    validated exactly when a byte [y] or [Y] is among those read, the Enter
    key the message asks for being of no account; a [y] that arrives within
    the six seconds, with everything received before it, validates the
    configuration whatever else is received; without one the wait ends
    after six seconds and before six and a half. *)
Theorem probe_validates_on_y (p : port) :
  exists r p' consumed,
    probe p = Ok (r, p') /\
    rx p = consumed ++ rx p' /\
    (r = true <-> Exists is_y (map snd consumed)) /\
    (r = false -> clock p + 6000 <= clock p' < clock p + 6500) /\
    (forall pre a b post,
       rx p = pre ++ (a, b) :: post -> is_y b ->
       Forall (fun x => fst x < clock p + 6000) (pre ++ [(a, b)]) ->
       r = true).
Proof.
  assert (Hfuel : (length (rx p) + reads_left (clock p) p <= probe_fuel p)%nat).
  { unfold probe_fuel, reads_left.
    replace (clock p + 6000 - clock p + 499) with 6499 by lia.
    change (6499 / 500) with 12. lia. }
  unfold probe.
  destruct (wait_total (probe_fuel p) (clock p) [] p Hfuel) as (r & p' & Hr).
  destruct (wait_spec _ _ _ _ _ _ (List.Forall_nil _) Hr) as (c & Hc1 & Hc2 & Hc3).
  exists r, p', c. split; [exact Hr|]. split; [exact Hc1|]. split; [exact Hc2|].
  split.
  - intros Hf. destruct (Hc3 Hf) as [Ht [-> | Ht2]]; lia.
  - intros pre a b post Hrx Hy Hin.
    destruct (wait_complete (probe_fuel p) (clock p) [] p pre a b post
                Hrx Hy Hin ltac:(lia) Hfuel) as (p'' & Hp).
    rewrite Hp in Hr. inversion Hr. reflexivity.
Qed.

Lemma probe_validates_on_y_witness :
  exists p', probe (mkPort 0 [(100, 255); (5900, 89)]) = Ok (true, p').
Proof.
  destruct (probe_validates_on_y (mkPort 0 [(100, 255); (5900, 89)]))
    as (r & p' & c & H & _ & _ & _ & Hy).
  exists p'. rewrite H. f_equal. f_equal.
  apply (Hy [(100, 255)] 5900 89 []).
  - reflexivity.
  - right. reflexivity.
  - repeat constructor; simpl; lia.
Defined.

End AutoconfigFacts.

Module ShellFacts.
Import History HistoryFile Shell PyStrFacts HistoryFacts DisplayFacts
       TextWrapFacts HistoryMore CallFacts.

(** [display_streaming] comes to an end on every sequence of chunks and
    returns their concatenation. *)
Lemma display_streaming_total enabled chunks page_lines :
  0 < page_lines ->
  exists calls,
    display_streaming enabled chunks page_lines = Ok (calls, concat chunks).
Proof.
  intros HP. unfold display_streaming.
  assert (Hinv : paging_inv enabled page_lines (mkFmt [] 0 0)).
  { unfold paging_inv, counted. destruct enabled; cbn [line_count out];
      [split; [lia|reflexivity]|reflexivity]. }
  destruct (stream_chunks_total enabled page_lines chunks HP [] [] _ Hinv)
    as (b & st & Hs & _).
  destruct (wrap_text_total AtEnd enabled page_lines b st HP) as (st' & Hw & _).
  rewrite Hs. cbn [bind]. rewrite Hw. cbn [bind]. rewrite app_nil_l. eauto.
Qed.

Lemma display_wrapped_total enabled text page_lines :
  exists calls, display_wrapped enabled text page_lines = Ok calls.
Proof.
  unfold display_wrapped.
  destruct (wrap_40_total text WRAP_COLS ltac:(unfold WRAP_COLS; lia))
    as (lines & Hw & _).
  rewrite Hw. simpl. eauto.
Qed.

(** [add] with caps that are not negative: the least trim from the front
    for which both caps hold. *)
Lemma add_spec role content s h l :
  0 <= max_turns s -> 0 <= max_chars s ->
  h !! messages s = Some l ->
  exists k : nat,
    (k <= S (length l))%nat /\
    add role content s h
    = Ok (<[messages s := drop k (l ++ [mk_message role content])]> h) /\
    caps_hold s (drop k (l ++ [mk_message role content])) /\
    (forall j : nat, (j < k)%nat ->
       ~ caps_hold s (drop j (l ++ [mk_message role content]))).
Proof.
  intros Hmt Hmc Hl. unfold add. rewrite Hl.
  destruct (_trim_spec s (<[messages s := l ++ [mk_message role content]]> h)
              (l ++ [mk_message role content]) Hmt Hmc) as (k & Hk & Hc & Hmin);
    [apply lookup_insert_eq|].
  rewrite insert_insert_eq in Hk.
  exists (Nat.min k (S (length l))).
  assert (E : drop (Nat.min k (S (length l))) (l ++ [mk_message role content])
              = drop k (l ++ [mk_message role content])).
  { destruct (Nat.le_gt_cases k (S (length l))) as [H|H].
    - rewrite Nat.min_l by exact H. reflexivity.
    - rewrite Nat.min_r by lia.
      rewrite !drop_ge; [reflexivity| |]; rewrite length_app; simpl; lia. }
  rewrite E. split; [lia|]. split; [assumption|]. split; [assumption|].
  intros j Hj [H1 H2]. destruct (Hmin j ltac:(lia)); lia.
Qed.

(** A list with one more message at its end is within the caps only if the
    list is. *)
Lemma caps_hold_snoc s l m : caps_hold s (l ++ [m]) -> caps_hold s l.
Proof.
  intros [H1 H2]. rewrite len_app in H1. rewrite total_chars_app in H2.
  pose proof (total_chars_nonneg [m]). unfold len in H1 at 2. simpl in H1.
  split; lia.
Qed.

(** What one exchange does when the history does not raise. *)
Lemma turn_ok (enabled stream : bool) (page_lines : Z)
  (system_prompt model user_input : str)
  (api : list message -> str -> bool -> Z -> OpenAIClientWrapper.attempt)
  (s : HistoryStore) (h : heap) (f : file) (l : list message) :
  0 < page_lines -> 0 <= max_turns s -> 0 <= max_chars s ->
  h !! messages s = Some l ->
  let chunks :=
    OpenAIClientWrapper.yielded
      (OpenAIClientWrapper.call
         (api (request system_prompt l user_input) model stream)) in
  let reply := concat chunks in
  exists shown (k : nat) h',
    let kept :=
      drop k (l ++ [mk_message (lit "user") user_input;
                    mk_message (lit "assistant") reply]) in
    turn enabled stream page_lines system_prompt model user_input api true s h f
    = Ok ([Writeln []] ++ shown ++ [Writeln []], h', Some kept) /\
    (if stream
     then display_streaming enabled chunks page_lines = Ok (shown, reply)
     else display_wrapped enabled reply page_lines = Ok shown) /\
    h' !! messages s = Some kept /\
    caps_hold s kept /\
    (k <= length l + 2)%nat /\
    (forall j : nat, (j < k)%nat ->
       ~ caps_hold s
           (drop j (l ++ [mk_message (lit "user") user_input;
                          mk_message (lit "assistant") reply]))).
Proof.
  intros HP Hmt Hmc Hl chunks reply.
  set (u := mk_message (lit "user") user_input).
  set (a := mk_message (lit "assistant") reply).
  set (r := fresh_loc h). set (h1 := <[r := l]> h).
  assert (Hg : get_messages s h = Some (r, h1))
    by (unfold get_messages; rewrite Hl; reflexivity).
  assert (Hr : h1 !! r = Some l) by apply lookup_insert_eq.
  assert (Hne : messages s <> r).
  { intros E. pose proof (fresh_loc_None h) as Hn. fold r in Hn.
    rewrite <- E, Hl in Hn. discriminate. }
  assert (Hl1 : h1 !! messages s = Some l)
    by (unfold h1; rewrite lookup_insert_ne by congruence; exact Hl).
  destruct (add_spec (lit "user") user_input s h1 l Hmt Hmc Hl1)
    as (k1 & Hk1 & Ha1 & _ & Hmin1). fold u in Ha1, Hmin1.
  set (l1 := drop k1 (l ++ [u])) in *.
  destruct (add_spec (lit "assistant") reply s (<[messages s := l1]> h1) l1
              Hmt Hmc ltac:(apply lookup_insert_eq))
    as (k2 & Hk2 & Ha2 & Hc2 & Hmin2).
  fold a in Ha2, Hc2, Hmin2. rewrite insert_insert_eq in Ha2.
  assert (Eua : l ++ [u; a] = (l ++ [u]) ++ [a])
    by (rewrite <- app_assoc; reflexivity).
  assert (Edrop : forall j : nat,
            drop j (l1 ++ [a]) = drop (k1 + j) (l ++ [u; a])).
  { intros j. unfold l1. rewrite <- drop_drop, Eua.
    rewrite (drop_app_le (l ++ [u])) by (rewrite length_app; simpl; lia).
    reflexivity. }
  assert (Hk2' : (k2 <= S (length l) - k1 + 1)%nat).
  { unfold l1 in Hk2. rewrite length_drop, length_app in Hk2. simpl in Hk2. lia. }
  assert (Hmin : forall j : nat, (j < k1 + k2)%nat ->
                   ~ caps_hold s (drop j (l ++ [u; a]))).
  { intros j Hj Hc. destruct (Nat.lt_ge_cases j k1) as [Hlt|Hge].
    - apply (Hmin1 j Hlt). apply (caps_hold_snoc s _ a).
      rewrite Eua in Hc.
      rewrite (drop_app_le (l ++ [u])) in Hc by (rewrite length_app; simpl; lia).
      exact Hc.
    - apply (Hmin2 (j - k1)%nat ltac:(lia)). rewrite Edrop.
      replace (k1 + (j - k1))%nat with j by lia. exact Hc. }
  pose proof (Edrop k2) as El.
  rewrite El in Ha2, Hc2.
  set (kept := drop (k1 + k2) (l ++ [u; a])) in *.
  set (h3 := <[messages s := kept]> h1) in *.
  assert (Hs : save true s h3 f = Ok (h3, Some kept)).
  { unfold save.
    rewrite (_trim_within_caps s h3 kept ltac:(apply lookup_insert_eq) Hc2).
    simpl. unfold h3. rewrite lookup_insert_eq. reflexivity. }
  assert (Hshow : exists shown,
            (if stream
             then display_streaming enabled chunks page_lines
             else let* calls := display_wrapped enabled reply page_lines in
                  Ok (calls, reply)) = Ok (shown, reply) /\
            (if stream
             then display_streaming enabled chunks page_lines = Ok (shown, reply)
             else display_wrapped enabled reply page_lines = Ok shown)).
  { destruct stream.
    - destruct (display_streaming_total enabled chunks page_lines HP) as (c & Hc).
      exists c. split; exact Hc.
    - destruct (display_wrapped_total enabled reply page_lines) as (c & Hc).
      exists c. rewrite Hc. split; reflexivity. }
  destruct Hshow as (shown & Hd1 & Hd2).
  exists shown, (k1 + k2)%nat, h3. cbv zeta. fold u a kept.
  split; [|split; [exact Hd2|split; [apply lookup_insert_eq|
           split; [exact Hc2|split; [lia|exact Hmin]]]]].
  - unfold turn. rewrite Hg. cbv zeta. rewrite Hr.
    change (default [] (Some l)) with l.
    change (OpenAIClientWrapper.yielded
              (OpenAIClientWrapper.call
                 (api (request system_prompt l user_input) model stream)))
      with chunks.
    change (concat chunks) with reply.
    rewrite Hd1. cbn [bind]. rewrite Ha1. cbn [bind]. rewrite Ha2. cbn [bind].
    rewrite Hs. reflexivity.
Qed.


(** X19. One exchange with the model, with caps that are not negative and a
    file that can be written: the request is the system prompt, the history
    as it stands and the input; the reply is everything [call] yields, put
    together, and it is what [display_streaming] or [display_wrapped] is
    given to show between two empty lines.  Input and reply are then put
    at the end of the history, which is trimmed from the front by the least
    number of messages for which both caps hold, and the file holds the
    same list.  The reply is the last message stored when at least one turn
    is kept and the reply fits [max_chars] on its own; otherwise nothing is
    left of the history.  The text of an API failure is a reply like any
    other: after a request that fails at once for good the reply is
    [[Erreur API: <type>]], stored under the same condition. *)
Theorem turn_records_reply (enabled stream : bool) (page_lines : Z)
  (system_prompt model user_input : str)
  (api : list message -> str -> bool -> Z -> OpenAIClientWrapper.attempt)
  (s : HistoryStore) (h : heap) (f : file) (l : list message) :
  0 < page_lines -> 0 <= max_turns s -> 0 <= max_chars s ->
  h !! messages s = Some l ->
  let chunks :=
    OpenAIClientWrapper.yielded
      (OpenAIClientWrapper.call
         (api (request system_prompt l user_input) model stream)) in
  let reply := concat chunks in
  let exchange :=
    l ++ [mk_message (lit "user") user_input;
          mk_message (lit "assistant") reply] in
  exists shown (k : nat) h',
    let kept := drop k exchange in
    turn enabled stream page_lines system_prompt model user_input api true s h f
    = Ok ([Writeln []] ++ shown ++ [Writeln []], h', Some kept) /\
    (if stream
     then display_streaming enabled chunks page_lines = Ok (shown, reply)
     else display_wrapped enabled reply page_lines = Ok shown) /\
    h' !! messages s = Some kept /\
    caps_hold s kept /\
    (k <= length exchange)%nat /\
    (forall j : nat, (j < k)%nat -> ~ caps_hold s (drop j exchange)) /\
    (1 <= max_turns s -> len reply <= max_chars s ->
     last kept = Some (mk_message (lit "assistant") reply)) /\
    (max_turns s < 1 \/ max_chars s < len reply -> kept = []) /\
    (forall e,
       api (request system_prompt l user_input) model stream 0 = ([], Some e) ->
       OpenAIClientWrapper.transient e = false ->
       reply = OpenAIClientWrapper.error_chunk e /\
       (1 <= max_turns s ->
        len (OpenAIClientWrapper.error_chunk e) <= max_chars s ->
        last kept
        = Some (mk_message (lit "assistant")
                  (OpenAIClientWrapper.error_chunk e)))).
Proof.
  intros HP Hmt Hmc Hl chunks reply exchange.
  destruct (turn_ok enabled stream page_lines system_prompt model user_input
              api s h f l HP Hmt Hmc Hl)
    as (shown & k & h' & H1 & H2 & H3 & H4 & H5 & H6).
  fold chunks reply exchange in H1, H2, H3, H4, H6.
  set (u := mk_message (lit "user") user_input) in *.
  set (a := mk_message (lit "assistant") reply) in *.
  assert (Ex : exchange = (l ++ [u]) ++ [a])
    by (unfold exchange; rewrite <- app_assoc; reflexivity).
  assert (Hlen : length exchange = (length l + 2)%nat)
    by (unfold exchange; rewrite length_app; simpl; lia).
  assert (Hone : drop (S (length l)) exchange = [a]).
  { rewrite Ex. replace (S (length l)) with (length (l ++ [u]))
      by (rewrite length_app; simpl; lia).
    apply drop_app_length. }
  assert (Hstored : 1 <= max_turns s -> len reply <= max_chars s ->
                    last (drop k exchange) = Some a).
  { intros Ht Hr. assert (Hk : (k <= S (length l))%nat).
    { destruct (Nat.le_gt_cases k (S (length l))) as [Hle|Hgt]; [exact Hle|].
      exfalso. apply (H6 (S (length l)) Hgt). rewrite Hone.
      split; [unfold len; simpl; lia|].
      simpl. unfold a. rewrite content_len_mk. lia. }
    rewrite Ex, drop_app_le by (rewrite length_app; simpl; lia).
    apply last_snoc. }
  exists shown, k, h'. cbv zeta.
  split; [exact H1|]. split; [exact H2|]. split; [exact H3|].
  split; [exact H4|]. split; [lia|]. split; [exact H6|].
  split; [exact Hstored|]. split.
  - intros Hover. destruct (Nat.le_gt_cases k (S (length l))) as [Hle|Hgt].
    + exfalso. destruct H4 as [Hc1 Hc2].
      rewrite Ex, drop_app_le in Hc1, Hc2 by (rewrite length_app; simpl; lia).
      rewrite len_app in Hc1. rewrite total_chars_app in Hc2.
      pose proof (len_nonneg (drop k (l ++ [u]))).
      pose proof (total_chars_nonneg (drop k (l ++ [u]))).
      unfold len in Hc1 at 2. simpl in Hc1, Hc2. unfold a in Hc2.
      rewrite content_len_mk in Hc2. lia.
    + apply drop_ge. lia.
  - intros e He Ht.
    assert (Er : reply = OpenAIClientWrapper.error_chunk e).
    { unfold reply, chunks. rewrite call_unfold, He. cbn [fst snd].
      rewrite Ht. cbn [map app OpenAIClientWrapper.yielded concat].
      apply app_nil_r. }
    split; [exact Er|]. intros Hturn Hfit. rewrite <- Er in Hfit |- *.
    apply Hstored; assumption.
Qed.

Lemma turn_records_reply_witness :
  exists shown h' kept,
    turn true true 18 (lit "Sois bref.") (lit "gpt-4o-mini") (lit "hi")
         (fun _ _ _ _ => ([lit "ok"], None)) true store0 heap0 None
    = Ok ([Writeln []] ++ shown ++ [Writeln []], h', Some kept) /\
    last kept = Some (mk_message (lit "assistant") (lit "ok")).
Proof.
  destruct (turn_records_reply true true 18 (lit "Sois bref.") (lit "gpt-4o-mini")
              (lit "hi") (fun _ _ _ _ => ([lit "ok"], None))
              store0 heap0 None history0)
    as (shown & k & h' & H & _ & _ & _ & _ & _ & Hlast & _).
  - lia.
  - simpl. lia.
  - simpl. lia.
  - reflexivity.
  - exists shown, h'. eexists. split; [exact H|].
    apply Hlast; vm_compute; discriminate.
Defined.

End ShellFacts.

Module WrapChars.
Import TextWrap PyStrFacts TextWrapFacts WholeChunks LongToken ChunkCuts WrapMore.

Section Characters.
Variable P : ascii -> Prop.

Lemma Forall_pieces (l : list str) : Forall P (concat l) <-> Forall (Forall P) l.
Proof.
  induction l as [|x l IH]; simpl.
  - split; constructor.
  - rewrite Forall_app, IH. split.
    + intros [H1 H2]. constructor; assumption.
    + intros H. inversion H; subst. split; assumption.
Qed.

Lemma slice_to_Forall (s : str) n : Forall P s -> Forall P (slice_to s n).
Proof. intros H. unfold slice_to. destruct (n <? 0); apply Forall_take, H. Qed.

Lemma slice_from_Forall (s : str) n : Forall P s -> Forall P (slice_from s n).
Proof. intros H. unfold slice_from. destruct (n <? 0); apply Forall_drop, H. Qed.

Lemma drop_trailing_ws_Forall cur_line :
  Forall (Forall P) cur_line -> Forall (Forall P) (drop_trailing_ws cur_line).
Proof.
  intros H. destruct (drop_trailing_ws_cases cur_line) as [-> | (x & E & _)];
    [exact H|].
  rewrite E in H. apply Forall_app in H. apply H.
Qed.

(** One pass of the outer loop makes its line out of characters of the
    chunks. *)
Lemma wrap_step_chars width lines chunks lines' chunks' :
  Forall (Forall P) lines -> Forall (Forall P) chunks ->
  wrap_step width lines chunks = (lines', chunks') ->
  Forall (Forall P) lines' /\ Forall (Forall P) chunks'.
Proof.
  intros Hl Hc. unfold wrap_step.
  set (chunks1 := match chunks with
                  | top :: below =>
                      if negb (truthy (strip top)) && truthy lines then below else chunks
                  | [] => chunks end).
  assert (H1 : Forall (Forall P) chunks1).
  { unfold chunks1. destruct chunks as [|top below]; [exact Hc|].
    destruct (negb (truthy (strip top)) && truthy lines); [|exact Hc].
    inversion Hc; subst. assumption. }
  clearbody chunks1.
  destruct (fill_line width [] 0 chunks1) as [[cur_line cur_len] chunks2] eqn:Hf.
  destruct (fill_line_spec width _ _ _ _ _ _ Hf) as (taken & E1 & E2 & _).
  simpl in E2. subst cur_line chunks1. apply Forall_app in H1. destruct H1 as [Ht H2].
  assert (Hfinish : forall cur_line1 chunks3,
            Forall (Forall P) cur_line1 -> Forall (Forall P) chunks3 ->
            (let cur_line2 := drop_trailing_ws cur_line1 in
             let lines' := if truthy cur_line2 then lines ++ [concat cur_line2] else lines in
             (lines', chunks3)) = (lines', chunks') ->
            Forall (Forall P) lines' /\ Forall (Forall P) chunks').
  { intros cur_line1 chunks3 H3 H4 H. cbv zeta in H. inversion H; subst lines' chunks'.
    split; [|exact H4].
    destruct (truthy (drop_trailing_ws cur_line1)); [|exact Hl].
    apply Forall_app. split; [exact Hl|]. constructor; [|constructor].
    apply Forall_pieces, drop_trailing_ws_Forall, H3. }
  destruct chunks2 as [|top below]; [apply Hfinish; assumption|].
  destruct (width <? len top); [|apply Hfinish; assumption].
  unfold _handle_long_word. inversion H2; subst.
  apply Hfinish.
  - apply Forall_app. split; [exact Ht|]. constructor; [|constructor].
    apply slice_to_Forall. assumption.
  - constructor; [apply slice_from_Forall|]; assumption.
Qed.

Lemma wrap_loop_chars width fuel : forall lines chunks lines',
  Forall (Forall P) lines -> Forall (Forall P) chunks ->
  wrap_loop fuel width lines chunks = Ok lines' ->
  Forall (Forall P) lines'.
Proof.
  induction fuel as [|f IH]; intros lines chunks lines' Hl Hc H.
  - destruct chunks; [|discriminate]. inversion H; subst. exact Hl.
  - destruct chunks as [|c chunks]; [inversion H; subst; exact Hl|].
    cbn [wrap_loop] in H.
    destruct (wrap_step width lines (c :: chunks)) as [lines1 chunks1] eqn:Hs.
    destruct (wrap_step_chars _ _ _ _ _ Hl Hc Hs) as [Hl1 Hc1].
    apply (IH _ _ _ Hl1 Hc1 H).
Qed.

Lemma wrap_chars p width lines :
  Forall P (_munge_whitespace p) ->
  wrap p width = Ok lines -> Forall (Forall P) lines.
Proof.
  intros Hm. unfold wrap, _wrap_chunks. destruct (width <=? 0); [discriminate|].
  apply wrap_loop_chars; [constructor|].
  apply Forall_pieces. rewrite split_chunks_concat. exact Hm.
Qed.

End Characters.

(** Tab expansion and the change of whitespace into spaces leave characters
    of the text, layout characters excepted, and spaces. *)
Lemma expandtabs_chars tabsize s : forall col,
  Forall (fun c => In c s \/ c = SP) (expandtabs_from tabsize col s).
Proof.
  induction s as [|c s IH]; intros col; [constructor|]. simpl expandtabs_from.
  assert (Hmono : forall l, Forall (fun x => In x s \/ x = SP) l ->
                            Forall (fun x => In x (c :: s) \/ x = SP) l).
  { intros l. apply List.Forall_impl. intros x [H|H]; [left; right; exact H|right; exact H]. }
  destruct (Ascii.eqb c TAB).
  - destruct (0 <? tabsize); [|apply Hmono, IH].
    apply Forall_app. split; [|apply Hmono, IH].
    apply Forall_forall. intros x Hx. apply list_elem_of_In, repeat_spec in Hx.
    right. exact Hx.
  - destruct (Ascii.eqb c LF || Ascii.eqb c CR);
      (constructor; [left; left; reflexivity|apply Hmono, IH]).
Qed.

Lemma is_ws_codes c : is_ws c = false -> c <> SP /\ ~ (9 <= code c <= 13).
Proof.
  unfold is_ws. intros H. apply orb_false_iff in H. destruct H as [H1 H2].
  apply Z.eqb_neq in H2. split.
  - intros ->. apply H2. reflexivity.
  - intros [Ha Hb]. apply Z.leb_le in Ha. apply Z.leb_le in Hb.
    rewrite Ha, Hb in H1. discriminate.
Qed.

Lemma munge_chars s :
  Forall (fun c => (In c s \/ c = SP) /\ ~ (9 <= code c <= 13)) (_munge_whitespace s).
Proof.
  unfold _munge_whitespace, expandtabs. apply Forall_map.
  pose proof (expandtabs_chars 8 s 0) as H.
  induction H as [|c l Hc _ IH]; constructor; [|exact IH].
  destruct (is_ws c) eqn:E.
  - split; [right; reflexivity|]. vm_compute. intros [_ H]. apply H. reflexivity.
  - split; [exact Hc|]. apply (is_ws_codes c E).
Qed.

Lemma split_chars c s p : In p (split c s) -> forall x, In x p -> In x s.
Proof.
  revert p. induction s as [|y s IH]; intros p Hp x Hx; simpl in Hp.
  - destruct Hp as [<-|[]]. destruct Hx.
  - destruct (Ascii.eqb y c).
    + destruct Hp as [<-|Hp]; [destruct Hx|]. right. apply (IH p Hp x Hx).
    + destruct (split c s) as [|h r] eqn:Es.
      * destruct Hp as [<-|[]]. destruct Hx as [<-|[]]. left. reflexivity.
      * destruct Hp as [<-|Hp].
        -- destruct Hx as [<-|Hx]; [left; reflexivity|].
           right. apply (IH h ltac:(left; reflexivity) x Hx).
        -- right. apply (IH p ltac:(right; exact Hp) x Hx).
Qed.

Lemma wrap_paragraphs_chars text width paragraphs : forall lines,
  (forall p, In p paragraphs -> forall x, In x p -> In x text) ->
  wrap_paragraphs paragraphs width = Ok lines ->
  Forall (Forall (fun c => (In c text \/ c = SP) /\ ~ (9 <= code c <= 13))) lines.
Proof.
  induction paragraphs as [|p ps IH]; intros lines Hin H.
  - inversion H; subst. constructor.
  - cbn [wrap_paragraphs] in H.
    assert (Hps : forall q, In q ps -> forall x, In x q -> In x text)
      by (intros q Hq; apply Hin; right; exact Hq).
    destruct (negb (truthy (strip p))).
    + destruct (wrap_paragraphs ps width) as [rest| |] eqn:Hr; try discriminate.
      simpl in H. inversion H; subst. constructor; [constructor|].
      apply (IH rest Hps eq_refl).
    + destruct (wrap p width) as [wrapped| |] eqn:Hw; try discriminate.
      destruct (wrap_paragraphs ps width) as [rest| |] eqn:Hr; try discriminate.
      simpl in H. inversion H; subst.
      apply Forall_app. split; [|apply (IH rest Hps eq_refl)].
      assert (Hwr : Forall (Forall (fun c => (In c text \/ c = SP)
                                             /\ ~ (9 <= code c <= 13))) wrapped).
      { apply (wrap_chars _ p width wrapped); [|exact Hw].
        eapply List.Forall_impl; [|apply munge_chars].
        intros c [[Hc|Hc] Hn]; (split; [|exact Hn]);
          [left; apply (Hin p ltac:(left; reflexivity) c Hc)|right; exact Hc]. }
      destruct wrapped; [constructor; constructor|exact Hwr].
Qed.

(** X20. The lines of [wrap_40] hold characters of the text and spaces,
    nothing else, and none of the layout characters tab, line feed, vertical
    tab, form feed and carriage return (codes 9 to 13): these are
    turned into spaces or taken as the ends of paragraphs, so that on the
    terminal a line break or a form feed comes only from [writeln] and
    [clear]. *)
Theorem wrap_40_lines_hold_no_layout_character (text : str) (width : Z) :
  1 <= width ->
  exists lines,
    wrap_40 text width = Ok lines /\
    Forall (Forall (fun c => (In c text \/ c = SP) /\ ~ (9 <= code c <= 13)))
           lines.
Proof.
  intros Hw. destruct (wrap_40_total text width Hw) as (lines & Heq & _).
  exists lines. split; [exact Heq|].
  apply (wrap_paragraphs_chars text width (split LF text) lines);
    [|exact Heq].
  intros p Hp x Hx. apply (split_chars LF text p Hp x Hx).
Qed.

Lemma wrap_40_lines_hold_no_layout_character_witness :
  exists lines,
    wrap_40 (lit "a" ++ [TAB; chr 12] ++ lit "b" ++ [CR; LF] ++ lit "c") 40 = Ok lines /\
    Forall (Forall (fun c => ~ (9 <= code c <= 13))) lines.
Proof.
  destruct (wrap_40_lines_hold_no_layout_character
              (lit "a" ++ [TAB; chr 12] ++ lit "b" ++ [CR; LF] ++ lit "c") 40)
    as (lines & H1 & H2); [lia|].
  exists lines. split; [exact H1|].
  eapply List.Forall_impl; [|exact H2]. intros l. apply List.Forall_impl. intros c [_ H]. exact H.
Defined.

End WrapChars.

Module PageHeight.
Import PyStrFacts DisplayFacts TextWrapFacts ShellFacts.

(** With a line counted, a page height of one or less is always reached. *)
Lemma paginate_low enabled page_lines o lc :
  page_lines <= 1 -> 1 <= lc ->
  paginate enabled page_lines o lc = paginate enabled 1 o lc.
Proof.
  intros Hp Hl. unfold paginate.
  assert (E1 : (page_lines <=? lc) = true) by (apply Z.leb_le; lia).
  assert (E2 : (1 <=? lc) = true) by (apply Z.leb_le; lia).
  rewrite E1, E2. reflexivity.
Qed.

Lemma paginate_count enabled page_lines o lc :
  0 <= lc -> 0 <= snd (paginate enabled page_lines o lc).
Proof. intros H. unfold paginate. destruct (_ && _); simpl; lia. Qed.

Lemma wrap_text_low mode fuel enabled page_lines :
  page_lines <= 1 ->
  forall remaining st, 0 <= line_count st ->
    wrap_text mode fuel enabled page_lines remaining st
    = wrap_text mode fuel enabled 1 remaining st /\
    forall st', wrap_text mode fuel enabled 1 remaining st = Ok st' ->
                0 <= line_count st'.
Proof.
  intros Hp. induction fuel as [|f IH]; intros remaining st Hl.
  - destruct remaining; simpl; split; try reflexivity; intros st' H;
      [inversion H; subst; exact Hl|discriminate].
  - destruct remaining as [|c remaining].
    + simpl. split; [reflexivity|]. intros st' H. inversion H; subst. exact Hl.
    + rewrite !wrap_text_unfold. destruct (_ <=? _).
      * split; [reflexivity|]. intros st' H.
        destruct mode; inversion H; subst; exact Hl.
      * cbv zeta. destruct mode.
        -- rewrite paginate_low by lia.
           pose proof (paginate_count enabled 1
                         (out st ++ [Write (slice_to (c :: remaining)
                                      (cut_point_of (c :: remaining)
                                         (WRAP_COLS - current_line_len st)));
                                     Writeln []]) (line_count st + 1) ltac:(lia)) as Hc.
           destruct (paginate enabled 1 _ _) as [o2 lc2]. apply IH. exact Hc.
        -- rewrite paginate_low by lia.
           pose proof (paginate_count enabled 1
                         (out st ++ [Write (slice_to (c :: remaining)
                                      (cut_point_of (c :: remaining)
                                         (WRAP_COLS - current_line_len st)));
                                     Writeln []]) (line_count st + 1) ltac:(lia)) as Hc.
           destruct (paginate enabled 1 _ _) as [o2 lc2]. apply IH. exact Hc.
        -- apply IH. exact Hl.
Qed.

Lemma process_buffer_low fuel enabled page_lines :
  page_lines <= 1 ->
  forall buffer st, 0 <= line_count st ->
    process_buffer fuel enabled page_lines buffer st
    = process_buffer fuel enabled 1 buffer st /\
    forall b' st', process_buffer fuel enabled 1 buffer st = Ok (b', st') ->
                   0 <= line_count st'.
Proof.
  intros Hp. induction fuel as [|f IH]; intros buffer st Hl.
  - destruct buffer; simpl; split; try reflexivity; intros b' st' H;
      [inversion H; subst; exact Hl|discriminate].
  - destruct buffer as [|c buffer].
    + simpl. split; [reflexivity|]. intros b' st' H. inversion H; subst. exact Hl.
    + cbn [process_buffer]. destruct (contains LF (c :: buffer)).
      * destruct (wrap_text_low AtNewline
                    (wrap_text_fuel (slice_to (c :: buffer) (find LF (c :: buffer))))
                    enabled page_lines Hp
                    (slice_to (c :: buffer) (find LF (c :: buffer))) st Hl)
          as [Hw Hn].
        rewrite Hw.
        destruct (if _ <=? WRAP_COLS then _ else _) as [st1| |] eqn:E1;
          cbn [bind]; try (split; [reflexivity|intros; discriminate]).
        assert (Hl1 : 0 <= line_count st1).
        { destruct (_ <=? WRAP_COLS); [inversion E1; subst; exact Hl|].
          apply (Hn st1 E1). }
        rewrite paginate_low by lia.
        pose proof (paginate_count enabled 1 (out st1 ++ [Writeln []])
                      (line_count st1 + 1) ltac:(lia)) as Hc.
        destruct (paginate enabled 1 _ _) as [o2 lc2]. apply IH. exact Hc.
      * destruct (contains SP (c :: buffer) && _).
        -- destruct (wrap_text_low AtSpace
                      (wrap_text_fuel (slice_to (c :: buffer) (rfind SP (c :: buffer))))
                      enabled page_lines Hp
                      (slice_to (c :: buffer) (rfind SP (c :: buffer))) st Hl)
             as [Hw Hn].
           rewrite Hw.
           destruct (wrap_text AtSpace _ enabled 1 _ st) as [st1| |] eqn:E1;
             cbn [bind]; try (split; [reflexivity|intros; discriminate]).
           apply IH. apply (Hn st1 eq_refl).
        -- split; [reflexivity|]. intros b' st' H. inversion H; subst. exact Hl.
Qed.

Lemma stream_chunks_low enabled page_lines chunks :
  page_lines <= 1 ->
  forall full_text buffer st, 0 <= line_count st ->
    stream_chunks enabled page_lines chunks full_text buffer st
    = stream_chunks enabled 1 chunks full_text buffer st /\
    forall full b' st',
      stream_chunks enabled 1 chunks full_text buffer st = Ok (full, b', st') ->
      0 <= line_count st'.
Proof.
  intros Hp. induction chunks as [|chunk chunks IH]; intros full_text buffer st Hl.
  - simpl. split; [reflexivity|]. intros full b' st' H. inversion H; subst. exact Hl.
  - cbn [stream_chunks].
    destruct (process_buffer_low (S (length (buffer ++ chunk))) enabled page_lines Hp
                (buffer ++ chunk) st Hl) as [Hb Hn].
    rewrite Hb.
    destruct (process_buffer _ enabled 1 _ st) as [[b2 st1]| |] eqn:E1;
      cbn [bind]; try (split; [reflexivity|intros; discriminate]).
    apply IH. apply (Hn b2 st1 eq_refl).
Qed.

Lemma display_streaming_low enabled page_lines chunks :
  page_lines <= 1 ->
  display_streaming enabled chunks page_lines = display_streaming enabled chunks 1.
Proof.
  intros Hp. unfold display_streaming.
  destruct (stream_chunks_low enabled page_lines chunks Hp [] [] (mkFmt [] 0 0)
              ltac:(simpl; lia)) as [Hs Hn].
  rewrite Hs.
  destruct (stream_chunks enabled 1 chunks [] [] _) as [[[full b] st]| |] eqn:E;
    try reflexivity.
  cbn [bind].
  destruct (wrap_text_low AtEnd (wrap_text_fuel b) enabled page_lines Hp b st
              (Hn full b st eq_refl)) as [Hw _].
  rewrite Hw. reflexivity.
Qed.

(** [display_wrapped] with a page of one line: a pause after every line. *)
Lemma display_lines_low page_lines lines :
  page_lines <= 1 ->
  forall o,
    display_lines true page_lines lines o 0
    = (o ++ concat (map (fun line => Writeln line :: pause_calls) lines), 0).
Proof.
  intros Hp. induction lines as [|line lines IH]; intros o.
  - simpl. rewrite app_nil_r. reflexivity.
  - cbn [display_lines]. change (0 + 1) with 1.
    rewrite paginate_low by lia.
    assert (E : paginate true 1 (o ++ [Writeln line]) 1
                = ((o ++ [Writeln line]) ++ pause_calls, 0)) by reflexivity.
    rewrite E. cbv beta iota. rewrite IH. cbn [map concat].
    rewrite <- !app_assoc. reflexivity.
Qed.

(** X21. A page height of one or less (zero and negative heights included)
    makes a page of one line: with pagination on, [display_wrapped] pauses
    after every line it writes, and [display_streaming] does what it does
    for a page of one line; like for every other height it comes to an end
    and returns the chunks put together. *)
Theorem display_page_of_one_line_or_less (enabled : bool) (page_lines : Z)
  (text : str) (text_generator : list str) :
  page_lines <= 1 ->
  (exists lines,
     wrap_40 text WRAP_COLS = Ok lines /\
     display_wrapped true text page_lines
     = Ok (concat (map (fun line => Writeln line :: pause_calls) lines))) /\
  display_streaming enabled text_generator page_lines
  = display_streaming enabled text_generator 1 /\
  exists calls,
    display_streaming enabled text_generator page_lines
    = Ok (calls, concat text_generator).
Proof.
  intros Hp. split; [|split].
  - destruct (wrap_40_total text WRAP_COLS ltac:(unfold WRAP_COLS; lia))
      as (lines & Hw & _).
    exists lines. split; [exact Hw|]. unfold display_wrapped. rewrite Hw.
    cbn [bind]. rewrite display_lines_low by exact Hp. reflexivity.
  - apply display_streaming_low, Hp.
  - rewrite display_streaming_low by exact Hp.
    apply display_streaming_total. lia.
Qed.

Lemma display_page_of_one_line_or_less_witness :
  display_wrapped true (lit "a" ++ [LF] ++ lit "b") (-3)
  = Ok (Writeln (lit "a") :: pause_calls ++ Writeln (lit "b") :: pause_calls).
Proof.
  destruct (display_page_of_one_line_or_less true (-3) (lit "a" ++ [LF] ++ lit "b") [])
    as ((lines & H1 & H2) & _); [lia|].
  rewrite H2. vm_compute in H1. inversion H1; subst. reflexivity.
Defined.

End PageHeight.

Module TransportMore.
Import PyStrFacts SerialFacts DisplayFacts TextWrapFacts InterfaceFacts
       WrapMore SerialMore WrapChars.

(** Lines without a line feed, each printed with one, are read back by
    splitting at the line feeds. *)
Lemma split_lines (lines : list str) :
  Forall (fun line => ~ In LF line) lines ->
  split LF (concat (map (fun line => line ++ [LF]) lines)) = lines ++ [[]].
Proof.
  induction 1 as [|line lines Hl _ IH]; [reflexivity|].
  cbn [map concat]. rewrite <- app_assoc.
  induction line as [|c line IHl].
  - simpl. rewrite IH. reflexivity.
  - change ((c :: line) ++ [LF] ++ concat (map (fun l => l ++ [LF]) lines))
      with (c :: (line ++ [LF] ++ concat (map (fun l => l ++ [LF]) lines))).
    cbn [split].
    assert (Hc : Ascii.eqb c LF = false).
    { apply Ascii.eqb_neq. intros ->. apply Hl. left. reflexivity. }
    rewrite Hc, IHl; [reflexivity|].
    intros Hin. apply Hl. right. exact Hin.
Qed.

Lemma simulated_run_stdout calls : forall m : SimulatedMinitel.t,
  Forall (fun c => is_wait c = false) calls ->
  SimulatedMinitel.stdout (run calls m)
  = SimulatedMinitel.stdout m
    ++ concat (map (fun c => match c with
                             | Write text => text
                             | Writeln line => line ++ [LF]
                             | WaitKeypress _ => []
                             end) calls).
Proof.
  induction calls as [|c calls IH]; intros m H.
  - simpl. rewrite app_nil_r. reflexivity.
  - inversion H; subst. unfold run in *. simpl fold_left. rewrite IH by assumption.
    destruct c; try discriminate; simpl;
      unfold SimulatedMinitel.write, SimulatedMinitel.writeln;
      rewrite sanitize_latin1_id; simpl; rewrite <- app_assoc; reflexivity.
Qed.

(** X22. For a text whose characters are all in Latin-1, what
    [display_wrapped] puts on the terminal, pagination off, is the lines of
    [wrap_40] and nothing else.  The simulated transport prints each line
    followed by a line feed, and the printed text split at its line feeds
    gives the lines back; an open serial transport sends each line, as it
    is, followed by carriage return and line feed, and no line holds either
    of the two.  (A character outside Latin-1 is not covered: the
    transports put a question mark in its place.) *)
Theorem display_wrapped_round_trip (utext : list Z) (page_lines : Z)
  (m : SimulatedMinitel.t) (s : SerialMinitel.t) :
  Forall (fun cp => 0 <= cp < 256) utext ->
  SerialMinitel.is_open s = true ->
  let text := Unicode.to_str utext in
  exists lines calls,
    Unicode.of_str text = utext /\
    wrap_40 text WRAP_COLS = Ok lines /\
    display_wrapped false text page_lines = Ok calls /\
    (exists printed,
       SimulatedMinitel.stdout (run calls m)
       = SimulatedMinitel.stdout m ++ printed /\
       split LF printed = lines ++ [[]]) /\
    SerialMinitel.tx (run calls s)
    = SerialMinitel.tx s ++ concat (map (fun line => line ++ [CR; LF]) lines) /\
    Forall (fun line => ~ In CR line /\ ~ In LF line) lines /\
    Forall (fun line =>
              Unicode.write_data (Unicode.of_str (line ++ [CR; LF]))
              = Unicode.of_str (line ++ [CR; LF])) lines.
Proof.
  intros Hl Ho text.
  destruct (wrap_40_total text WRAP_COLS ltac:(unfold WRAP_COLS; lia))
    as (lines & Hw & _).
  assert (Hch : Forall (Forall (fun c => (In c text \/ c = SP)
                                         /\ ~ (9 <= code c <= 13))) lines).
  { apply (wrap_paragraphs_chars text WRAP_COLS (split LF text) lines);
      [|exact Hw].
    intros p Hp x Hx. apply (split_chars LF text p Hp x Hx). }
  assert (Hno : Forall (fun line => ~ In CR line /\ ~ In LF line) lines).
  { eapply List.Forall_impl; [|exact Hch]. intros line Hline.
    rewrite List.Forall_forall in Hline.
    split; intros Hin; destruct (Hline _ Hin) as [_ Hn]; apply Hn; vm_compute;
      split; discriminate. }
  exists lines, (map Writeln lines).
  split; [apply LatinText.of_to_str, Hl|]. split; [exact Hw|]. split.
  { unfold display_wrapped. rewrite Hw. cbn [bind].
    rewrite display_lines_unpaged. reflexivity. }
  split; [|split; [|split; [exact Hno|]]].
  - eexists. split.
    + apply simulated_run_stdout. apply Forall_map, Forall_forall.
      intros; reflexivity.
    + rewrite map_map. apply split_lines.
      eapply List.Forall_impl; [|exact Hno]. intros line [_ H]. exact H.
  - destruct (serial_run_tx (map Writeln lines) s Ho) as [_ Htx].
    rewrite Htx, map_map. reflexivity.
  - apply Forall_forall. intros line _. apply LatinText.write_data_of_str.
Qed.

Lemma display_wrapped_round_trip_witness :
  SerialMinitel.tx
    (run (map Writeln [lit "a b"; lit "c"]) (serial_with []))
  = lit "a b" ++ [CR; LF] ++ lit "c" ++ [CR; LF].
Proof.
  destruct (display_wrapped_round_trip
              (Unicode.of_str (lit "a b" ++ [LF] ++ lit "c")) 18
              (simulated_with []) (serial_with []))
    as (lines & calls & _ & H1 & H2 & _ & H4 & _).
  - apply LatinText.of_str_range.
  - reflexivity.
  - vm_compute in H1. inversion H1; subst lines.
    vm_compute in H2. inversion H2; subst calls.
    exact H4.
Defined.

Lemma same_line_refl s : same_line s s.
Proof. repeat split. Qed.

Lemma read_byte_same timeout a b :
  same_line a b ->
  fst (SerialMinitel.read_byte timeout a) = fst (SerialMinitel.read_byte timeout b) /\
  same_line (snd (SerialMinitel.read_byte timeout a))
            (snd (SerialMinitel.read_byte timeout b)).
Proof.
  intros (H1 & H2 & H3 & H4 & H5 & H6).
  unfold SerialMinitel.read_byte, SerialMinitel.is_open. rewrite H1, H5, H6.
  destruct (negb (SerialMinitel.port_open b)); [split; [reflexivity|]; repeat split; assumption|].
  destruct (SerialMinitel.rx b) as [|[arrival byte] more] eqn:E.
  - split; [reflexivity|]. repeat split; simpl; congruence.
  - destruct (arrival <=? SerialMinitel.clock b + timeout).
    + split; [reflexivity|]. repeat split; simpl; congruence.
    + split; [reflexivity|]. repeat split; simpl; congruence.
Qed.

(** Without a character delay an echo takes no time. *)
Lemma write_same text a b :
  same_line a b -> SerialMinitel.char_delay_ms a <= 0 ->
  same_line (SerialMinitel.write text a) b.
Proof.
  intros (H1 & H2 & H3 & H4 & H5 & H6) Hd.
  unfold SerialMinitel.write. destruct (negb (SerialMinitel.is_open a));
    [repeat split; assumption|].
  assert (E : (0 <? SerialMinitel.char_delay_ms a) = false) by (apply Z.ltb_ge; lia).
  rewrite E. repeat split; simpl; assumption.
Qed.

Lemma body_same buffer a b :
  same_line a b -> SerialMinitel.char_delay_ms a <= 0 ->
  match SerialMinitel.read_line_body true buffer a,
        SerialMinitel.read_line_body false buffer b with
  | (SerialMinitel.Continue x, a'), (SerialMinitel.Continue y, b') =>
      x = y /\ same_line a' b' /\ SerialMinitel.tx b' = SerialMinitel.tx b
  | (SerialMinitel.Return x, a'), (SerialMinitel.Return y, b') =>
      x = y /\ SerialMinitel.rx a' = SerialMinitel.rx b' /\
      SerialMinitel.clock b' <= SerialMinitel.clock a'
        <= SerialMinitel.clock b' + Z.max 0 (SerialMinitel.line_delay_ms b) /\
      SerialMinitel.tx b' = SerialMinitel.tx b
  | _, _ => False
  end.
Proof.
  intros Hs Hd. unfold SerialMinitel.read_line_body.
  destruct (read_byte_same 100 a b Hs) as [Hf Hs1].
  destruct (read_byte_frame 100 a) as (_ & _ & Hda & _).
  destruct (read_byte_frame 100 b) as (_ & Hlb & _ & Htb).
  destruct (SerialMinitel.read_byte 100 a) as [o a1].
  destruct (SerialMinitel.read_byte 100 b) as [o' b1].
  simpl in Hf, Hs1, Hda, Hlb, Htb. subst o'.
  destruct o as [byte|]; [|repeat split; try apply Hs1; assumption].
  destruct ((byte =? 13) || (byte =? 10)).
  - destruct (read_byte_same 50 a1 b1 Hs1) as [_ Hs2].
    destruct (read_byte_frame 50 a1) as (_ & _ & Hda2 & _).
    destruct (read_byte_frame 50 b1) as (_ & Hlb2 & _ & Htb2).
    destruct (SerialMinitel.read_byte 50 a1) as [o2 a2].
    destruct (SerialMinitel.read_byte 50 b1) as [o2' b2].
    simpl in Hs2, Hda2, Hlb2, Htb2.
    destruct Hs2 as (H1 & H2 & H3 & H4 & H5 & H6).
    split; [reflexivity|]. split.
    + destruct (writeln_frame [] a2) as (_ & -> & _). exact H6.
    + split; [|congruence].
      unfold SerialMinitel.writeln. change ([] ++ [CR; LF]) with [CR; LF].
      pose proof (write_clock [CR; LF] a2) as Hc.
      destruct (write_frame [CR; LF] a2) as (_ & _ & Hl & _).
      rewrite Hl.
      assert (Hz : Z.max 0 (SerialMinitel.char_delay_ms a2) = 0) by lia.
      rewrite Hz in Hc. change (len [CR; LF]) with 2 in Hc.
      destruct (0 <? SerialMinitel.line_delay_ms a2) eqn:E; simpl.
      * apply Z.ltb_lt in E. lia.
      * lia.
  - destruct ((byte =? 8) || (byte =? 127)).
    + destruct (truthy buffer).
      * split; [reflexivity|]. split; [apply write_same; [exact Hs1|lia]|exact Htb].
      * split; [reflexivity|]. split; [exact Hs1|exact Htb].
    + destruct ((32 <=? byte) && (byte <? 127)).
      * split; [reflexivity|]. split; [apply write_same; [exact Hs1|lia]|exact Htb].
      * destruct (128 <=? byte).
        -- split; [reflexivity|]. split; [apply write_same; [exact Hs1|lia]|exact Htb].
        -- split; [reflexivity|]. split; [exact Hs1|exact Htb].
Qed.

Lemma loop_same fuel : forall start timeout buffer a b line a',
  same_line a b -> SerialMinitel.char_delay_ms a <= 0 ->
  SerialMinitel.read_line_loop fuel start timeout true buffer a = Ok (line, a') ->
  exists b',
    SerialMinitel.read_line_loop fuel start timeout false buffer b = Ok (line, b') /\
    SerialMinitel.rx a' = SerialMinitel.rx b' /\
    SerialMinitel.clock b' <= SerialMinitel.clock a'
      <= SerialMinitel.clock b' + Z.max 0 (SerialMinitel.line_delay_ms b) /\
    SerialMinitel.tx b' = SerialMinitel.tx b.
Proof.
  induction fuel as [|f IH]; intros start timeout buffer a b line a' Hs Hd H.
  - simpl in *. destruct Hs as (H1 & H2 & H3 & H4 & H5 & H6). rewrite <- H5.
    destruct (SerialMinitel.clock a - start <? timeout); [discriminate|].
    inversion H; subst. exists b. repeat split; try assumption; lia.
  - simpl in *. pose proof Hs as (H1 & H2 & H3 & H4 & H5 & H6). rewrite <- H5.
    destruct (SerialMinitel.clock a - start <? timeout).
    + pose proof (body_same buffer a b Hs Hd) as Hb.
      pose proof (body_clock true buffer a) as (_ & Hda & _).
      pose proof (body_clock false buffer b) as (_ & _ & Hlb).
      destruct (SerialMinitel.read_line_body true buffer a) as [[x|x] a1];
        destruct (SerialMinitel.read_line_body false buffer b) as [[y|y] b1];
        try contradiction; simpl in Hda, Hlb.
      * destruct Hb as (-> & Hr & Hc & Ht). inversion H; subst.
        exists b1. repeat split; try assumption; lia.
      * destruct Hb as (-> & Hs1 & Ht).
        destruct (IH _ _ _ _ _ _ _ Hs1 ltac:(lia) H) as (b' & Hb' & Hr & Hc & Ht').
        exists b'. split; [exact Hb'|]. split; [exact Hr|].
        rewrite Hlb in Hc. split; [exact Hc|congruence].
    + inversion H; subst. exists b. repeat split; try assumption; lia.
Qed.

(** X23. Without a character delay the echo changes nothing of what
    [read_line] reads: with [echo] on and off it returns the same line and
    leaves the same bytes unread; the run with echo ends later by the line
    delay at most, and the run without echo sends nothing. *)
Theorem read_line_echo_reads_the_same (timeout : Z) (s : SerialMinitel.t) :
  SerialMinitel.char_delay_ms s <= 0 ->
  exists line s1 s2,
    SerialMinitel.read_line timeout true s = Ok (line, s1) /\
    SerialMinitel.read_line timeout false s = Ok (line, s2) /\
    SerialMinitel.rx s1 = SerialMinitel.rx s2 /\
    SerialMinitel.clock s2 <= SerialMinitel.clock s1
      <= SerialMinitel.clock s2 + Z.max 0 (SerialMinitel.line_delay_ms s) /\
    SerialMinitel.tx s2 = SerialMinitel.tx s.
Proof.
  intros Hd. destruct (read_line_total timeout true s) as ([line s1] & H1).
  exists line, s1. unfold SerialMinitel.read_line in *.
  destruct (negb (SerialMinitel.is_open s)).
  - inversion H1; subst. exists s1. repeat split; lia.
  - destruct (loop_same _ _ _ _ _ _ _ _ (same_line_refl s) Hd H1)
      as (s2 & H2 & Hr & Hc & Ht).
    exists s2. repeat split; try assumption; lia.
Qed.

Lemma read_line_echo_reads_the_same_witness :
  exists s1 s2,
    SerialMinitel.read_line 1000 true (serial_with [65; 8; 66; 13]) = Ok (Some (lit "B"), s1) /\
    SerialMinitel.read_line 1000 false (serial_with [65; 8; 66; 13]) = Ok (Some (lit "B"), s2).
Proof.
  destruct (read_line_echo_reads_the_same 1000 (serial_with [65; 8; 66; 13]))
    as (line & s1 & s2 & H1 & H2 & _); [simpl; lia|].
  exists s1, s2. rewrite H1, H2. vm_compute in H1. inversion H1. split; reflexivity.
Defined.

End TransportMore.
